(** * clyro CLI: the stylesheet theme-merge engine

    Shallow embedding of [packages/cli/src/utils/theme-injector.ts] and
    the properties of its specification.

    A JavaScript string is a sequence of UTF-16 code units; it is modelled
    as a list of code units, each a natural number ([N]).  The regular
    expressions of the source are embedded as first-match functions that
    follow the backtracking order of the ECMAScript matcher; the comment
    above each one says which part of the pattern each step stands for. *)

From Stdlib Require Import NArith ZArith Ascii String Bool Arith Lia List.
Import ListNotations.

(** ** JavaScript strings *)

Definition char := N.
Definition str := list char.

Definition ch (a : ascii) : char := N_of_ascii a.
Arguments ch : simpl never.

(** A string literal of the source. *)
Definition js (s : string) : str := map ch (list_ascii_of_string s).
Arguments js s%_string : simpl never.

(** The double quote, which the literals below splice in. *)
Definition dq : str := [34%N].

Definition LF : char := 10%N.

Open Scope N_scope.

(** ECMAScript LineTerminator: LF, CR, LS, PS. *)
Definition is_lt (c : char) : bool :=
  (c =? 10) || (c =? 13) || (c =? 8232) || (c =? 8233).

(** ECMAScript WhiteSpace and LineTerminator together: what [trim] strips
    and what the class [\s] matches. *)
Definition is_ws (c : char) : bool :=
  ((9 <=? c) && (c <=? 13)) || (c =? 32) || (c =? 160) || (c =? 5760)
  || ((8192 <=? c) && (c <=? 8202)) || (c =? 8232) || (c =? 8233)
  || (c =? 8239) || (c =? 8287) || (c =? 12288) || (c =? 65279).

(** The class [\w]: ASCII letters, digits and the underscore. *)
Definition is_word (c : char) : bool :=
  ((48 <=? c) && (c <=? 57)) || ((65 <=? c) && (c <=? 90))
  || ((97 <=? c) && (c <=? 122)) || (c =? 95).

(** The class [[\w-]]. *)
Definition is_name (c : char) : bool := is_word c || (c =? 45).

Close Scope N_scope.

Fixpoint str_eqb (a b : str) : bool :=
  match a, b with
  | [], [] => true
  | x :: a', y :: b' => N.eqb x y && str_eqb a' b'
  | _, _ => false
  end.

(** Longest prefix whose characters satisfy [p], and the rest. *)
Fixpoint span (p : char -> bool) (s : str) : str * str :=
  match s with
  | [] => ([], [])
  | c :: s' =>
      if p c then let (a, b) := span p s' in (c :: a, b) else ([], s)
  end.

Definition trimStart (s : str) : str := snd (span is_ws s).

Fixpoint trimEnd (s : str) : str :=
  match s with
  | [] => []
  | c :: s' =>
      match trimEnd s' with
      | [] => if is_ws c then [] else [c]
      | t => c :: t
      end
  end.

(** [String.prototype.trim]. *)
Definition trim (s : str) : str := trimEnd (trimStart s).

(** [s.split("\n")]: never the empty array. *)
Fixpoint split_nl (s : str) : list str :=
  match s with
  | [] => [[]]
  | c :: s' =>
      if N.eqb c LF then [] :: split_nl s'
      else match split_nl s' with
           | l :: ls => (c :: l) :: ls
           | [] => [[c]]
           end
  end.

(** [parts.join(sep)]. *)
Fixpoint join (sep : str) (parts : list str) : str :=
  match parts with
  | [] => []
  | x :: rest =>
      match rest with
      | [] => x
      | _ :: _ => x ++ sep ++ join sep rest
      end
  end.

(** [s.startsWith(p)]. *)
Fixpoint startsWith (s p : str) {struct p} : bool :=
  match p with
  | [] => true
  | a :: p' =>
      match s with
      | [] => false
      | b :: s' => N.eqb a b && startsWith s' p'
      end
  end.

Fixpoint indexOf_at (s pat : str) (i : nat) {struct s} : option nat :=
  if startsWith s pat then Some i
  else match s with
       | [] => None
       | _ :: s' => indexOf_at s' pat (S i)
       end.

(** [s.indexOf(pat)]; [None] stands for -1. *)
Definition indexOf (s pat : str) : option nat := indexOf_at s pat 0.

(** [s.indexOf(pat, from)]. *)
Definition indexOfFrom (s pat : str) (from : nat) : option nat :=
  let from' := Nat.min from (length s) in
  indexOf_at (skipn from' s) pat from'.

(** [s.slice(a, b)] for indices that are not negative. *)
Definition slice (s : str) (a b : nat) : str := firstn (b - a) (skipn a s).

(** [arr.includes(x)] on an array of strings. *)
Definition includes (arr : list str) (x : str) : bool :=
  existsb (str_eqb x) arr.

(** [arr.filter(Boolean)] on an array of strings: the empty string is the
    only falsy one. *)
Definition filterBoolean (arr : list str) : list str :=
  filter (fun x => match x with [] => false | _ => true end) arr.

(** [s.replace(pat, empty)] with a string pattern: the first occurrence only.
    An empty pattern is found at index 0 and removing it changes nothing. *)
Definition replaceStr (s pat : str) : str :=
  match indexOf s pat with
  | Some i => firstn i s ++ skipn (i + length pat) s
  | None => s
  end.

(** ** Regular expressions *)

(** [s.replace(re, empty)] for a regular expression with the [g] flag.
    [here bol s] is the length of the match of [re] that starts at the head
    of [s], when there is one; [bol] says whether that position is the
    start of the input or follows a line terminator (where [^] holds under
    the [m] flag).  [skip] counts the characters of the current match that
    are still to be dropped.  After a match the search resumes right after
    it; a position with an empty match keeps its character. *)
Fixpoint removeAll (here : bool -> str -> option nat) (bol : bool)
    (skip : nat) (s : str) : str :=
  match s with
  | [] => []
  | c :: s' =>
      match skip with
      | S k => removeAll here (is_lt c) k s'
      | O =>
          match here bol s with
          | Some (S k) => removeAll here (is_lt c) k s'
          | _ => c :: removeAll here (is_lt c) 0 s'
          end
      end
  end.

(** Whether the position after the characters [a] follows a line
    terminator, [bol] telling it for the position before them. *)
Fixpoint bol_after (bol : bool) (a : str) : bool :=
  match a with
  | [] => bol
  | c :: a' => bol_after (is_lt c) a'
  end.

(** [$] under the [m] flag: end of input or a line terminator next. *)
Definition at_eol (s : str) : bool :=
  match s with
  | [] => true
  | d :: _ => is_lt d
  end.

(** The tail [.*?;$] of IMPORT_REGEX, lazily: stop at the first [;] that
    ends its line; otherwise [.] takes one character that is not a line
    terminator. *)
Fixpoint import_tail (s : str) : option nat :=
  match s with
  | [] => None
  | c :: s' =>
      if N.eqb c (ch ";") && at_eol s' then Some 1
      else if is_lt c then None
      else option_map S (import_tail s')
  end.

(** [IMPORT_REGEX = /^@import\s+.*?;$/gm] at the head of [s].
    [\s+] is greedy and takes the whole run of white space.  Giving back
    part of the run never helps: the characters given back would have to be
    matched by [.], and then the same [;] would have been found from the
    end of the run already. *)
Definition IMPORT_REGEX (bol : bool) (s : str) : option nat :=
  if bol && startsWith s (js "@import") then
    let (ws, r) := span is_ws (skipn 7 s) in
    match ws with
    | [] => None
    | _ :: _ => option_map (fun n => 7 + length ws + n) (import_tail r)
    end
  else None.

(** After the opening of a comment: [.*?\*\/], lazily. The result is the
    number of characters through the closing [*/]. *)
Fixpoint comment_tail (s : str) : option nat :=
  match s with
  | [] => None
  | c :: s' =>
      if startsWith s (js "*/") then Some 2
      else if is_lt c then None
      else option_map S (comment_tail s')
  end.

(** [/\/\*.*?\*\//g] at the head of [s]. *)
Definition COMMENT_REGEX (bol : bool) (s : str) : option nat :=
  if startsWith s (js "/*") then
    option_map (fun n => 2 + n) (comment_tail (skipn 2 s))
  else None.

(** Index of the first [c] in [s]. *)
Fixpoint find_char (c : char) (s : str) : option nat :=
  match s with
  | [] => None
  | d :: s' => if N.eqb d c then Some 0 else option_map S (find_char c s')
  end.

(** The selectors of the two single-block patterns. *)
Inductive selector := Root | Dark.

Definition selector_text (k : selector) : str :=
  match k with
  | Root => js ":root"
  | Dark => js ".dark"
  end.

(** [ROOT_REGEX = /:root\s*\{([\s\S]*?)\}/m] and
    [DARK_REGEX = /\.dark\s*\{([\s\S]*?)\}/m] at the head of [s]: the
    selector, the run of white space, an opening brace, and lazily
    everything up to the first closing brace. The result is the length of
    the match and the text of group 1. *)
Definition block_regex_here (k : selector) (s : str) : option (nat * str) :=
  if startsWith s (selector_text k) then
    let (ws, r) := span is_ws (skipn 5 s) in
    match r with
    | c :: body =>
        if N.eqb c (ch "{") then
          match find_char (ch "}") body with
          | Some j => Some (5 + length ws + 1 + j + 1, firstn j body)
          | None => None
          end
        else None
    | [] => None
    end
  else None.

(** The leftmost match of the pattern in [s]: its index, its length and
    group 1. *)
Fixpoint block_regex_at (k : selector) (s : str) (i : nat) {struct s}
    : option (nat * nat * str) :=
  match block_regex_here k s with
  | Some (n, body) => Some (i, n, body)
  | None =>
      match s with
      | [] => None
      | _ :: s' => block_regex_at k s' (S i)
      end
  end.

Definition block_regex_exec (k : selector) (s : str)
    : option (nat * nat * str) :=
  block_regex_at k s 0.

(** The two patterns under the names of the source. *)
Abbreviation ROOT_REGEX := Root.
Abbreviation DARK_REGEX := Dark.

(** [(s.match(RE) || [])[1]], or the empty string when it is falsy. *)
Definition match_group1 (k : selector) (s : str) : str :=
  match block_regex_exec k s with
  | Some (_, _, body) => body
  | None => []
  end.

(** [s.match(RE)[0]], or the empty string when there is no match. *)
Definition match_whole (k : selector) (s : str) : str :=
  match block_regex_exec k s with
  | Some (i, n, _) => firstn n (skipn i s)
  | None => []
  end.

(** [s.replace(RE, empty)] for a pattern without the [g] flag. *)
Definition replace_block_regex (k : selector) (s : str) : str :=
  match block_regex_exec k s with
  | Some (i, n, _) => firstn i s ++ skipn (i + n) s
  | None => s
  end.

(** [line.match(/^--([\w-]+):\s*(.+);$/)]: groups 1 and 2.
    Without the [m] flag [^] and [$] are the two ends of the line.  The
    name is the whole run of name characters after the two dashes and a
    colon must follow it.  The last character of the line is the closing
    [;]; between the colon and it, [\s*] first takes the whole run of
    white space and [.+] the rest, which must hold no line terminator.
    When nothing is left for [.+], [\s*] gives back its last character. *)
Definition VAR_REGEX (line : str) : option (str * str) :=
  if startsWith line (js "--") then
    let (name, r) := span is_name (skipn 2 line) in
    match name, r with
    | _ :: _, c :: r' =>
        if N.eqb c (ch ":") then
          match rev r' with
          | last :: between_rev =>
              if N.eqb last (ch ";") then
                let (ws, val) := span is_ws (rev between_rev) in
                match val with
                | _ :: _ =>
                    if forallb (fun x => negb (is_lt x)) val
                    then Some (name, val) else None
                | [] =>
                    match rev ws with
                    | w :: _ => if is_lt w then None else Some (name, [w])
                    | [] => None
                    end
                end
              else None
          | [] => None
          end
        else None
    | _, _ => None
    end
  else None.

(** ** Objects used as maps

    [Record<string, string>] keeps its string keys in insertion order
    (every key of this program starts with two dashes, so none is an array
    index, which JavaScript would list first).  It is modelled as an
    association list without repeated keys. *)

Definition Record := list (str * str).

(** [vars[k] = v]: an existing key keeps its place and takes the new
    value, a new key goes to the end. *)
Fixpoint set (k v : str) (vars : Record) : Record :=
  match vars with
  | [] => [(k, v)]
  | (k', v') :: rest =>
      if str_eqb k k' then (k', v) :: rest else (k', v') :: set k v rest
  end.

(** [vars[k]], [None] for [undefined]. *)
Fixpoint get (k : str) (vars : Record) : option str :=
  match vars with
  | [] => None
  | (k', v') :: rest => if str_eqb k k' then Some v' else get k rest
  end.

Definition keys (vars : Record) : list str := map fst vars.

(** Object spread [{ ...acc, ...src }] into the object under construction:
    the entries of [src] are assigned one by one, in their order. *)
Definition spread (src acc : Record) : Record :=
  fold_left (fun o kv => set (fst kv) (snd kv) o) src acc.

(** [{ ...a, ...b }] *)
Definition spread2 (a b : Record) : Record := spread b (spread a []).

(** The entry of key [k] takes the value [v]; the others stay. *)
Definition overwrite (k v : str) (kv : str * str) : str * str :=
  if str_eqb k (fst kv) then (fst kv, v) else kv.

(** What the user map does to an entry of the template. *)
Definition user_value (u : Record) (kv : str * str) : str * str :=
  (fst kv, match get (fst kv) u with Some v => v | None => snd kv end).

(** The entries of the user map whose key is not one of [ks]. *)
Definition only_user (ks : list str) (u : Record) : Record :=
  filter (fun kv => negb (includes ks (fst kv))) u.

(** No key is listed twice. *)
Fixpoint uniqueKeys (vars : Record) : bool :=
  match vars with
  | [] => true
  | (k, _) :: rest => negb (includes (keys rest) k) && uniqueKeys rest
  end.

(** ** theme-injector.ts *)

(** The two entries of [REQUIRED_IMPORTS]. *)
Definition import_tailwindcss : str :=
  js "@import " ++ dq ++ js "tailwindcss" ++ dq ++ js ";".
Definition import_tw_animate_css : str :=
  js "@import " ++ dq ++ js "tw-animate-css" ++ dq ++ js ";".

Definition REQUIRED_IMPORTS : list str :=
  [ import_tailwindcss; import_tw_animate_css ].

(** [line.trim().replace(/\/\*.*?\*\//g, empty)] *)
Definition strip_line (line : str) : str :=
  removeAll COMMENT_REGEX true 0 (trim line).

(** The body of the [forEach] of [extractVars]. *)
Definition extractVars_step (vars : Record) (line : str) : Record :=
  match VAR_REGEX line with
  | Some (m1, m2) => set (js "--" ++ m1) (trim m2) vars
  | None => vars
  end.

Definition extractVars (block : str) : Record :=
  fold_left extractVars_step (map strip_line (split_nl block)) [].

Definition buildBlock (selector : str) (vars : Record) : str :=
  let body :=
    join [LF]
      (map (fun kv => js "  " ++ fst kv ++ js ": " ++ snd kv ++ js ";") vars)
  in
  selector ++ js " {" ++ [LF] ++ body ++ [LF] ++ js "}".

(** The state of the [while] loop of [extractBlock]: [rest] is
    [content.slice(i)].  The result is the value of [i] when the loop
    ends. *)
Fixpoint scan_braces (rest : str) (braceCount : Z) (i : nat) : nat :=
  match rest with
  | [] => i
  | c :: rest' =>
      if (0 <? braceCount)%Z then
        let braceCount' :=
          if N.eqb c (ch "{") then (braceCount + 1)%Z
          else if N.eqb c (ch "}") then (braceCount - 1)%Z
          else braceCount in
        scan_braces rest' braceCount' (S i)
      else i
  end.

Definition extractBlock (content keyword : str) : str :=
  match indexOf content keyword with
  | None => []
  | Some startIdx =>
      match indexOfFrom content (js "{") startIdx with
      | None => []
      | Some openIdx =>
          let i := scan_braces (skipn (openIdx + 1) content) 1 (openIdx + 1) in
          slice content startIdx i
      end
  end.

(** The depth counter of the Block Extractor of the specification after
    the characters [t], from the depth [d]: an opening brace counts +1 and
    a closing brace -1. *)
Fixpoint depth_from (d : Z) (t : str) : Z :=
  match t with
  | [] => d
  | c :: t' =>
      depth_from
        (if N.eqb c (ch "{") then d + 1
         else if N.eqb c (ch "}") then d - 1 else d)%Z t'
  end.

(** The depth after the opening brace (already consumed) and [t]. *)
Definition depth (t : str) : Z := depth_from 1 t.

(** The key of a custom property as the declaration pattern reads it: two
    dashes and a name of one or more name characters. *)
Definition valid_key (k : str) : bool :=
  startsWith k (js "--")
  && match skipn 2 k with
     | [] => false
     | name => forallb is_name name
     end.

(** A value that the extractor gives back as it is: already trimmed, on
    one line, and without a comment for the extractor to remove. *)
Definition valid_value (v : str) : bool :=
  str_eqb (trim v) v
  && forallb (fun c => negb (is_lt c)) v
  && str_eqb (removeAll COMMENT_REGEX true 0 v) v.

Definition valid_entry (kv : str * str) : bool :=
  valid_key (fst kv) && valid_value (snd kv).

(** What every entry of an extracted map is: a key of the shape of the
    pattern, and a value that is trimmed and on one line. *)
Definition regular_entry (kv : str * str) : bool :=
  valid_key (fst kv)
  && str_eqb (trim (snd kv)) (snd kv)
  && forallb (fun c => negb (is_lt c)) (snd kv).

(** The line that [buildBlock] writes for an entry. *)
Definition declaration (kv : str * str) : str :=
  js "  " ++ fst kv ++ js ": " ++ snd kv ++ js ";".

(** The other single-block pattern. *)
Definition other (k : selector) : selector :=
  match k with
  | Root => Dark
  | Dark => Root
  end.

(** A block as the single-block patterns read it: the selector, white
    space, and a body between braces. *)
Definition block_text (k : selector) (ws body : str) : str :=
  selector_text k ++ ws ++ ch "{" :: body ++ [ch "}"].

(** Following the specification (4.6, steps 3 and 5): the user section of
    a selector is the block that the Block Extractor locates, its
    variables are read from that block, and the block is what is replaced
    with the empty string. *)
Definition spec_user_section (k : selector) (workingContent : str) : str :=
  extractBlock workingContent (selector_text k).

Definition spec_strip_section (k : selector) (workingContent : str) : str :=
  replaceStr workingContent (spec_user_section k workingContent).

(** What [buildBlock] writes between the braces. *)
Definition block_body (vars : Record) : str :=
  LF :: join [LF] (map declaration vars) ++ [LF].

(** *** Conditions under which a second run changes nothing *)

(** The pattern does not occur in the text. *)
Definition free_of (pat s : str) : bool :=
  match indexOf s pat with
  | None => true
  | Some _ => false
  end.

(** A line that the two import steps leave alone: it holds no line
    terminator and its trimmed form does not start with [@import]. *)
Definition quiet_line (l : str) : bool :=
  forallb (fun c => negb (is_lt c)) l
  && negb (startsWith (trim l) (js "@import")).

(** A text of such lines: LF is its only line terminator and none of its
    lines is an import.  The rendered blocks are such texts. *)
Definition quiet (s : str) : bool := forallb quiet_line (split_nl s).

(** No line of the text is collected as an import by STEP 1. *)
Definition no_import_line (s : str) : bool :=
  forallb (fun l => negb (startsWith (trim l) (js "@import"))) (split_nl s).

(** IMPORT_REGEX has no match in the text: the replacement leaves it as
    it is. *)
Definition no_import_match (s : str) : bool :=
  str_eqb (removeAll IMPORT_REGEX true 0 s) s.

(** A text that the two import steps leave alone. *)
Definition import_free (s : str) : bool :=
  no_import_line s && no_import_match s.

(** No match of IMPORT_REGEX starts in the text, [b] telling whether its
    first position is the start of a line. *)
Fixpoint matchless (b : bool) (s : str) : bool :=
  match s with
  | [] => true
  | c :: s' =>
      match IMPORT_REGEX b s with
      | Some _ => false
      | None => matchless (is_lt c) s'
      end
  end.

(** An import line that IMPORT_REGEX matches from end to end. *)
Definition whole_import (l : str) : bool :=
  match IMPORT_REGEX true l with
  | Some n => Nat.eqb n (length l)
  | None => false
  end.

(** The single-block pattern has no match in the text. *)
Definition no_block_match (k : selector) (s : str) : bool :=
  match block_regex_exec k s with
  | None => true
  | Some _ => false
  end.

(** The block of the keyword in the template is closed: where the loop of
    [extractBlock] stops, the depth counter is back to 0. *)
Definition closed_section (tpl keyword : str) : bool :=
  match indexOf tpl keyword with
  | None => false
  | Some startIdx =>
      match indexOfFrom tpl (js "{") startIdx with
      | None => false
      | Some openIdx =>
          let i := scan_braces (skipn (openIdx + 1) tpl) 1 (openIdx + 1) in
          Z.eqb (depth (slice tpl (openIdx + 1) i)) 0
      end
  end.

(** A value that can stand in a rendered block and be read again: it
    holds no comment for the extractor to remove. *)
Definition plain_value (kv : str * str) : bool :=
  str_eqb (removeAll COMMENT_REGEX true 0 (snd kv)) (snd kv).

Definition not_close (c : char) : bool := negb (N.eqb c (ch "}")).

(** What the output is assembled from (steps 6 and 7). *)
Definition assemble (imports : list str)
    (themeInline rootBlock darkBlock layerBase rest : str) : str :=
  trim
    (join [LF; LF]
       (filterBoolean
          [ join [LF] imports; [];
            join [LF; LF]
              (filterBoolean
                 [ themeInline; []; rootBlock; []; darkBlock; []; layerBase ]);
            []; rest ]))
  ++ [LF].

Section Engine.

(** [clyro_REACT_THEME_BLOCK], the constant of
    [constants/theme-template.ts]. *)
Variable clyro_REACT_THEME_BLOCK : str.

Definition getCoreSection (keyword : str) : str :=
  extractBlock clyro_REACT_THEME_BLOCK keyword.

(** STEP 1: the [@import] lines of the file, then the required ones that
    are missing. *)
Definition importLines (cssContent : str) : list str :=
  let found :=
    fold_left
      (fun acc line =>
         if startsWith (trim line) (js "@import")
         then acc ++ [trim line] else acc)
      (split_nl cssContent) [] in
  fold_left
    (fun acc req => if includes acc req then acc else acc ++ [req])
    REQUIRED_IMPORTS found.

(** [cssContent.replace(IMPORT_REGEX, empty).trim()] *)
Definition workingContent0 (cssContent : str) : str :=
  trim (removeAll IMPORT_REGEX true 0 cssContent).

(** STEP 2 *)
Definition coreRootVars : Record :=
  extractVars (match_group1 ROOT_REGEX clyro_REACT_THEME_BLOCK).
Definition coreDarkVars : Record :=
  extractVars (match_group1 DARK_REGEX clyro_REACT_THEME_BLOCK).
Definition coreThemeInline : str := getCoreSection (js "@theme inline").
Definition coreLayerBase : str := getCoreSection (js "@layer base").

(** STEP 3 *)
Definition userRootVars (workingContent : str) : Record :=
  extractVars (match_group1 ROOT_REGEX workingContent).
Definition userDarkVars (workingContent : str) : Record :=
  extractVars (match_group1 DARK_REGEX workingContent).

(** STEP 4 *)
Definition mergedRootBlock (workingContent : str) : str :=
  buildBlock (js ":root") (spread2 coreRootVars (userRootVars workingContent)).
Definition mergedDarkBlock (workingContent : str) : str :=
  buildBlock (js ".dark") (spread2 coreDarkVars (userDarkVars workingContent)).

(** STEP 5.  The two [extractBlock] arguments are computed from the
    working content as it is before the assignment, that is before any
    section is stripped. *)
Definition stripOldSections (workingContent : str) : str :=
  trim
    (replaceStr
       (replaceStr
          (replace_block_regex DARK_REGEX
             (replace_block_regex ROOT_REGEX workingContent))
          (extractBlock workingContent (js "@theme inline")))
       (extractBlock workingContent (js "@layer base"))).

(** The leftover user CSS of a file. *)
Definition leftover (cssContent : str) : str :=
  stripOldSections (workingContent0 cssContent).

(** The piece that [s.replace(RE, empty)] removes from [s]: its index and
    its length; an empty piece when the pattern has no match. *)
Definition regex_cut (k : selector) (s : str) : nat * nat :=
  match block_regex_exec k s with
  | Some (i, n, _) => (i, n)
  | None => (0, 0)
  end.

(** The piece that [s.replace(pat, empty)] removes from [s]. *)
Definition text_cut (s pat : str) : nat * nat :=
  match indexOf s pat with
  | Some i => (i, length pat)
  | None => (0, 0)
  end.

(** Where the part of length [len] at the index [p] of a text is once the
    piece [cut] has been removed, when the piece lies before the part or
    after it; [None] when the two overlap. *)
Definition moved (cut : nat * nat) (len p : nat) : option nat :=
  let (i, n) := cut in
  if i + n <=? p then Some (p - n)
  else if p + len <=? i then Some p
  else None.

(** Whether none of the four pieces that STEP 5 removes from the working
    content overlaps the part of length [len] at the index [p]. *)
Definition clear_of_strips (workingContent : str) (p len : nat) : bool :=
  let s1 := replace_block_regex ROOT_REGEX workingContent in
  let s2 := replace_block_regex DARK_REGEX s1 in
  let themeBlock := extractBlock workingContent (js "@theme inline") in
  let s3 := replaceStr s2 themeBlock in
  let layerBlock := extractBlock workingContent (js "@layer base") in
  match moved (regex_cut ROOT_REGEX workingContent) len p with
  | None => false
  | Some p1 =>
      match moved (regex_cut DARK_REGEX s1) len p1 with
      | None => false
      | Some p2 =>
          match moved (text_cut s2 themeBlock) len p2 with
          | None => false
          | Some p3 =>
              match moved (text_cut s3 layerBlock) len p3 with
              | None => false
              | Some _ => true
              end
          end
      end
  end.

(** STEP 6 *)
Definition clyroBlock (workingContent : str) : str :=
  join [LF; LF]
    (filterBoolean
       [ coreThemeInline; []; mergedRootBlock workingContent; [];
         mergedDarkBlock workingContent; []; coreLayerBase ]).

(** STEP 7: the text written back to the file. *)
Definition finalCss (cssContent : str) : str :=
  let workingContent := workingContent0 cssContent in
  let compactImports := join [LF] (importLines cssContent) in
  let finalCss :=
    join [LF; LF]
      (filterBoolean
         [ compactImports; []; clyroBlock workingContent; [];
           stripOldSections workingContent ]) in
  trim finalCss ++ [LF].

(** The template is fit for a second run: its two named blocks are closed
    and the import steps leave them alone, and the mapping block, which
    comes first in the output, holds no match of the two single-block
    patterns and not the keyword of the base layer. *)
Definition template_ok : bool :=
  closed_section clyro_REACT_THEME_BLOCK (js "@theme inline")
  && closed_section clyro_REACT_THEME_BLOCK (js "@layer base")
  && import_free coreThemeInline && import_free coreLayerBase
  && no_block_match ROOT_REGEX coreThemeInline
  && no_block_match DARK_REGEX coreThemeInline
  && free_of (js "@layer base") coreThemeInline.

(** STEP 3 and STEP 4 for the [.dark] section on the two merged blocks as
    the output holds them, the [:root] block first. *)
Definition darkBlockReadBack (workingContent : str) : str :=
  mergedDarkBlock
    (mergedRootBlock workingContent
     ++ LF :: LF :: mergedDarkBlock workingContent).

(** The first run on a file is fit for a second one: IMPORT_REGEX takes
    every collected import line from end to end, the import steps leave
    the leftover text alone, no merged [:root] value holds a comment, the
    merged [.dark] block is read back from the two merged blocks, and
    these do not hold the keyword of the base layer. *)
Definition run_ok (cssContent : str) : bool :=
  let workingContent := workingContent0 cssContent in
  forallb whole_import (importLines cssContent)
  && import_free (stripOldSections workingContent)
  && forallb plain_value
       (spread2 coreRootVars (userRootVars workingContent))
  && str_eqb (darkBlockReadBack workingContent)
       (mergedDarkBlock workingContent)
  && free_of (js "@layer base") (mergedRootBlock workingContent)
  && free_of (js "@layer base") (mergedDarkBlock workingContent).

(** *** The file system and the console *)

Inductive level := Info | Warn.

(** The two messages of the function, each with the path it names. *)
Inductive message :=
| CssFileNotFound (cssFilePath : string)
| SmartMerged (cssFilePath : string).

(** A write to a path of [readOnly] fails.  [partialWrite] tells how: with
    [None] the file cannot be opened for writing and stays as it was; with
    [Some s] the error comes after the open, which has truncated the file,
    and [s] is the part of the data that has reached the file by then. *)
Record World := {
  files : string -> option str;      (* the content of the files that exist *)
  readOnly : string -> bool;         (* paths whose write fails *)
  partialWrite : string -> option str; (* what a failed write leaves *)
  console : list (level * message)   (* what the logger has printed *)
}.

Inductive outcome :=
| Resolved                 (* the promise resolves *)
| Rejected (path : string) (* an I/O error propagates to the caller *).

Definition existsSync (w : World) (p : string) : bool :=
  match files w p with Some _ => true | None => false end.

(** The world in which the file of the path [p] holds [data]. *)
Definition withFile (w : World) (p : string) (data : str) : World :=
  {| files := fun q => if String.eqb q p then Some data else files w q;
     readOnly := readOnly w;
     partialWrite := partialWrite w;
     console := console w |}.

(** [fs.writeFile]: whether the write succeeded, and the world after it.
    The file is opened with truncation and the data is written to it, so
    a write that fails after the open leaves part of the data, or
    nothing, in the file. *)
Definition writeFile (w : World) (p : string) (data : str) : bool * World :=
  if readOnly w p then
    (false,
     match partialWrite w p with
     | None => w
     | Some written => withFile w p written
     end)
  else (true, withFile w p data).

Definition log (l : level) (msg : message) (w : World) : World :=
  {| files := files w; readOnly := readOnly w;
     partialWrite := partialWrite w;
     console := console w ++ [(l, msg)] |}.

Definition injectclyroTheme (cssFilePath : string) (w : World)
    : outcome * World :=
  if negb (existsSync w cssFilePath) then
    (Resolved, log Warn (CssFileNotFound cssFilePath) w)
  else
    match files w cssFilePath with
    | None => (Rejected cssFilePath, w)
    | Some cssContent =>
        match writeFile w cssFilePath (finalCss cssContent) with
        | (false, w') => (Rejected cssFilePath, w')
        | (true, w') => (Resolved, log Info (SmartMerged cssFilePath) w')
        end
    end.

End Engine.

(** Modelled from the spec: the constant [clyro_REACT_THEME_BLOCK] of
    [constants/theme-template.ts], which the functions above take as a
    parameter.  This one has the shape that section 6 of the specification
    asks for: one mapping block, one [:root] block, one [.dark] block and
    one base-layer block.  It is used where a theorem is evaluated on a
    concrete input. *)
Definition sample_template : str :=
  js "@theme inline {" ++ [LF] ++
  js "  --color-primary: var(--primary);" ++ [LF] ++
  js "}" ++ [LF] ++ [LF] ++
  js ":root {" ++ [LF] ++
  js "  --primary: blue;" ++ [LF] ++
  js "  --radius: 0.5rem;" ++ [LF] ++
  js "}" ++ [LF] ++ [LF] ++
  js ".dark {" ++ [LF] ++
  js "  --primary: navy;" ++ [LF] ++
  js "}" ++ [LF] ++ [LF] ++
  js "@layer base {" ++ [LF] ++
  js "  body {" ++ [LF] ++
  js "    @apply bg-background;" ++ [LF] ++
  js "  }" ++ [LF] ++
  js "}" ++ [LF].


(** ** A reference matcher

    The patterns of the source, written as syntax trees, and a
    backtracking matcher that tries the alternatives in the order of the
    ECMAScript algorithm.  The first-match functions above are compared
    with it on the inputs that the theorems below evaluate. *)

Inductive regex :=
| Lit (c : char)
| Class (p : char -> bool)
| Cat (a b : regex)
| Rep (greedy : bool) (least : nat) (a : regex)
| Group (a : regex)
| Caret (multiline : bool)
| Dollar (multiline : bool).

(** Position, previous character, remaining input, closed groups. *)
Record mstate := {
  m_pos : nat;
  m_prev : option char;
  m_rest : str;
  m_groups : list str
}.

Definition m_step (st : mstate) : option (char * mstate) :=
  match m_rest st with
  | [] => None
  | c :: t =>
      Some (c, {| m_pos := S (m_pos st); m_prev := Some c; m_rest := t;
                  m_groups := m_groups st |})
  end.

Fixpoint rmatch (fuel : nat) (r : regex) (input : str) (st : mstate)
    (k : mstate -> option mstate) : option mstate :=
  match fuel with
  | O => None
  | S f =>
      match r with
      | Lit c =>
          match m_step st with
          | Some (d, st') => if N.eqb c d then k st' else None
          | None => None
          end
      | Class p =>
          match m_step st with
          | Some (d, st') => if p d then k st' else None
          | None => None
          end
      | Cat a b => rmatch f a input st (fun st' => rmatch f b input st' k)
      | Rep g (S n) a =>
          rmatch f a input st (fun st' => rmatch f (Rep g n a) input st' k)
      | Rep true O a =>
          match rmatch f a input st
                  (fun st' =>
                     if Nat.eqb (m_pos st') (m_pos st) then None
                     else rmatch f (Rep true O a) input st' k) with
          | Some res => Some res
          | None => k st
          end
      | Rep false O a =>
          match k st with
          | Some res => Some res
          | None =>
              rmatch f a input st
                (fun st' =>
                   if Nat.eqb (m_pos st') (m_pos st) then None
                   else rmatch f (Rep false O a) input st' k)
          end
      | Group a =>
          rmatch f a input st
            (fun st' =>
               k {| m_pos := m_pos st'; m_prev := m_prev st';
                    m_rest := m_rest st';
                    m_groups :=
                      m_groups st'
                      ++ [slice input (m_pos st) (m_pos st')] |})
      | Caret m =>
          match m_prev st with
          | None => k st
          | Some c => if m && is_lt c then k st else None
          end
      | Dollar m =>
          match m_rest st with
          | [] => k st
          | c :: _ => if m && is_lt c then k st else None
          end
      end
  end.

(** The match of [r] that starts at index [i] of [input]: its end and its
    groups. *)
Definition rmatch_at (r : regex) (input : str) (i : nat)
    : option (nat * list str) :=
  let fuel := 4 * (length input + 8) in
  let st := {| m_pos := i;
               m_prev := match i with O => None | S j => nth_error input j end;
               m_rest := skipn i input; m_groups := [] |} in
  match rmatch fuel r input st Some with
  | Some st' => Some (m_pos st', m_groups st')
  | None => None
  end.

Fixpoint rexec_from (r : regex) (input : str) (n i : nat)
    : option (nat * nat * list str) :=
  match rmatch_at r input i with
  | Some (e, gs) => Some (i, e, gs)
  | None =>
      match n with
      | O => None
      | S n' => rexec_from r input n' (S i)
      end
  end.

(** [re.exec(input)]: start, end and groups of the leftmost match. *)
Definition rexec (r : regex) (input : str) : option (nat * nat * list str) :=
  rexec_from r input (length input) 0.

(** [input.replace(re, empty)] with the [g] flag, by the reference
    matcher: at each index outside a match the pattern is tried; the
    characters of a match are dropped and the search resumes after it. *)
Fixpoint rremoveAll_from (r : regex) (input : str) (n i : nat) : str :=
  match n with
  | O => []
  | S n' =>
      match nth_error input i with
      | None => []
      | Some c =>
          match rmatch_at r input i with
          | Some (e, _) =>
              if Nat.ltb i e
              then rremoveAll_from r input (n' - (e - i - 1)) e
              else c :: rremoveAll_from r input n' (S i)
          | None => c :: rremoveAll_from r input n' (S i)
          end
      end
  end.

Definition rremoveAll (r : regex) (input : str) : str :=
  rremoveAll_from r input (length input) 0.

Fixpoint lits (s : str) (k : regex) : regex :=
  match s with
  | [] => k
  | c :: s' => Cat (Lit c) (lits s' k)
  end.

Definition any_char : char -> bool := fun _ => true.
Definition dot : char -> bool := fun c => negb (is_lt c).

(** [/^@import\s+.*?;$/m] *)
Definition IMPORT_REGEX_tree : regex :=
  Cat (Caret true)
    (lits (js "@import")
       (Cat (Rep true 1 (Class is_ws))
          (Cat (Rep false 0 (Class dot))
             (Cat (Lit (ch ";")) (Dollar true))))).

(** [/:root\s*\{([\s\S]*?)\}/m] and [/\.dark\s*\{([\s\S]*?)\}/m] *)
Definition block_regex_tree (k : selector) : regex :=
  lits (selector_text k)
    (Cat (Rep true 0 (Class is_ws))
       (Cat (Lit (ch "{"))
          (Cat (Group (Rep false 0 (Class any_char))) (Lit (ch "}"))))).

(** [/\/\*.*?\*\//] *)
Definition COMMENT_REGEX_tree : regex :=
  lits (js "/*") (Cat (Rep false 0 (Class dot)) (lits (js "*") (Lit (ch "/")))).

(** [/^--([\w-]+):\s*(.+);$/] *)
Definition VAR_REGEX_tree : regex :=
  Cat (Caret false)
    (lits (js "--")
       (Cat (Group (Rep true 1 (Class is_name)))
          (Cat (Lit (ch ":"))
             (Cat (Rep true 0 (Class is_ws))
                (Cat (Group (Rep true 1 (Class dot)))
                   (Cat (Lit (ch ";")) (Dollar false))))))).

(** *** Comparing the two on all short inputs *)

(** The words of at most [n] characters over an alphabet. *)
Fixpoint words (alphabet : list char) (n : nat) : list str :=
  match n with
  | O => [[]]
  | S n' =>
      [] :: flat_map (fun w => map (fun c => c :: w) alphabet)
              (words alphabet n')
  end.

Definition VAR_REGEX_same (line : str) : bool :=
  match VAR_REGEX line, rexec VAR_REGEX_tree line with
  | Some (m1, m2), Some (_, _, [g1; g2]) => str_eqb m1 g1 && str_eqb m2 g2
  | None, None => true
  | _, _ => false
  end.

Definition IMPORT_REGEX_same (before s : str) : bool :=
  let bol := match rev before with [] => true | c :: _ => is_lt c end in
  match IMPORT_REGEX bol s,
        rmatch_at IMPORT_REGEX_tree (before ++ s) (length before) with
  | Some n, Some (e, _) => Nat.eqb (length before + n) e
  | None, None => true
  | _, _ => false
  end.

Definition block_regex_same (k : selector) (s : str) : bool :=
  match block_regex_exec k s, rexec (block_regex_tree k) s with
  | Some (i, n, body), Some (i', e, [g]) =>
      Nat.eqb i i' && Nat.eqb (i + n) e && str_eqb body g
  | None, None => true
  | _, _ => false
  end.


(** * The other modules of the CLI *)

(** ** Strings and promises *)

(** [s.includes(pat)] on strings. *)
Definition str_includes (s pat : str) : bool :=
  match indexOf s pat with
  | Some _ => true
  | None => false
  end.

(** What an asynchronous function gives its caller. *)
Inductive promise (A : Type) :=
| Resolves (value : A)
| Rejects (path : string) (* an I/O error on that path *).
Arguments Resolves {A} value.
Arguments Rejects {A} path.

(** ** get-project-info.ts *)

(** The test of the loop of [getTailwindCssFile]. *)
Definition tailwind_marker (content : str) : bool :=
  str_includes content (js "@tailwind base")
  || str_includes content (js "@import " ++ dq ++ js "tailwindcss" ++ dq)
  || str_includes content (js "@import 'tailwindcss'").

Section ProjectFiles.

(** [path.resolve] of Node. *)
Variable path_resolve : string -> string -> string.

(** [getTailwindCssFile], from the list [cssFiles] of the files that the
    glob gives (the [files] of the source): the first file whose content
    holds one of the three marks; [None] stands for [null].  Reading a
    file that is not there rejects. *)
Fixpoint getTailwindCssFile (w : World) (cwd : string)
    (cssFiles : list string) : promise (option string) :=
  match cssFiles with
  | [] => Resolves None
  | file :: rest =>
      match files w (path_resolve cwd file) with
      | None => Rejects (path_resolve cwd file)
      | Some content =>
          if tailwind_marker content then Resolves (Some file)
          else getTailwindCssFile w cwd rest
      end
  end.

End ProjectFiles.

(** ** download-component.ts *)

(** GetSubstitution of ECMAScript for a match of a string pattern, which
    has no capture: [$$] stands for a dollar, [$&] for the matched text,
    [$`] for the text before the match and [$'] for the text after it;
    a dollar before anything else, and so before a digit or [<], stands
    for itself. *)
Fixpoint getSubstitution (matched before after template : str) : str :=
  match template with
  | [] => []
  | c :: t =>
      if N.eqb c (ch "$") then
        match t with
        | d :: t' =>
            if N.eqb d (ch "$") then
              ch "$" :: getSubstitution matched before after t'
            else if N.eqb d (ch "&") then
              matched ++ getSubstitution matched before after t'
            else if N.eqb d (ch "`") then
              before ++ getSubstitution matched before after t'
            else if N.eqb d (ch "'") then
              after ++ getSubstitution matched before after t'
            else c :: getSubstitution matched before after t
        | [] => [c]
        end
      else c :: getSubstitution matched before after t
  end.

(** [s.replace(pat, replacement)] with a string pattern: the first
    occurrence only. *)
Definition replaceWith (s pat replacement : str) : str :=
  match indexOf s pat with
  | Some i =>
      let before := firstn i s in
      let after := skipn (i + length pat) s in
      before ++ getSubstitution pat before after replacement ++ after
  | None => s
  end.

(** [actual.replace(/^@\//, empty)]: the pattern has no flag, so it can
    match at the start of the string only. *)
Definition strip_at_slash (actual : str) : str :=
  if startsWith actual (js "@/") then skipn 2 actual else actual.

(** The callback of the [reduce] in the loop of [downloadComponent]: it
    rewrites [relativePath], not the accumulator. *)
Definition resolvedPath_step (relativePath acc : str) (entry : str * str)
    : str :=
  let alias := fst entry in
  let actual := snd entry in
  if startsWith relativePath (alias ++ js "/")
  then replaceWith relativePath (alias ++ js "/")
         (strip_at_slash actual ++ js "/")
  else acc.

(** The [reduce] over [Object.entries(aliases)]; [aliases] lists the
    entries in the order of [Object.entries]. *)
Definition resolvedPath (aliases : list (str * str)) (relativePath : str)
    : str :=
  fold_left (resolvedPath_step relativePath) aliases relativePath.

(** The path does not start with the alias of this entry and a slash. *)
Definition alias_apart (relativePath : str) (entry : str * str) : bool :=
  negb (startsWith relativePath (fst entry ++ js "/")).

(** ** install-packages.ts *)

Inductive PackageManager := npm | yarn | pnpm | bun.

(** [InstallOptions]: [cwd], [silent] and [dev]. *)
Record InstallOptions := {
  install_cwd : string;
  install_silent : option bool;
  install_dev : option bool
}.

(** The truth value of an optional boolean: [undefined] is falsy. *)
Definition truthy (b : option bool) : bool :=
  match b with
  | Some true => true
  | _ => false
  end.

(** What [installPackages] does, in order. *)
Inductive install_event :=
| LogInstalling (packages : list str)
| Execa (command : PackageManager) (args : list str) (cwd : string)
| LogInstallationComplete
| LogFailedToInstall (packages : list str)
| ConsoleError (err : str).

Section InstallPackages.

(** [path.join] of Node. *)
Variable path_join : string -> string -> string.

(** [fs.existsSync]. *)
Variable fs_existsSync : string -> bool.

(** The child process: [None] when it ends well, the message of the error
    when it fails. *)
Variable execa : PackageManager -> list str -> string -> option str.

Definition detectPackageManager (cwd : string) : PackageManager :=
  if fs_existsSync (path_join cwd "pnpm-lock.yaml") then pnpm
  else if fs_existsSync (path_join cwd "yarn.lock") then yarn
  else if fs_existsSync (path_join cwd "bun.lockb") then bun
  else npm.

(** The [devFlag] and the [args] of [installPackages]. *)
Definition devFlag (pkgManager : PackageManager) (dev : bool) : str :=
  if dev then
    match pkgManager with
    | npm => js "--save-dev"
    | _ => js "-D"
    end
  else [].

Definition install_args (pkgManager : PackageManager) (dev : bool)
    (packages : list str) : list str :=
  match pkgManager with
  | pnpm => filterBoolean (js "add" :: devFlag pkgManager dev :: packages)
  | yarn => js "add" :: (if dev then [js "--dev"] else []) ++ packages
  | bun => filterBoolean (js "add" :: devFlag pkgManager dev :: packages)
  | npm => filterBoolean (js "install" :: devFlag pkgManager dev :: packages)
  end.

(** The promise of [installPackages] always resolves: the [catch] takes
    the error of the child process. *)
Definition installPackages (packages : list str) (options : InstallOptions)
    : list install_event :=
  match packages with
  | [] => []
  | _ :: _ =>
      let pkgManager := detectPackageManager (install_cwd options) in
      let args :=
        install_args pkgManager (truthy (install_dev options)) packages in
      LogInstalling packages
      :: Execa pkgManager args (install_cwd options)
      :: match execa pkgManager args (install_cwd options) with
         | None => [LogInstallationComplete]
         | Some err =>
             LogFailedToInstall packages
             :: (if truthy (install_silent options) then []
                 else [ConsoleError err])
         end
  end.

End InstallPackages.

(** ** get-project-info.ts: the version of Tailwind *)

Inductive TailwindVersion := v3 | v4.

(** What the code reads of a [package.json]: the two maps of
    dependencies, from a package name to the version range that the file
    declares for it, a string. *)
Record PackageJson := {
  dependencies : option Record;
  devDependencies : option Record
}.

Definition is_digit (c : char) : bool := (48 <=? c)%N && (c <=? 57)%N.

(** [/^3(\.\d+)?/]: the length of the match, which can only start at the
    head of the string.  After the [3] the group is taken, with all the
    digits that follow the dot, when a dot and a digit come next, and it
    is left out otherwise. *)
Definition TAILWIND_V3_REGEX (tw : str) : option nat :=
  match tw with
  | c :: rest =>
      if N.eqb c (ch "3") then
        match rest with
        | d :: rest' =>
            if N.eqb d (ch ".") then
              match length (fst (span is_digit rest')) with
              | O => Some 1
              | S n => Some (1 + (1 + S n))
              end
            else Some 1
        | [] => Some 1
        end
      else None
  | [] => None
  end.

(** [pkg.dependencies?.tailwindcss ?? pkg.devDependencies?.tailwindcss
    ?? null] *)
Definition tailwindcss_range (pkg : PackageJson) : option str :=
  match match dependencies pkg with
        | Some deps => get (js "tailwindcss") deps
        | None => None
        end with
  | Some tw => Some tw
  | None =>
      match devDependencies pkg with
      | Some deps => get (js "tailwindcss") deps
      | None => None
      end
  end.

(** [getTailwindVersion], from what [getPackageInfo] gives: [None] stands
    for [null], in the argument and in the result. *)
Definition getTailwindVersion (pkg : option PackageJson)
    : option TailwindVersion :=
  match pkg with
  | None => None
  | Some pkg =>
      match tailwindcss_range pkg with
      | None => None
      | Some [] => None
      | Some tw =>
          match TAILWIND_V3_REGEX tw with
          | Some _ => Some v3
          | None => Some v4
          end
      end
  end.

(** ** preflight-init.ts *)

(** An entry of [FRAMEWORKS]: [name], [label] and the two [links]. *)
Record Framework := {
  framework_name : str;
  framework_label : str;
  framework_links_installation : str;
  framework_links_tailwind : str
}.

(** [tailwindVersion] holds what [getTailwindVersion] gave; an optional
    field that is not there is [None]. *)
Record ProjectInfo := {
  framework : Framework;
  tailwindVersion : option TailwindVersion;
  tailwindConfigFile : option str;
  tailwindCssFile : option str;
  aliasPrefix : option str;
  isSrcDir : bool;
  isRSC : bool;
  isTsx : bool
}.

(** The options of [preFlightInit]: [cwd], [force] and [silent]. *)
Record InitOptions := {
  init_cwd : string;
  init_force : option bool;
  init_silent : option bool
}.

(** The truth value of an optional string: [undefined] and the empty
    string are falsy. *)
Definition truthy_str (s : option str) : bool :=
  match s with
  | Some (_ :: _) => true
  | _ => false
  end.

(** The result of the preflight.  In the failure, [errors] lists the
    codes that were set, in the order of the assignments; in the success,
    the [errors] of the source is the constant object that maps each code
    to [false]. *)
Inductive PreflightResult :=
| PreflightOk (projectInfo : ProjectInfo) (hasTailwind hasTsConfig : bool)
    (framework : str)
| PreflightFailed (errors : list str).

(** The [hasTailwind] of [preFlightInit], as a truth value. *)
Definition hasTailwind (projectInfo : ProjectInfo) : bool :=
  (match tailwindVersion projectInfo with Some v3 => true | _ => false end
   && truthy_str (tailwindConfigFile projectInfo)
   && truthy_str (tailwindCssFile projectInfo))
  || (match tailwindVersion projectInfo with Some v4 => true | _ => false end
      && truthy_str (tailwindCssFile projectInfo)).

Section PreflightInit.

(** The codes of [utils/errors.ts]. *)
Variables MISSING_DIR_OR_EMPTY_PROJECT EXISTING_CONFIG UNSUPPORTED_FRAMEWORK
  TAILWIND_NOT_CONFIGURED IMPORT_ALIAS_MISSING : str.

(** [path.join] of Node, [fs.existsSync], and [getProjectInfo], whose
    result the function tests for being there. *)
Variable path_join : string -> string -> string.
Variable fs_existsSync : string -> bool.
Variable getProjectInfo : string -> option ProjectInfo.

(** The value that the promise of [preFlightInit] resolves to.  The calls
    of the spinner and of the logger do not bear on it. *)
Definition preFlightInit (options : InitOptions) : PreflightResult :=
  let pkgPath := path_join (init_cwd options) "package.json" in
  if negb (fs_existsSync (init_cwd options)) || negb (fs_existsSync pkgPath)
  then PreflightFailed [MISSING_DIR_OR_EMPTY_PROJECT]
  else
    let configPath := path_join (init_cwd options) "clyro.json" in
    if fs_existsSync configPath && negb (truthy (init_force options))
    then PreflightFailed [EXISTING_CONFIG]
    else
      match getProjectInfo (init_cwd options) with
      | None => PreflightFailed [MISSING_DIR_OR_EMPTY_PROJECT]
      | Some projectInfo =>
          if str_eqb (framework_name (framework projectInfo)) (js "manual")
          then PreflightFailed [UNSUPPORTED_FRAMEWORK]
          else
            let errors :=
              if negb (hasTailwind projectInfo)
              then [TAILWIND_NOT_CONFIGURED] else [] in
            let hasTsConfig := truthy_str (aliasPrefix projectInfo) in
            let errors :=
              if isTsx projectInfo && negb hasTsConfig
              then errors ++ [IMPORT_ALIAS_MISSING] else errors in
            match errors with
            | _ :: _ => PreflightFailed errors
            | [] =>
                PreflightOk projectInfo (hasTailwind projectInfo) hasTsConfig
                  (framework_name (framework projectInfo))
            end
      end.

End PreflightInit.

(** ** commands/init.ts *)

(** The argument of [injectclyroTheme] in the action of [init]:
    [projectInfo.tailwindCssFile ?? "src/index.css"]. *)
Definition theme_css_file (projectInfo : ProjectInfo) : str :=
  match tailwindCssFile projectInfo with
  | Some file => file
  | None => js "src/index.css"
  end.

(** [tailwind.css] of the [clyroJson] of the action:
    [projectInfo.tailwindCssFile ?? "app/globals.css"]. *)
Definition clyroJson_tailwind_css (projectInfo : ProjectInfo) : str :=
  match tailwindCssFile projectInfo with
  | Some file => file
  | None => js "app/globals.css"
  end.

(** The [necessaryPackages] of [addNecessaryDeps]. *)
Definition necessaryPackages (projectInfo : option ProjectInfo) : list str :=
  [ js "tailwind-merge"; js "clsx"; js "class-variance-authority";
    js "tw-animate-css"; js "lucide-react" ]
  ++ match projectInfo with
     | Some info =>
         match tailwindVersion info with
         | Some v4 => [js "tailwindcss-animate"]
         | _ => []
         end
     | None => []
     end.

Section AddNecessaryDeps.

Variable path_join : string -> string -> string.
Variable fs_existsSync : string -> bool.
Variable execa : PackageManager -> list str -> string -> option str.

(** [addNecessaryDeps] of the action of [init]; of the options it reads
    [cwd] and [silent]. *)
Definition addNecessaryDeps (projectInfo : option ProjectInfo)
    (cwd : string) (silent : option bool) : list install_event :=
  installPackages path_join fs_existsSync execa
    (necessaryPackages projectInfo)
    {| install_cwd := cwd; install_silent := silent;
       install_dev := Some false |}.

End AddNecessaryDeps.


(** * Properties *)

(** ** Strings *)

Lemma str_eqb_eq (a b : str) : str_eqb a b = true <-> a = b.
Proof.
  revert b; induction a as [|x a IH]; intros [|y b]; simpl;
    try (split; [discriminate | discriminate]); try tauto.
  rewrite andb_true_iff, N.eqb_eq, IH.
  split; [intros [-> ->]; reflexivity | intros H; inversion H; auto].
Qed.

Lemma str_eqb_refl (a : str) : str_eqb a a = true.
Proof. apply str_eqb_eq; reflexivity. Qed.

Lemma str_eqb_neq (a b : str) : str_eqb a b = false <-> a <> b.
Proof.
  rewrite <- str_eqb_eq. destruct (str_eqb a b); split; congruence.
Qed.

Lemma str_eqb_sym (a b : str) : str_eqb a b = str_eqb b a.
Proof.
  destruct (str_eqb a b) eqn:E.
  - apply str_eqb_eq in E; subst; symmetry; apply str_eqb_refl.
  - symmetry; apply str_eqb_neq; apply str_eqb_neq in E; congruence.
Qed.

Lemma includes_In (arr : list str) (x : str) :
  includes arr x = true <-> In x arr.
Proof.
  unfold includes; rewrite existsb_exists; split.
  - intros (y & Hy & E); apply str_eqb_eq in E; subst; exact Hy.
  - intros H; exists x; split; [exact H | apply str_eqb_refl].
Qed.

Lemma includes_not_In (arr : list str) (x : str) :
  includes arr x = false <-> ~ In x arr.
Proof.
  rewrite <- includes_In; destruct (includes arr x); split; congruence.
Qed.

(** ** Objects used as maps *)

Section Records.

Implicit Types (t u acc : Record) (k v : str).

Lemma get_None_keys k u : get k u = None <-> ~ In k (keys u).
Proof.
  induction u as [|[k' v'] u IH]; simpl; [tauto|].
  destruct (str_eqb k k') eqn:E.
  - apply str_eqb_eq in E; subst; split; [discriminate | tauto].
  - apply str_eqb_neq in E; rewrite IH; split.
    + intros H [?|?]; [congruence | auto].
    + intros H ?; apply H; auto.
Qed.

Lemma get_Some_In k v u : get k u = Some v -> In (k, v) u.
Proof.
  induction u as [|[k' v'] u IH]; simpl; [discriminate|].
  destruct (str_eqb k k') eqn:E; [|auto].
  apply str_eqb_eq in E; subst; intros [= ->]; auto.
Qed.

Lemma In_get_Some k v u : NoDup (keys u) -> In (k, v) u -> get k u = Some v.
Proof.
  induction u as [|[k' v'] u IH]; simpl; [tauto|].
  intros Hnd [E|Hin]; inversion Hnd; subst.
  - inversion E; subst; now rewrite str_eqb_refl.
  - destruct (str_eqb k k') eqn:E; [|auto].
    apply str_eqb_eq in E; subst. exfalso; apply H1.
    change k' with (fst (k', v)); now apply in_map.
Qed.

Lemma set_absent k v u : ~ In k (keys u) -> set k v u = u ++ [(k, v)].
Proof.
  induction u as [|[k' v'] u IH]; simpl; [reflexivity|]; intros H.
  destruct (str_eqb k k') eqn:E.
  - apply str_eqb_eq in E; subst; tauto.
  - rewrite IH; tauto.
Qed.

Lemma set_present k v u :
  NoDup (keys u) -> In k (keys u) -> set k v u = map (overwrite k v) u.
Proof.
  induction u as [|[k' v'] u IH]; simpl; [tauto|]; intros Hnd Hin.
  inversion Hnd; subst. unfold overwrite at 1; simpl.
  destruct (str_eqb k k') eqn:E.
  - apply str_eqb_eq in E; subst. f_equal.
    rewrite <- (map_id u) at 1. apply map_ext_in; intros [a b] Hab.
    unfold overwrite; simpl. destruct (str_eqb k' a) eqn:E'; [|reflexivity].
    apply str_eqb_eq in E'; subst. exfalso; apply H1.
    change a with (fst (a, b)); now apply in_map.
  - f_equal. apply IH; [assumption|]. destruct Hin; [|assumption].
    apply str_eqb_neq in E; congruence.
Qed.

Lemma keys_map_overwrite k v u : keys (map (overwrite k v) u) = keys u.
Proof.
  unfold keys; rewrite map_map; apply map_ext; intros [a b].
  unfold overwrite; simpl; now destruct (str_eqb k a).
Qed.

Lemma keys_map_user_value u t : keys (map (user_value u) t) = keys t.
Proof. unfold keys; rewrite map_map; now apply map_ext. Qed.

Lemma spread_closed u : forall acc,
  NoDup (keys acc) -> NoDup (keys u) ->
  spread u acc = map (user_value u) acc ++ only_user (keys acc) u.
Proof.
  induction u as [|[k v] u IH]; intros acc Hacc Hu.
  - simpl. rewrite app_nil_r. rewrite <- (map_id acc) at 1.
    apply map_ext; now intros [a b].
  - inversion Hu as [|? ? Hk Hu']; subst.
    assert (Hgk : get k u = None) by now apply get_None_keys.
    change (spread ((k, v) :: u) acc) with (spread u (set k v acc)).
    destruct (in_dec (list_eq_dec N.eq_dec) k (keys acc)) as [Hin|Hout].
    + rewrite (set_present k v acc Hacc Hin).
      rewrite IH; [|rewrite keys_map_overwrite; assumption|assumption].
      rewrite keys_map_overwrite, map_map. f_equal.
      * apply map_ext; intros [a b]. unfold user_value, overwrite; simpl.
        rewrite (str_eqb_sym a k).
        destruct (str_eqb k a) eqn:E; simpl; [|reflexivity].
        apply str_eqb_eq in E; subst. now rewrite Hgk.
      * unfold only_user; simpl.
        apply includes_In in Hin; now rewrite Hin.
    + rewrite (set_absent k v acc Hout).
      assert (Hnd : NoDup (keys (acc ++ [(k, v)]))).
      { unfold keys; rewrite map_app; simpl.
        apply NoDup_app; [assumption | repeat constructor; simpl; tauto |].
        intros a Ha [<-|[]]; auto. }
      rewrite IH by assumption.
      rewrite map_app; simpl. unfold user_value at 2; simpl.
      rewrite Hgk. rewrite <- app_assoc; simpl.
      unfold only_user at 2; simpl.
      apply includes_not_In in Hout; rewrite Hout; simpl.
      f_equal.
      * apply map_ext_in; intros [a b] Hab. unfold user_value; simpl.
        destruct (str_eqb a k) eqn:E; [|reflexivity].
        apply str_eqb_eq in E; subst. apply includes_not_In in Hout.
        exfalso; apply Hout. change k with (fst (k, b)); now apply in_map.
      * f_equal. unfold only_user. apply filter_ext_in; intros [a b] Hab.
        simpl. f_equal. unfold keys; rewrite map_app; simpl.
        unfold includes; rewrite existsb_app; simpl.
        rewrite orb_false_r.
        destruct (str_eqb a k) eqn:E; [|now rewrite orb_false_r].
        apply str_eqb_eq in E; subst. exfalso; apply Hk.
        change k with (fst (k, b)); now apply in_map.
Qed.

Lemma spread_nil t : NoDup (keys t) -> spread t [] = t.
Proof.
  intros Ht. rewrite spread_closed; [|constructor|assumption].
  simpl. unfold only_user. rewrite <- (filter_ext (fun _ => true));
    [|reflexivity].
  clear Ht; induction t; simpl; congruence.
Qed.

Lemma spread2_closed t u :
  NoDup (keys t) -> NoDup (keys u) ->
  spread2 t u = map (user_value u) t ++ only_user (keys t) u.
Proof.
  intros Ht Hu. unfold spread2. rewrite (spread_nil t Ht).
  now apply spread_closed.
Qed.

End Records.

Lemma uniqueKeys_NoDup (vars : Record) :
  uniqueKeys vars = true <-> NoDup (keys vars).
Proof.
  induction vars as [|[k v] vars IH]; simpl.
  - split; [constructor | reflexivity].
  - rewrite andb_true_iff, negb_true_iff, includes_not_In, IH.
    split; [intros [? ?]; now constructor | intros H; now inversion H].
Qed.

Lemma keys_only_user (ks : list str) (u : Record) :
  keys (only_user ks u) = filter (fun k => negb (includes ks k)) (keys u).
Proof.
  induction u as [|[k v] u IH]; simpl; [reflexivity|].
  destruct (includes ks k); simpl; now rewrite IH.
Qed.

Lemma keys_spread2 (t u : Record) :
  NoDup (keys t) -> NoDup (keys u) ->
  keys (spread2 t u)
  = keys t ++ filter (fun k => negb (includes (keys t) k)) (keys u).
Proof.
  intros Ht Hu. rewrite spread2_closed by assumption.
  unfold keys at 1. rewrite map_app. fold (keys (map (user_value u) t)).
  fold (keys (only_user (keys t) u)).
  now rewrite keys_map_user_value, keys_only_user.
Qed.

Lemma NoDup_keys_spread2 (t u : Record) :
  NoDup (keys t) -> NoDup (keys u) -> NoDup (keys (spread2 t u)).
Proof.
  intros Ht Hu. rewrite keys_spread2 by assumption.
  apply NoDup_app; [assumption | now apply NoDup_filter |].
  intros k Hk Hf. apply filter_In in Hf as [_ Hf].
  apply negb_true_iff, includes_not_In in Hf. contradiction.
Qed.

(** C3: the merged map holds every template key, with the user's value
    when the user map has the key and the template's value otherwise; it
    holds every key that only the user map has, with the user's value; and
    its keys are the template keys in template order followed by the
    user-only keys in user order. *)
Theorem merged_vars_template_then_user (templateMap userMap : Record) :
  uniqueKeys templateMap = true ->
  uniqueKeys userMap = true ->
  let merged := spread2 templateMap userMap in
  (forall k v, get k userMap = Some v -> get k merged = Some v)
  /\ (forall k v, get k templateMap = Some v -> get k userMap = None ->
                  get k merged = Some v)
  /\ keys merged
     = keys templateMap
       ++ filter (fun k => negb (includes (keys templateMap) k)) (keys userMap)
  /\ uniqueKeys merged = true.
Proof.
  intros Ht Hu merged. apply uniqueKeys_NoDup in Ht, Hu.
  pose proof (NoDup_keys_spread2 templateMap userMap Ht Hu) as Hm.
  pose proof (spread2_closed templateMap userMap Ht Hu) as Hc.
  fold merged in Hm, Hc. repeat split.
  - intros k v Hg. apply In_get_Some; [assumption|]. rewrite Hc.
    apply in_or_app.
    destruct (includes (keys templateMap) k) eqn:E.
    + left. apply includes_In in E. unfold keys in E.
      apply in_map_iff in E as ([k' v'] & Ek & Hin); simpl in Ek; subst k'.
      apply in_map_iff. exists (k, v'); split; [|assumption].
      unfold user_value; simpl. now rewrite Hg.
    + right. unfold only_user. apply filter_In; split.
      * now apply get_Some_In.
      * simpl. now rewrite E.
  - intros k v Hg Hn. apply In_get_Some; [assumption|]. rewrite Hc.
    apply in_or_app; left. apply in_map_iff. exists (k, v); split.
    + unfold user_value; simpl. now rewrite Hn.
    + now apply get_Some_In.
  - now apply keys_spread2.
  - now apply uniqueKeys_NoDup.
Qed.

(** The scenario of the specification: the user overrides [--a] and adds
    [--custom]; the template brings [--c]. *)
Lemma merged_vars_template_then_user_witness :
  let t := [(js "--a", js "9"); (js "--c", js "3")] in
  let u := [(js "--custom", js "1px"); (js "--a", js "1")] in
  keys (spread2 t u) = [js "--a"; js "--c"; js "--custom"]
  /\ get (js "--a") (spread2 t u) = Some (js "1").
Proof.
  intros t u.
  destruct (merged_vars_template_then_user t u eq_refl eq_refl)
    as (Huser & _ & Hkeys & _).
  split.
  - rewrite Hkeys. reflexivity.
  - apply Huser. reflexivity.
Defined.

(** ** The missing file *)

(** C9: on a path with no file the function writes nothing, its promise
    resolves, and the only effect is the warning on the console. *)
Theorem missing_file_is_reported_noop
    (tpl : str) (cssFilePath : string) (w : World) :
  files w cssFilePath = None ->
  let (result, w') := injectclyroTheme tpl cssFilePath w in
  result = Resolved
  /\ files w' = files w
  /\ readOnly w' = readOnly w
  /\ console w' = console w ++ [(Warn, CssFileNotFound cssFilePath)].
Proof.
  intros Hnone. unfold injectclyroTheme, existsSync. rewrite Hnone. simpl.
  repeat split.
Qed.

Lemma missing_file_is_reported_noop_witness :
  let w := {| files := fun _ => None; readOnly := fun _ => false;
              partialWrite := fun _ => None;
              console := [] |} in
  injectclyroTheme sample_template "src/index.css" w
  = (Resolved,
     {| files := files w; readOnly := readOnly w;
        partialWrite := partialWrite w;
        console := [(Warn, CssFileNotFound "src/index.css")] |}).
Proof.
  intros w.
  pose proof (missing_file_is_reported_noop sample_template "src/index.css"
                w eq_refl) as H.
  destruct (injectclyroTheme sample_template "src/index.css" w)
    as [result w'] eqn:E.
  destruct H as (-> & Hf & Hr & Hc). destruct w' as [f r p c]; simpl in *.
  subst. injection E as <-. reflexivity.
Defined.

(** ** Searching *)

Lemma startsWith_app (p t : str) : startsWith (p ++ t) p = true.
Proof. induction p; simpl; [reflexivity|]. now rewrite N.eqb_refl. Qed.

Lemma startsWith_prefix (s p : str) :
  startsWith s p = true <-> exists t, s = p ++ t.
Proof.
  split.
  - revert s; induction p as [|a p IH]; intros s H; simpl in *.
    + now exists s.
    + destruct s as [|b s]; [discriminate|].
      apply andb_true_iff in H as [E H]. apply N.eqb_eq in E; subst.
      destruct (IH _ H) as [t ->]. now exists t.
  - intros [t ->]. apply startsWith_app.
Qed.

Lemma indexOf_at_shift (s pat : str) (i : nat) :
  indexOf_at s pat i = option_map (Nat.add i) (indexOf s pat).
Proof.
  unfold indexOf. revert i; induction s as [|c s IH]; intros i; simpl.
  - destruct (startsWith [] pat); simpl; [f_equal; lia | reflexivity].
  - destruct (startsWith (c :: s) pat); simpl; [f_equal; lia|].
    rewrite (IH (S i)), (IH 1). destruct (indexOf_at s pat 0); simpl;
      [f_equal; lia | reflexivity].
Qed.

(** [indexOf] returns the first index where the pattern starts. *)
Lemma indexOf_Some (s pat : str) (i : nat) :
  indexOf s pat = Some i ->
  i <= length s
  /\ startsWith (skipn i s) pat = true
  /\ forall j, j < i -> startsWith (skipn j s) pat = false.
Proof.
  unfold indexOf. revert i; induction s as [|c s IH]; intros i; simpl.
  - destruct (startsWith [] pat) eqn:E; [|discriminate].
    intros [= <-]. repeat split; [lia | exact E | intros; lia].
  - destruct (startsWith (c :: s) pat) eqn:E.
    + intros [= <-]. repeat split; [lia | exact E | intros; lia].
    + rewrite indexOf_at_shift. destruct (indexOf s pat) as [k|] eqn:Ek;
        [|discriminate].
      simpl. intros [= <-]. destruct (IH k) as (Hl & Hs & Hj);
        [now rewrite <- Ek|].
      repeat split; [lia | exact Hs |].
      intros [|j] Hlt; simpl; [exact E | apply Hj; lia].
Qed.

Lemma indexOf_None (s pat : str) :
  indexOf s pat = None -> forall j, startsWith (skipn j s) pat = false.
Proof.
  unfold indexOf. induction s as [|c s IH]; simpl.
  - destruct (startsWith [] pat) eqn:E; [discriminate|].
    intros _ [|j]; exact E.
  - destruct (startsWith (c :: s) pat) eqn:E; [discriminate|].
    rewrite indexOf_at_shift. destruct (indexOf s pat) eqn:Ek;
      [discriminate|].
    intros _ [|j]; simpl; [exact E | apply IH; now rewrite <- Ek].
Qed.

(** A pattern that starts at [i] and nowhere before is found at [i]. *)
Lemma indexOf_first (s pat : str) (i : nat) :
  startsWith (skipn i s) pat = true ->
  (forall j, j < i -> startsWith (skipn j s) pat = false) ->
  i <= length s ->
  indexOf s pat = Some i.
Proof.
  intros Hs Hj Hl. destruct (indexOf s pat) as [k|] eqn:E.
  - apply indexOf_Some in E as (_ & Hk & Hkj).
    destruct (Nat.lt_trichotomy k i) as [Hlt|[->|Hgt]]; [|reflexivity|].
    + rewrite (Hj k Hlt) in Hk; discriminate.
    + rewrite (Hkj i Hgt) in Hs; discriminate.
  - rewrite (indexOf_None s pat E i) in Hs; discriminate.
Qed.

(** ** The Block Extractor *)

Lemma depth_from_app (d : Z) (a b : str) :
  depth_from d (a ++ b) = depth_from (depth_from d a) b.
Proof. revert d; induction a; intros d; simpl; [reflexivity | apply IHa]. Qed.

(** The loop stops at the first index where the depth is back to 0, or at
    the end of the input. *)
Lemma scan_braces_spec (rest : str) : forall (d : Z) (i : nat),
  (0 < d)%Z ->
  exists n,
    scan_braces rest d i = i + n
    /\ n <= length rest
    /\ (forall m, m < n -> (0 < depth_from d (firstn m rest))%Z)
    /\ ((depth_from d (firstn n rest) = 0)%Z
        \/ (n = length rest /\ (0 < depth_from d (firstn n rest))%Z)).
Proof.
  induction rest as [|c rest IH]; intros d i Hd; simpl.
  - exists 0. repeat split; [lia | lia | intros; lia |].
    right; simpl; split; [reflexivity | assumption].
  - destruct (0 <? d)%Z eqn:E; [|apply Z.ltb_ge in E; lia].
    set (d' := (if N.eqb c (ch "{") then d + 1
                else if N.eqb c (ch "}") then d - 1 else d)%Z).
    destruct (Z.eq_dec d' 0) as [Hz|Hnz].
    + exists 1. repeat split.
      * fold d'. rewrite Hz. destruct rest; simpl; lia.
      * simpl; lia.
      * intros m Hm. replace m with 0 by lia. simpl; assumption.
      * left. simpl. fold d'. destruct rest; simpl; assumption.
    + assert (Hd' : (0 < d')%Z).
      { subst d'. destruct (N.eqb c (ch "{")); [lia|].
        destruct (N.eqb c (ch "}")); lia. }
      destruct (IH d' (S i) Hd') as (n & Hn & Hl & Hpos & Hend).
      exists (S n). repeat split.
      * rewrite Hn; lia.
      * simpl; lia.
      * intros [|m] Hm; simpl; [assumption|]. fold d'. apply Hpos; lia.
      * simpl. fold d'. destruct Hend as [H0|[Hlen Hp]]; [left; assumption|].
        right; split; [simpl; lia | assumption].
Qed.

Lemma firstn_snoc (s : str) (m : nat) (c : char) :
  nth_error s m = Some c -> firstn (S m) s = firstn m s ++ [c].
Proof.
  revert m; induction s as [|d s IH]; intros [|m]; simpl; try discriminate.
  - now intros [= ->].
  - intros H. f_equal. now apply IH.
Qed.

(** ** The patterns against the reference matcher *)

Example IMPORT_REGEX_agrees :
  let text := js "a
@import   'x' ;;
@import
 'y';
  @import 'z';" in
  rexec IMPORT_REGEX_tree text = Some (2, 18, [])
  /\ IMPORT_REGEX true (skipn 2 text) = Some 16
  /\ rmatch_at IMPORT_REGEX_tree text 19 = Some (32, [])
  /\ IMPORT_REGEX true (skipn 19 text) = Some 13
  /\ rmatch_at IMPORT_REGEX_tree text 35 = None
  /\ IMPORT_REGEX false (skipn 35 text) = None.
Proof. vm_compute. repeat split. Qed.

Example block_regex_agrees :
  let text := js "x :root :root  { a { b } }" in
  rexec (block_regex_tree Root) text = Some (8, 24, [js " a { b "])
  /\ block_regex_exec Root text = Some (8, 16, js " a { b ").
Proof. vm_compute. repeat split. Qed.

Example COMMENT_REGEX_agrees :
  let text := js "a /*/ b */ c" in
  rexec COMMENT_REGEX_tree text = Some (2, 10, [])
  /\ COMMENT_REGEX true (skipn 2 text) = Some 8.
Proof. vm_compute. repeat split. Qed.

Example VAR_REGEX_agrees :
  rexec VAR_REGEX_tree (js "--a-b_c:  x y; ;")
  = Some (0, 16, [js "a-b_c"; js "x y; "])
  /\ VAR_REGEX (js "--a-b_c:  x y; ;") = Some (js "a-b_c", js "x y; ")
  /\ rexec VAR_REGEX_tree (js "--a:   ;") = Some (0, 8, [js "a"; js " "])
  /\ VAR_REGEX (js "--a:   ;") = Some (js "a", js " ")
  /\ rexec VAR_REGEX_tree (js "--a: 1; ") = None
  /\ VAR_REGEX (js "--a: 1; ") = None.
Proof. vm_compute. repeat split. Qed.

Example removeAll_agrees :
  let css1 := js "  @import 'a.css';
@import 'b.css';
.x { color: red; }
@import url('c.css')
  screen;
@import   'd.css'; " in
  rremoveAll IMPORT_REGEX_tree css1 = removeAll IMPORT_REGEX true 0 css1
  /\ removeAll IMPORT_REGEX true 0 css1 = js "  @import 'a.css';

.x { color: red; }
@import url('c.css')
  screen;
@import   'd.css'; "
  /\ rremoveAll COMMENT_REGEX_tree (js "--a: 1 //* x */* y */; /* z */")
     = removeAll COMMENT_REGEX true 0 (js "--a: 1 //* x */* y */; /* z */")
  /\ removeAll COMMENT_REGEX true 0 (js "--a: 1 //* x */* y */; /* z */")
     = js "--a: 1 /* y */; ".
Proof. vm_compute. repeat split. Qed.

(** On every short input over the characters that the patterns tell
    apart, the first-match functions and the reference matcher agree. *)
Example VAR_REGEX_agrees_on_short_lines :
  forallb VAR_REGEX_same
    (map (fun w => js "--" ++ w)
       (words [ch "-"; ch "a"; ch ":"; ch " "; 13%N; ch ";"] 5))
  = true.
Proof. vm_compute. reflexivity. Qed.

Example IMPORT_REGEX_agrees_on_short_lines :
  forallb
    (fun w =>
       IMPORT_REGEX_same [] (js "@import" ++ w)
       && IMPORT_REGEX_same [LF] (js "@import" ++ w)
       && IMPORT_REGEX_same [ch " "] (js "@import" ++ w))
    (words [ch " "; LF; ch ";"; ch "x"; 13%N] 5)
  = true.
Proof. vm_compute. reflexivity. Qed.

Example removeAll_agrees_on_short_texts :
  forallb
    (fun w =>
       str_eqb (removeAll COMMENT_REGEX true 0 w)
         (rremoveAll COMMENT_REGEX_tree w))
    (words [ch "/"; ch "*"; ch "x"; 13%N] 7)
  = true
  /\ forallb
       (fun w =>
          str_eqb (removeAll IMPORT_REGEX true 0 (w ++ js "@import x;"))
            (rremoveAll IMPORT_REGEX_tree (w ++ js "@import x;")))
       (words [ch " "; LF; ch ";"; ch "@"; 13%N] 5)
     = true.
Proof. split; vm_compute; reflexivity. Qed.

Example block_regex_agrees_on_short_texts :
  forallb
    (fun w =>
       block_regex_same Root (js ":root" ++ w ++ js ":root {x}")
       && block_regex_same Dark (js "x.dark" ++ w))
    (words [ch " "; ch "{"; ch "}"; ch "x"; LF] 5)
  = true.
Proof. vm_compute. reflexivity. Qed.

(** ** The import lines *)

Lemma fold_import_lines (ls : list str) : forall acc,
  fold_left
    (fun acc line =>
       if startsWith (trim line) (js "@import")
       then acc ++ [trim line] else acc) ls acc
  = acc ++ filter (fun l => startsWith l (js "@import")) (map trim ls).
Proof.
  induction ls as [|l ls IH]; intros acc; cbn [fold_left map filter].
  - now rewrite app_nil_r.
  - rewrite IH. destruct (startsWith (trim l) (js "@import"));
      [now rewrite <- app_assoc | reflexivity].
Qed.

Lemma includes_app (a b : list str) (x : str) :
  includes (a ++ b) x = includes a x || includes b x.
Proof. unfold includes. apply existsb_app. Qed.

Lemma required_appended (found : list str) :
  fold_left
    (fun acc req => if includes acc req then acc else acc ++ [req])
    REQUIRED_IMPORTS found
  = found ++ filter (fun req => negb (includes found req)) REQUIRED_IMPORTS.
Proof.
  unfold REQUIRED_IMPORTS. cbn [fold_left filter].
  destruct (includes found import_tailwindcss) eqn:E1; cbn [negb].
  - destruct (includes found import_tw_animate_css) eqn:E2; cbn [negb];
      [now rewrite app_nil_r | reflexivity].
  - rewrite includes_app.
    replace (includes [import_tailwindcss] import_tw_animate_css) with false
      by (vm_compute; reflexivity).
    rewrite orb_false_r.
    destruct (includes found import_tw_animate_css) eqn:E2; cbn [negb];
      [reflexivity | now rewrite <- app_assoc].
Qed.

(** C4, as the code has it: every [@import] line of the file is kept, as
    often as it occurs and in the order of the file; the required imports
    that no line equals are appended, in their order.  Nothing removes a
    line that the file repeats. *)
Theorem importLines_keeps_every_line (cssContent : str) :
  let found :=
    filter (fun l => startsWith l (js "@import"))
      (map trim (split_nl cssContent)) in
  importLines cssContent
  = found ++ filter (fun req => negb (includes found req)) REQUIRED_IMPORTS.
Proof.
  intros found. unfold importLines. rewrite fold_import_lines.
  cbn [app]. fold found. apply required_appended.
Qed.

(** C4 at the input of the claim: the line that the file has twice is
    twice in the list, which has three lines, not two. *)
Lemma import_dedup_counterexample :
  let css := import_tailwindcss ++ [LF] ++ import_tailwindcss in
  importLines css
  = [import_tailwindcss; import_tailwindcss; import_tw_animate_css]
  /\ importLines css <> [import_tailwindcss; import_tw_animate_css].
Proof. split; [vm_compute; reflexivity | vm_compute; discriminate]. Qed.

(** C5 at an indented import line: the line is captured into the import
    list, and it is still in the leftover text, since the pattern that
    removes the imports wants [@import] in the first column. *)
Theorem indented_import_stays_in_leftover :
  let css := js "  @import 'a.css';
.x { color: red; }" in
  importLines css
  = [js "@import 'a.css';"; import_tailwindcss; import_tw_animate_css]
  /\ leftover css = js "@import 'a.css';
.x { color: red; }".
Proof. split; vm_compute; reflexivity. Qed.

(** ** The variable extractor *)

(** C7 at the line of the claim: the line is trimmed before the comment
    is removed, the space before the comment stays at the end of the line,
    and the declaration pattern, which wants the semicolon last, does not
    match.  Without that space the entry is found; and of two lines with
    the same name the later one gives the value. *)
Theorem extractVars_comment_after_declaration :
  extractVars (js "--a: 1; /* note */") = []
  /\ strip_line (js "--a: 1; /* note */") = js "--a: 1; "
  /\ VAR_REGEX (js "--a: 1; ") = None
  /\ extractVars (js "--a: 1;/* note */") = [(js "--a", js "1")]
  /\ extractVars (js "  --a: 1;
  --b: 2;
  --a: 3;") = [(js "--a", js "3"); (js "--b", js "2")].
Proof. repeat split; vm_compute; reflexivity. Qed.

(** ** Trimming and splitting *)

Lemma span_app_stop (p : char -> bool) (a b : str) :
  forallb p a = true ->
  match b with [] => True | c :: _ => p c = false end ->
  span p (a ++ b) = (a, b).
Proof.
  intros Ha Hb. induction a as [|x a IH]; simpl in *.
  - destruct b as [|c b]; simpl; [reflexivity | now rewrite Hb].
  - apply andb_true_iff in Ha as [Hx Ha]. now rewrite Hx, IH.
Qed.

Lemma span_eq (p : char -> bool) (s a b : str) :
  span p s = (a, b) ->
  s = a ++ b /\ forallb p a = true
  /\ match b with [] => True | c :: _ => p c = false end.
Proof.
  revert a b; induction s as [|c s IH]; intros a b; simpl.
  - intros [= <- <-]. auto.
  - destruct (p c) eqn:E.
    + destruct (span p s) as [a' b']. intros [= <- <-].
      destruct (IH a' b' eq_refl) as (-> & Ha & Hb).
      simpl. rewrite E. auto.
    + intros [= <- <-]. simpl. auto.
Qed.

Lemma trimEnd_snoc (s : str) (c : char) :
  is_ws c = false -> trimEnd (s ++ [c]) = s ++ [c].
Proof.
  intros Hc. induction s as [|x s IH]; simpl.
  - now rewrite Hc.
  - rewrite IH. now destruct (s ++ [c]) eqn:E; [destruct s; discriminate|].
Qed.

Lemma trimEnd_length (s : str) : length (trimEnd s) <= length s.
Proof.
  induction s as [|c s IH]; simpl; [lia|].
  destruct (trimEnd s); simpl in *; [destruct (is_ws c); simpl; lia | lia].
Qed.

Lemma trimStart_nonws (c : char) (s : str) :
  is_ws c = false -> trimStart (c :: s) = c :: s.
Proof. intros H. unfold trimStart. simpl. now rewrite H. Qed.

Lemma trimStart_ws (c : char) (s : str) :
  is_ws c = true -> trimStart (c :: s) = trimStart s.
Proof.
  intros H. unfold trimStart. simpl. rewrite H. now destruct (span is_ws s).
Qed.

Lemma trimStart_length (s : str) : length (trimStart s) <= length s.
Proof.
  induction s as [|c s IH]; [unfold trimStart; simpl; lia|].
  destruct (is_ws c) eqn:E.
  - rewrite trimStart_ws by assumption. simpl; lia.
  - rewrite trimStart_nonws by assumption. lia.
Qed.

(** A trimmed string that is not empty starts and ends with a character
    that is not white space. *)
Lemma trimmed_head (c : char) (s : str) :
  trim (c :: s) = c :: s -> is_ws c = false /\ trimEnd (c :: s) = c :: s.
Proof.
  intros H. unfold trim in H. destruct (is_ws c) eqn:E.
  - rewrite trimStart_ws in H by assumption.
    pose proof (trimEnd_length (trimStart s)) as H1.
    pose proof (trimStart_length s) as H2.
    rewrite H in H1. simpl in H1. lia.
  - rewrite trimStart_nonws in H by assumption. auto.
Qed.

Lemma split_nl_cons (a : str) : exists l ls, split_nl a = l :: ls.
Proof.
  induction a as [|c a (l & ls & IH)]; simpl; [now eauto|].
  destruct (N.eqb c LF); [now eauto|]. rewrite IH. now eauto.
Qed.

Lemma split_nl_app (a b : str) :
  split_nl (a ++ LF :: b) = split_nl a ++ split_nl b.
Proof.
  induction a as [|c a IH]; simpl.
  - reflexivity.
  - destruct (N.eqb c LF); [now rewrite IH|].
    rewrite IH. destruct (split_nl_cons a) as (l & ls & ->). reflexivity.
Qed.

Lemma split_nl_one_line (a : str) :
  forallb (fun c => negb (N.eqb c LF)) a = true -> split_nl a = [a].
Proof.
  induction a as [|c a IH]; simpl; [reflexivity|].
  intros H. apply andb_true_iff in H as [Hc Ha].
  apply negb_true_iff in Hc. rewrite Hc, (IH Ha). reflexivity.
Qed.

Lemma split_nl_join (ls : list str) :
  ls <> [] ->
  Forall (fun l => forallb (fun c => negb (N.eqb c LF)) l = true) ls ->
  split_nl (join [LF] ls) = ls.
Proof.
  induction ls as [|l ls IH]; [congruence|]. intros _ H.
  inversion H as [|? ? Hl Hls]; subst. destruct ls as [|l' ls].
  - simpl. now apply split_nl_one_line.
  - change (join [LF] (l :: l' :: ls)) with (l ++ LF :: join [LF] (l' :: ls)).
    rewrite split_nl_app, IH by (assumption || discriminate).
    now rewrite split_nl_one_line.
Qed.

(** ** Comments *)

Lemma comment_tail_bound (s : str) (n : nat) :
  comment_tail s = Some n ->
  2 <= n <= length s /\ nth_error s (n - 1) = Some (ch "/").
Proof.
  revert n; induction s as [|c s IH]; intros n; cbn [comment_tail];
    [discriminate|].
  destruct (startsWith (c :: s) (js "*/")) eqn:E.
  - intros [= <-]. apply startsWith_prefix in E as [t E].
    destruct s as [|d s]; [discriminate|]. inversion E; subst.
    simpl. split; [lia | reflexivity].
  - destruct (is_lt c); [discriminate|].
    destruct (comment_tail s) as [m|]; [|discriminate].
    simpl. intros [= <-]. destruct (IH m eq_refl) as (Hm & Hn).
    split; [lia|]. destruct m as [|m]; [lia|]. simpl.
    simpl in Hn. now rewrite Nat.sub_0_r in Hn.
Qed.

(** A comment ends with a slash, inside the text. *)
Lemma COMMENT_REGEX_bound (b : bool) (s : str) (n : nat) :
  COMMENT_REGEX b s = Some n ->
  4 <= n <= length s /\ nth_error s (n - 1) = Some (ch "/").
Proof.
  unfold COMMENT_REGEX. destruct (startsWith s (js "/*")) eqn:E;
    [|discriminate].
  apply startsWith_prefix in E as [t ->].
  change (skipn 2 (js "/*" ++ t)) with t.
  destruct (comment_tail t) as [m|] eqn:Em; [|discriminate].
  simpl. intros [= <-]. apply comment_tail_bound in Em as (Hm & Hn).
  split; [lia|]. destruct m as [|[|m]]; try lia. exact Hn.
Qed.

(** The last character of a text stays when it is not a slash. *)
Lemma removeAll_comment_last (y : str) (c : char) :
  c <> ch "/" ->
  forall b skip, skip <= length y ->
  exists z, removeAll COMMENT_REGEX b skip (y ++ [c]) = z ++ [c].
Proof.
  intros Hc. induction y as [|d y IH]; intros b skip Hs.
  - simpl in Hs. replace skip with 0 by lia. exists []. simpl.
    unfold COMMENT_REGEX. simpl. now rewrite andb_false_r.
  - simpl. destruct skip as [|k].
    + destruct (COMMENT_REGEX b (d :: y ++ [c])) as [[|k]|] eqn:E.
      * destruct (IH (is_lt d) 0) as [z Hz]; [lia|].
        exists (d :: z). now rewrite Hz.
      * apply COMMENT_REGEX_bound in E as (Hn & Hl).
        simpl in Hn. rewrite length_app in Hn. simpl in Hn.
        assert (Hk : k <= length y).
        { destruct (Nat.eq_dec k (S (length y))) as [->|]; [|lia].
          exfalso.
          replace (S (S (length y)) - 1) with (S (length y)) in Hl by lia.
          simpl in Hl. rewrite nth_error_app2 in Hl by lia.
          rewrite Nat.sub_diag in Hl. simpl in Hl. congruence. }
        apply IH; assumption.
      * destruct (IH (is_lt d) 0) as [z Hz]; [lia|].
        exists (d :: z). now rewrite Hz.
    + apply IH. simpl in Hs. lia.
Qed.

(** ** Character classes *)

Ltac eval_ch :=
  repeat match goal with
         | |- context [ch ?a] =>
             let x := eval vm_compute in (ch a) in change (ch a) with x
         | H : context [ch ?a] |- _ =>
             let x := eval vm_compute in (ch a) in change (ch a) with x in H
         end.

Ltac class_prop H :=
  unfold is_name, is_word, is_ws, is_lt, dot, LF in H;
  repeat first
    [ rewrite orb_true_iff in H | rewrite andb_true_iff in H
    | rewrite orb_false_iff in H | rewrite andb_false_iff in H
    | rewrite negb_true_iff in H | rewrite negb_false_iff in H
    | rewrite N.eqb_eq in H | rewrite N.eqb_neq in H
    | rewrite N.leb_le in H | rewrite N.leb_gt in H ].

(** Closes a goal [class c = false] or [c <> d] from a hypothesis on the
    class of [c]. *)
Ltac class_solve H :=
  eval_ch;
  try (apply not_true_is_false; let G := fresh in intros G; class_prop G);
  class_prop H; unfold LF, char in *; lia.

Lemma is_name_not_lt (c : char) : is_name c = true -> is_lt c = false.
Proof. intros H. class_solve H. Qed.

Lemma is_name_not_slash (c : char) : is_name c = true -> c <> ch "/".
Proof. intros H. class_solve H. Qed.

Lemma is_name_not_LF (c : char) : is_name c = true -> N.eqb c LF = false.
Proof. intros H. apply N.eqb_neq. class_solve H. Qed.

Lemma not_lt_not_LF (c : char) : is_lt c = false -> N.eqb c LF = false.
Proof. intros H. apply N.eqb_neq. class_solve H. Qed.

Lemma valid_key_shape (k : str) :
  valid_key k = true ->
  exists c name,
    k = js "--" ++ c :: name /\ forallb is_name (c :: name) = true.
Proof.
  unfold valid_key. intros H. apply andb_true_iff in H as [Hp Hn].
  apply startsWith_prefix in Hp as [t ->].
  change (skipn 2 (js "--" ++ t)) with t in Hn.
  destruct t as [|c name]; [discriminate|]. now exists c, name.
Qed.

Lemma valid_value_shape (v : str) :
  valid_value v = true ->
  trim v = v
  /\ forallb (fun c => negb (is_lt c)) v = true
  /\ removeAll COMMENT_REGEX true 0 v = v.
Proof.
  unfold valid_value. intros H.
  apply andb_true_iff in H as [H H3]. apply andb_true_iff in H as [H1 H2].
  apply str_eqb_eq in H1. apply str_eqb_eq in H3. now repeat split.
Qed.

(** ** The declaration lines of [buildBlock] *)

Lemma removeAll_comment_bol (s : str) : forall b b' k,
  removeAll COMMENT_REGEX b k s = removeAll COMMENT_REGEX b' k s.
Proof.
  induction s as [|c s IH]; intros b b' k; cbn [removeAll]; [reflexivity|].
  destruct k; [|apply IH].
  change (COMMENT_REGEX b (c :: s)) with (COMMENT_REGEX b' (c :: s)).
  destruct (COMMENT_REGEX b' (c :: s)) as [[|n]|]; reflexivity.
Qed.

Lemma removeAll_comment_prefix (a s : str) :
  Forall (fun c => c <> ch "/") a ->
  forall b, removeAll COMMENT_REGEX b 0 (a ++ s)
            = a ++ removeAll COMMENT_REGEX b 0 s.
Proof.
  induction 1 as [|c a Hc Ha IH]; intros b; [reflexivity|].
  cbn [app removeAll]. unfold COMMENT_REGEX at 1.
  replace (startsWith (c :: a ++ s) (js "/*")) with false.
  - f_equal. rewrite <- IH. apply removeAll_comment_bol.
  - symmetry. change (js "/*") with [ch "/"; ch "*"]. cbn [startsWith].
    apply andb_false_iff; left. apply N.eqb_neq. congruence.
Qed.

Lemma startsWith_snoc2 (s : str) (x y c : char) :
  y <> c -> startsWith (s ++ [c]) [x; y] = startsWith s [x; y].
Proof.
  intros Hy. apply N.eqb_neq in Hy.
  destruct s as [|a [|b s]]; cbn [app startsWith];
    rewrite ?Hy, ?andb_false_r; reflexivity.
Qed.

Lemma comment_tail_snoc (s : str) :
  comment_tail (s ++ [ch ";"]) = comment_tail s.
Proof.
  induction s as [|c s IH].
  - reflexivity.
  - cbn [app comment_tail]. change (c :: s ++ [ch ";"]) with ((c :: s) ++ [ch ";"]).
    change (js "*/") with [ch "*"; ch "/"].
    rewrite startsWith_snoc2 by discriminate. now rewrite IH.
Qed.

Lemma COMMENT_REGEX_snoc (b : bool) (s : str) :
  COMMENT_REGEX b (s ++ [ch ";"]) = COMMENT_REGEX b s.
Proof.
  unfold COMMENT_REGEX. change (js "/*") with [ch "/"; ch "*"].
  rewrite startsWith_snoc2 by discriminate.
  destruct (startsWith s [ch "/"; ch "*"]) eqn:E; [|reflexivity].
  apply (startsWith_prefix s [ch "/"; ch "*"]) in E as [t ->].
  cbn [app skipn]. now rewrite comment_tail_snoc.
Qed.

(** The semicolon that closes a declaration is outside every comment of
    the value. *)
Lemma removeAll_comment_snoc (v : str) : forall b k,
  k <= length v ->
  removeAll COMMENT_REGEX b k (v ++ [ch ";"])
  = removeAll COMMENT_REGEX b k v ++ [ch ";"].
Proof.
  induction v as [|c v IH]; intros b k Hk.
  - cbn in Hk. replace k with 0 by lia. reflexivity.
  - cbn [app removeAll]. destruct k as [|k].
    + change (c :: v ++ [ch ";"]) with ((c :: v) ++ [ch ";"]).
      rewrite COMMENT_REGEX_snoc.
      destruct (COMMENT_REGEX b (c :: v)) as [[|n]|] eqn:E.
      * cbn [app]. f_equal. apply IH. lia.
      * apply COMMENT_REGEX_bound in E as [Hn _]. cbn [length] in Hn.
        apply IH. lia.
      * cbn [app]. f_equal. apply IH. lia.
    + apply IH. cbn [length] in Hk. lia.
Qed.

Lemma strip_line_declaration (k v : str) :
  valid_key k = true -> valid_value v = true ->
  strip_line (declaration (k, v)) = k ++ js ": " ++ v ++ js ";".
Proof.
  intros Hk Hv. apply valid_key_shape in Hk as (c & name & -> & Hname).
  apply valid_value_shape in Hv as (_ & _ & Hfree).
  unfold strip_line, declaration; cbn [fst snd].
  assert (Htrim : trim (js "  " ++ (js "--" ++ c :: name) ++ js ": " ++ v ++ js ";")
                  = (js "--" ++ c :: name) ++ js ": " ++ v ++ js ";").
  { unfold trim. change (js "  ") with [ch " "; ch " "].
    change (js "--") with [ch "-"; ch "-"]. cbn [app].
    rewrite 2 trimStart_ws by reflexivity.
    rewrite trimStart_nonws by reflexivity.
    change (js ";") with [ch ";"].
    replace (ch "-" :: ch "-" :: c :: name ++ js ": " ++ v ++ [ch ";"])
      with ((ch "-" :: ch "-" :: c :: name ++ js ": " ++ v) ++ [ch ";"]).
    - now rewrite trimEnd_snoc.
    - cbn [app]. now rewrite <- !app_assoc. }
  rewrite Htrim.
  rewrite removeAll_comment_prefix.
  - f_equal. change (js ": ") with [ch ":"; ch " "]. cbn [app].
    rewrite (removeAll_comment_prefix [ch ":"; ch " "] (v ++ js ";")).
    + cbn [app]. do 2 f_equal. change (js ";") with [ch ";"].
      rewrite removeAll_comment_snoc by lia. now rewrite Hfree.
    + repeat constructor; discriminate.
  - change (js "--") with [ch "-"; ch "-"]. cbn [app].
    do 2 (constructor; [discriminate|]).
    apply Forall_forall. intros x Hx. apply is_name_not_slash.
    rewrite forallb_forall in Hname. now apply Hname.
Qed.

(** The declaration pattern reads the line that [buildBlock] wrote. *)
Lemma VAR_REGEX_declaration (c : char) (name v : str) :
  forallb is_name (c :: name) = true ->
  trim v = v ->
  forallb (fun x => negb (is_lt x)) v = true ->
  exists m2,
    VAR_REGEX (js "--" ++ (c :: name) ++ js ": " ++ v ++ js ";")
    = Some (c :: name, m2)
    /\ trim m2 = v.
Proof.
  intros Hname Htrim Hlt. unfold VAR_REGEX.
  rewrite startsWith_app.
  change (skipn 2 (js "--" ++ (c :: name) ++ js ": " ++ v ++ js ";"))
    with ((c :: name) ++ ch ":" :: ch " " :: v ++ [ch ";"]).
  rewrite (span_app_stop is_name (c :: name)) by (assumption || reflexivity).
  rewrite N.eqb_refl.
  replace (rev (ch " " :: v ++ [ch ";"])) with (ch ";" :: rev (ch " " :: v))
    by (cbn [rev]; rewrite rev_app_distr; reflexivity).
  rewrite N.eqb_refl, rev_involutive.
  destruct v as [|d v].
  - exists [ch " "]. split; reflexivity.
  - apply trimmed_head in Htrim as [Hd Hend].
    change (ch " " :: d :: v) with ([ch " "] ++ d :: v).
    rewrite (span_app_stop is_ws [ch " "] (d :: v))
      by (reflexivity || assumption).
    rewrite Hlt. exists (d :: v). split; [reflexivity|].
    unfold trim. now rewrite trimStart_nonws.
Qed.

Lemma extractVars_step_declaration (acc : Record) (kv : str * str) :
  valid_entry kv = true ->
  extractVars_step acc (strip_line (declaration kv))
  = set (fst kv) (snd kv) acc.
Proof.
  destruct kv as [k v]. unfold valid_entry; cbn [fst snd]. intros H.
  apply andb_true_iff in H as [Hk Hv].
  rewrite strip_line_declaration by assumption.
  apply valid_key_shape in Hk as (c & name & -> & Hname).
  apply valid_value_shape in Hv as (Htrim & Hlt & _).
  destruct (VAR_REGEX_declaration c name v Hname Htrim Hlt) as (m2 & Hm & Ht).
  unfold extractVars_step. rewrite <- app_assoc, Hm, Ht. reflexivity.
Qed.

Lemma fold_declarations (m : Record) : forall acc,
  forallb valid_entry m = true ->
  fold_left extractVars_step (map strip_line (map declaration m)) acc
  = spread m acc.
Proof.
  induction m as [|kv m IH]; intros acc H; [reflexivity|].
  cbn [forallb] in H. apply andb_true_iff in H as [Hkv Hm].
  cbn [map fold_left]. rewrite extractVars_step_declaration by assumption.
  now rewrite IH.
Qed.

Lemma declaration_one_line (kv : str * str) :
  valid_entry kv = true ->
  forallb (fun c => negb (N.eqb c LF)) (declaration kv) = true.
Proof.
  destruct kv as [k v]. unfold valid_entry; cbn [fst snd]. intros H.
  apply andb_true_iff in H as [Hk Hv].
  apply valid_key_shape in Hk as (c & name & -> & Hname).
  apply valid_value_shape in Hv as (_ & Hlt & _).
  unfold declaration; cbn [fst snd]. rewrite !forallb_app.
  rewrite !andb_true_iff. repeat split; try reflexivity.
  - apply forallb_forall. intros x Hx.
    rewrite forallb_forall in Hname.
    apply negb_true_iff, is_name_not_LF. now apply Hname.
  - apply forallb_forall. intros x Hx.
    rewrite forallb_forall in Hlt.
    apply negb_true_iff, not_lt_not_LF, negb_true_iff. now apply Hlt.
Qed.

(** *** The line of the selector *)

Lemma trim_snoc (s : str) (c : char) :
  is_ws c = false -> exists y, trim (s ++ [c]) = y ++ [c].
Proof.
  intros Hc. induction s as [|x s IH].
  - exists []. unfold trim. cbn [app]. rewrite trimStart_nonws by assumption.
    cbn. now rewrite Hc.
  - destruct (is_ws x) eqn:Ex.
    + destruct IH as [y Hy]. exists y. unfold trim in *. cbn [app].
      now rewrite trimStart_ws.
    + exists (x :: s). unfold trim.
      change ((x :: s) ++ [c]) with (x :: s ++ [c]) at 1.
      rewrite trimStart_nonws by assumption.
      exact (trimEnd_snoc (x :: s) c Hc).
Qed.

Lemma VAR_REGEX_last (z : str) (c : char) :
  c <> ch ";" -> VAR_REGEX (z ++ [c]) = None.
Proof.
  intros Hc. unfold VAR_REGEX.
  destruct (startsWith (z ++ [c]) (js "--")); [|reflexivity].
  destruct (span is_name (skipn 2 (z ++ [c]))) as [name r] eqn:Es.
  apply span_eq in Es as (Es & _ & _).
  destruct name as [|n name]; [reflexivity|].
  destruct r as [|x r']; [reflexivity|].
  destruct (N.eqb x (ch ":")); [|reflexivity].
  destruct (rev r') as [|last br] eqn:Er; [reflexivity|].
  destruct (N.eqb last (ch ";")) eqn:El; [exfalso|reflexivity].
  apply N.eqb_eq in El; subst last.
  assert (Hr : r' = rev br ++ [ch ";"]).
  { rewrite <- (rev_involutive r'), Er. reflexivity. }
  pose proof (firstn_skipn 2 (z ++ [c])) as Hz. rewrite Es, Hr in Hz.
  replace (firstn 2 (z ++ [c]) ++ (n :: name) ++ x :: rev br ++ [ch ";"])
    with ((firstn 2 (z ++ [c]) ++ (n :: name) ++ x :: rev br) ++ [ch ";"])
    in Hz by (now rewrite <- !app_assoc).
  apply app_inj_tail in Hz as [_ Hz]. congruence.
Qed.

(** A selector on one line declares nothing. *)
Lemma extractVars_selector_line (selector : str) :
  forallb (fun c => negb (N.eqb c LF)) selector = true ->
  extractVars (selector ++ js " {") = [].
Proof.
  intros H. unfold extractVars. rewrite split_nl_one_line.
  - cbn [map fold_left]. unfold extractVars_step, strip_line.
    change (js " {") with ([ch " "] ++ [ch "{"]). rewrite app_assoc.
    destruct (trim_snoc (selector ++ [ch " "]) (ch "{") eq_refl) as [y ->].
    destruct (removeAll_comment_last y (ch "{")) with (b := true) (skip := 0)
      as [z ->]; [discriminate | lia |].
    rewrite VAR_REGEX_last; [reflexivity | discriminate].
  - rewrite forallb_app. apply andb_true_iff; split; [exact H | reflexivity].
Qed.

(** ** Round trip *)

Lemma buildBlock_lines (selector : str) (m : Record) :
  buildBlock selector m
  = (selector ++ js " {")
    ++ LF :: (join [LF] (map declaration m) ++ LF :: js "}").
Proof.
  unfold buildBlock. fold declaration.
  change (fun kv : str * str => declaration kv) with declaration.
  rewrite <- !app_assoc. reflexivity.
Qed.

(** C2, as the code has it: the extractor gives back the map that
    [buildBlock] rendered when the selector is on one line, every key is
    two dashes and a name of name characters, and every value is trimmed,
    on one line and without a comment. *)
Theorem extractVars_buildBlock_roundtrip (selector : str) (m : Record) :
  forallb (fun c => negb (N.eqb c LF)) selector = true ->
  uniqueKeys m = true ->
  forallb valid_entry m = true ->
  extractVars (buildBlock selector m) = m.
Proof.
  intros Hsel Huniq Hvalid.
  rewrite buildBlock_lines. unfold extractVars.
  rewrite !split_nl_app, !map_app, !fold_left_app.
  fold (extractVars (selector ++ js " {")).
  rewrite (extractVars_selector_line selector Hsel).
  destruct m as [|kv m].
  - reflexivity.
  - rewrite split_nl_join.
    + rewrite fold_declarations by assumption.
      rewrite spread_nil by now apply uniqueKeys_NoDup.
      reflexivity.
    + discriminate.
    + apply Forall_forall. intros l Hl.
      apply in_map_iff in Hl as (e & <- & He).
      apply declaration_one_line.
      rewrite forallb_forall in Hvalid. now apply Hvalid.
Qed.

Lemma extractVars_buildBlock_roundtrip_witness :
  let m := [(js "--primary", js "oklch(0.2 0 0)"); (js "--radius", js "0.5rem")] in
  extractVars (buildBlock (js ":root") m) = m.
Proof.
  intros m.
  exact (extractVars_buildBlock_roundtrip (js ":root") m
           eq_refl eq_refl eq_refl).
Defined.

(** C2 at a map with one entry whose value holds a comment: the
    extractor drops the comment, so the value that comes back is another
    one. A key that is not a custom property name does not come back at
    all. *)
Lemma roundtrip_counterexample :
  extractVars (buildBlock (js ":root") [(js "--a", js "1 /* px */")])
  = [(js "--a", js "1")]
  /\ extractVars (buildBlock (js ":root") [(js "--a", js "1 /* px */")])
     <> [(js "--a", js "1 /* px */")]
  /\ extractVars (buildBlock (js ":root") [(js "color", js "red")]) = [].
Proof.
  repeat split; try (vm_compute; reflexivity).
  vm_compute. discriminate.
Qed.

(** ** The single-block patterns *)

Lemma find_char_app (c : char) (body rest : str) :
  find_char c body = None ->
  find_char c (body ++ c :: rest) = Some (length body).
Proof.
  induction body as [|d body IH]; cbn [find_char app length].
  - now rewrite N.eqb_refl.
  - destruct (N.eqb d c); [discriminate|].
    destruct (find_char c body); [discriminate|].
    intros _. now rewrite IH.
Qed.

Lemma find_char_None (c : char) (s : str) :
  find_char c s = None <-> ~ In c s.
Proof.
  induction s as [|d s IH]; cbn [find_char In]; [tauto|].
  destruct (N.eqb d c) eqn:E.
  - apply N.eqb_eq in E. split; [discriminate | tauto].
  - apply N.eqb_neq in E. destruct (find_char c s); cbn.
    + split; [discriminate|]. intros H.
      assert (Hn : ~ In c s) by tauto. apply IH in Hn. discriminate.
    + split; [|reflexivity]. intros _ [?|?]; [congruence|].
      now apply (proj1 IH).
Qed.

Lemma selector_length (k : selector) : length (selector_text k) = 5.
Proof. now destruct k. Qed.

Lemma skipn_app_exact (a b : str) : skipn (length a) (a ++ b) = b.
Proof. induction a; [reflexivity | assumption]. Qed.

Lemma firstn_app_exact (a b : str) : firstn (length a) (a ++ b) = a.
Proof. induction a; cbn; [reflexivity | now f_equal]. Qed.

Lemma block_regex_here_block (k : selector) (ws body rest : str) :
  forallb is_ws ws = true ->
  find_char (ch "}") body = None ->
  block_regex_here k (block_text k ws body ++ rest)
  = Some (length (block_text k ws body), body).
Proof.
  intros Hws Hbody. unfold block_regex_here, block_text.
  rewrite <- !app_assoc, startsWith_app.
  rewrite <- (selector_length k), skipn_app_exact.
  cbn [app]. rewrite <- app_assoc.
  rewrite (span_app_stop is_ws ws) by (assumption || reflexivity).
  rewrite N.eqb_refl. cbn [app].
  rewrite (find_char_app _ body rest Hbody), firstn_app_exact.
  do 2 f_equal. rewrite !length_app. cbn [length]. rewrite length_app.
  cbn [length]. lia.
Qed.

Lemma block_regex_at_first (k : selector) (i : nat) : forall s i0,
  i <= length s ->
  (forall j, j < i -> startsWith (skipn j s) (selector_text k) = false) ->
  block_regex_at k s i0 = block_regex_at k (skipn i s) (i0 + i).
Proof.
  induction i as [|i IH]; intros s i0 Hl Hj.
  - now rewrite Nat.add_0_r.
  - destruct s as [|c s]; [cbn in Hl; lia|].
    cbn [block_regex_at skipn].
    unfold block_regex_here at 1.
    rewrite (Hj 0 ltac:(lia) : startsWith (c :: s) _ = false).
    rewrite (IH s (S i0)).
    + f_equal; lia.
    + cbn in Hl; lia.
    + intros j Hlt. apply (Hj (S j)). lia.
Qed.

(** The pattern finds the block that starts at the first occurrence of
    its selector. *)
Lemma block_regex_exec_block (k : selector) (pre ws body rest : str) :
  forallb is_ws ws = true ->
  find_char (ch "}") body = None ->
  indexOf (pre ++ block_text k ws body ++ rest) (selector_text k)
  = Some (length pre) ->
  block_regex_exec k (pre ++ block_text k ws body ++ rest)
  = Some (length pre, length (block_text k ws body), body).
Proof.
  intros Hws Hbody Hidx. apply indexOf_Some in Hidx as (_ & _ & Hj).
  unfold block_regex_exec.
  rewrite (block_regex_at_first k (length pre)); [|rewrite length_app; lia
                                                   |assumption].
  rewrite skipn_app_exact.
  destruct (block_text k ws body ++ rest) as [|c t] eqn:E.
  - destruct k; discriminate.
  - cbn [block_regex_at]. rewrite <- E.
    now rewrite block_regex_here_block.
Qed.

Lemma replace_block_regex_block (k : selector) (pre ws body rest : str) :
  forallb is_ws ws = true ->
  find_char (ch "}") body = None ->
  indexOf (pre ++ block_text k ws body ++ rest) (selector_text k)
  = Some (length pre) ->
  replace_block_regex k (pre ++ block_text k ws body ++ rest) = pre ++ rest.
Proof.
  intros Hws Hbody Hidx. unfold replace_block_regex.
  rewrite block_regex_exec_block by assumption.
  rewrite firstn_app_exact. f_equal.
  rewrite skipn_app, skipn_all2 by lia. cbn [app].
  replace (length pre + length (block_text k ws body) - length pre)
    with (length (block_text k ws body)) by lia.
  apply skipn_app_exact.
Qed.

Lemma indexOf_single (s : str) (c : char) : indexOf s [c] = find_char c s.
Proof.
  unfold indexOf. induction s as [|d s IH]; [reflexivity|].
  cbn [indexOf_at find_char startsWith]. rewrite andb_true_r, N.eqb_sym.
  destruct (N.eqb d c); [reflexivity|].
  rewrite indexOf_at_shift. unfold indexOf. now rewrite IH.
Qed.

Lemma scan_braces_flat (body rest : str) : forall i,
  find_char (ch "{") body = None ->
  find_char (ch "}") body = None ->
  scan_braces (body ++ ch "}" :: rest) 1 i = i + length body + 1.
Proof.
  induction body as [|c body IH]; intros i Ho Hc.
  - cbn [app scan_braces length]. change (0 <? 1)%Z with true. cbv iota.
    change (N.eqb (ch "}") (ch "{")) with false. rewrite N.eqb_refl.
    change (1 - 1)%Z with 0%Z.
    destruct rest; cbn [scan_braces]; [lia|].
    change (0 <? 0)%Z with false. cbv iota. lia.
  - cbn [find_char] in Ho, Hc.
    cbn [app scan_braces]. change (0 <? 1)%Z with true. cbv iota.
    destruct (N.eqb c (ch "{")); [discriminate|].
    destruct (N.eqb c (ch "}")); [discriminate|].
    rewrite IH.
    + cbn [length]. lia.
    + now destruct (find_char (ch "{") body).
    + now destruct (find_char (ch "}") body).
Qed.

Lemma selector_no_brace (k : selector) (ws : str) :
  forallb is_ws ws = true ->
  find_char (ch "{") (selector_text k ++ ws) = None.
Proof.
  intros Hws. apply find_char_None. intros Hin.
  apply in_app_or in Hin as [Hin|Hin].
  - destruct k; vm_compute in Hin; intuition discriminate.
  - rewrite forallb_forall in Hws. apply Hws in Hin. discriminate.
Qed.

Lemma startsWith_app_false (s a b : str) :
  startsWith s a = false -> startsWith s (a ++ b) = false.
Proof.
  revert s; induction a as [|x a IH]; intros s; cbn; [discriminate|].
  destruct s as [|y s]; [reflexivity|].
  destruct (N.eqb x y); cbn; [apply IH | reflexivity].
Qed.

Lemma block_text_app (k : selector) (ws body rest : str) :
  block_text k ws body ++ rest
  = (selector_text k ++ ws) ++ ch "{" :: body ++ ch "}" :: rest.
Proof.
  unfold block_text. rewrite <- !app_assoc. cbn [app].
  now rewrite <- app_assoc.
Qed.

(** The Block Extractor finds the same block when the body holds no
    brace. *)
Lemma extractBlock_block (k : selector) (pre ws body rest : str) :
  forallb is_ws ws = true ->
  find_char (ch "{") body = None ->
  find_char (ch "}") body = None ->
  indexOf (pre ++ block_text k ws body ++ rest) (selector_text k)
  = Some (length pre) ->
  extractBlock (pre ++ block_text k ws body ++ rest) (selector_text k)
  = block_text k ws body.
Proof.
  intros Hws Ho Hc Hidx. unfold extractBlock. rewrite Hidx.
  unfold indexOfFrom. rewrite Nat.min_l by (rewrite length_app; lia).
  rewrite skipn_app_exact, indexOf_at_shift.
  change (js "{") with [ch "{"]. rewrite indexOf_single.
  rewrite block_text_app.
  rewrite (find_char_app (ch "{") (selector_text k ++ ws))
    by now apply selector_no_brace.
  cbn [option_map].
  set (o := length pre + length (selector_text k ++ ws)).
  assert (Hskip :
    skipn (o + 1)
      (pre ++ (selector_text k ++ ws) ++ ch "{" :: body ++ ch "}" :: rest)
    = body ++ ch "}" :: rest).
  { replace (pre ++ (selector_text k ++ ws) ++ ch "{" :: body ++ ch "}" :: rest)
      with ((pre ++ (selector_text k ++ ws) ++ [ch "{"]) ++ body ++ ch "}" :: rest)
      by (rewrite <- !app_assoc; reflexivity).
    replace (o + 1) with (length (pre ++ (selector_text k ++ ws) ++ [ch "{"]))
      by (subst o; rewrite !length_app; cbn [length]; lia).
    apply skipn_app_exact. }
  rewrite Hskip, scan_braces_flat by assumption.
  unfold slice. rewrite skipn_app_exact, <- block_text_app.
  replace (o + 1 + length body + 1 - length pre)
    with (length (block_text k ws body)).
  - apply firstn_app_exact.
  - subst o. unfold block_text. rewrite !length_app. cbn [length].
    rewrite length_app. cbn [length]. lia.
Qed.

Lemma replaceStr_block (k : selector) (pre ws body rest : str) :
  indexOf (pre ++ block_text k ws body ++ rest) (selector_text k)
  = Some (length pre) ->
  replaceStr (pre ++ block_text k ws body ++ rest) (block_text k ws body)
  = pre ++ rest.
Proof.
  intros Hidx. apply indexOf_Some in Hidx as (_ & _ & Hj).
  unfold replaceStr. rewrite (indexOf_first _ _ (length pre)).
  - rewrite firstn_app_exact. f_equal.
    rewrite app_assoc, <- length_app. apply skipn_app_exact.
  - rewrite skipn_app_exact. apply startsWith_app.
  - intros j Hlt. unfold block_text. apply startsWith_app_false.
    now apply Hj.
  - rewrite length_app. lia.
Qed.

Lemma block_regex_at_absent (k : selector) (s : str) : forall i,
  (forall j, startsWith (skipn j s) (selector_text k) = false) ->
  block_regex_at k s i = None.
Proof.
  induction s as [|c s IH]; intros i H; cbn [block_regex_at];
    unfold block_regex_here; pose proof (H 0) as H0; cbn [skipn] in H0;
    rewrite H0; [reflexivity|].
  apply IH. intros j. exact (H (S j)).
Qed.

Lemma replaceStr_empty (s : str) : replaceStr s [] = s.
Proof. unfold replaceStr, indexOf. now destruct s. Qed.

(** X27: the section that a single-block pattern locates is the block of
    the Block Extractor when the selector does not occur at all (both are
    empty and nothing is stripped), and when the first occurrence of the
    selector is followed by white space and a body between braces that
    holds no brace of its own; there the variables are read from that body
    and both ways of stripping leave the same text. *)
Theorem regex_section_is_block_without_nesting (k : selector) :
  (forall text,
     indexOf text (selector_text k) = None ->
     match_whole k text = spec_user_section k text
     /\ replace_block_regex k text = spec_strip_section k text)
  /\ (forall pre ws body rest,
        forallb is_ws ws = true ->
        find_char (ch "{") body = None ->
        find_char (ch "}") body = None ->
        let text := pre ++ block_text k ws body ++ rest in
        indexOf text (selector_text k) = Some (length pre) ->
        match_whole k text = spec_user_section k text
        /\ match_group1 k text = body
        /\ replace_block_regex k text = spec_strip_section k text).
Proof.
  split.
  - intros text Hnone.
    unfold match_whole, replace_block_regex, spec_strip_section,
      spec_user_section, block_regex_exec, extractBlock.
    rewrite block_regex_at_absent by now apply indexOf_None.
    rewrite Hnone. now rewrite replaceStr_empty.
  - intros pre ws body rest Hws Ho Hc text Hidx.
    unfold spec_strip_section, spec_user_section. subst text.
    rewrite extractBlock_block by assumption.
    rewrite replaceStr_block by assumption.
    rewrite replace_block_regex_block by assumption.
    unfold match_whole, match_group1.
    rewrite block_regex_exec_block by assumption.
    rewrite skipn_app_exact, firstn_app_exact. auto.
Qed.

Lemma regex_section_is_block_without_nesting_witness :
  let text := js "body { margin: 0; }
:root { --a: 1; }
.x { color: red; }" in
  match_whole Root text = spec_user_section Root text
  /\ match_group1 Root text = js " --a: 1; "
  /\ replace_block_regex Root text = spec_strip_section Root text.
Proof.
  intros text.
  exact (proj2 (regex_section_is_block_without_nesting Root)
           (js "body { margin: 0; }
") (js " ") (js " --a: 1; ") (js "
.x { color: red; }") eq_refl eq_refl eq_refl eq_refl).
Defined.

(** C8: the code at a user [:root] block that holds a nested block.  The
    pattern ends the section at the first closing brace, while the Block
    Extractor, by which the sibling sections [@theme inline] and
    [@layer base] are located, finds the whole block.  The variable before
    the nested rule is read, the nested rule is deleted with the section,
    and the closing brace of the block stays behind as leftover text.  The
    same nesting inside [@layer base] is stripped whole. *)
Theorem nested_block_is_cut_at_first_brace :
  let text := js ":root {
  --a: 1;
  @media (min-width: 1px) { --b: 2; }
}" in
  match_whole Root text = js ":root {
  --a: 1;
  @media (min-width: 1px) { --b: 2; }"
  /\ spec_user_section Root text = text
  /\ match_whole Root text <> spec_user_section Root text
  /\ userRootVars text = [(js "--a", js "1")]
  /\ leftover text = js "}"
  /\ trim (spec_strip_section Root text) = []
  /\ leftover (js "@layer base {
  @media (min-width: 1px) { body { margin: 0; } }
}") = [].
Proof.
  repeat split; try (vm_compute; reflexivity).
  vm_compute. discriminate.
Qed.

(** ** Later blocks *)

Lemma trimEnd_keep (u y : str) (d : char) :
  is_ws d = false -> trimEnd (u ++ d :: y) = u ++ d :: trimEnd y.
Proof.
  intros Hd. induction u as [|x u IH]; cbn [app trimEnd].
  - rewrite Hd. now destruct (trimEnd y).
  - rewrite IH. now destruct u.
Qed.

Lemma trimStart_keep (x t : str) (c : char) :
  is_ws c = false -> exists x', trimStart (x ++ c :: t) = x' ++ c :: t.
Proof.
  intros Hc. induction x as [|e x [x' IH]]; cbn [app].
  - exists []. now apply trimStart_nonws.
  - destruct (is_ws e) eqn:Ee.
    + exists x'. now rewrite trimStart_ws.
    + exists (e :: x). now rewrite trimStart_nonws.
Qed.

(** Trimming keeps a piece that starts and ends with a character that is
    not white space. *)
Lemma trim_keeps (x t y : str) (c d : char) :
  is_ws c = false -> is_ws d = false ->
  exists a b, trim (x ++ (c :: t ++ [d]) ++ y) = a ++ (c :: t ++ [d]) ++ b.
Proof.
  intros Hc Hd. unfold trim. cbn [app]. rewrite <- app_assoc. cbn [app].
  destruct (trimStart_keep x (t ++ d :: y) c Hc) as [x' ->].
  exists x', (trimEnd y).
  replace (x' ++ c :: t ++ d :: y) with ((x' ++ c :: t) ++ d :: y)
    by (rewrite <- app_assoc; reflexivity).
  rewrite trimEnd_keep by assumption.
  rewrite <- !app_assoc. reflexivity.
Qed.

Lemma block_text_ends (k : selector) (ws body : str) :
  exists c t,
    block_text k ws body = c :: t ++ [ch "}"] /\ is_ws c = false.
Proof.
  unfold block_text. destruct k.
  - exists (ch ":"), (js "root" ++ ws ++ ch "{" :: body). split;
      [|reflexivity].
    change (selector_text Root) with (ch ":" :: js "root"). cbn [app].
    now rewrite <- !app_assoc.
  - exists (ch "."), (js "dark" ++ ws ++ ch "{" :: body). split;
      [|reflexivity].
    change (selector_text Dark) with (ch "." :: js "dark"). cbn [app].
    now rewrite <- !app_assoc.
Qed.

Lemma replace_block_regex_none (k : selector) (s : str) :
  block_regex_exec k s = None -> replace_block_regex k s = s.
Proof. unfold replace_block_regex. now intros ->. Qed.

Lemma extractBlock_absent (s keyword : str) :
  indexOf s keyword = None -> extractBlock s keyword = [].
Proof. unfold extractBlock. now intros ->. Qed.

Lemma cut_keeps (cut : nat * nat) (a x b : str) (q : nat) :
  moved cut (length x) (length a) = Some q ->
  exists a' b',
    firstn (fst cut) (a ++ x ++ b) ++ skipn (fst cut + snd cut) (a ++ x ++ b)
    = a' ++ x ++ b'
    /\ length a' = q.
Proof.
  destruct cut as [i n]. cbn [moved fst snd].
  destruct (i + n <=? length a) eqn:E1.
  - apply Nat.leb_le in E1. intros [= <-].
    exists (firstn i a ++ skipn (i + n) a), b. split.
    + rewrite firstn_app, skipn_app.
      replace (i - length a) with 0 by lia.
      replace (i + n - length a) with 0 by lia.
      cbn [firstn skipn]. now rewrite app_nil_r, <- app_assoc.
    + rewrite length_app, length_firstn, length_skipn. lia.
  - destruct (length a + length x <=? i) eqn:E2; [|discriminate].
    apply Nat.leb_le in E2. intros [= <-].
    exists a, (firstn (i - length a - length x) b
               ++ skipn (i + n - length a - length x) b).
    split; [|reflexivity].
    rewrite !firstn_app, !skipn_app.
    rewrite (firstn_all2 a) by lia. rewrite (firstn_all2 x) by lia.
    rewrite (skipn_all2 a) by lia. rewrite (skipn_all2 x) by lia.
    cbn [app]. rewrite <- !app_assoc. reflexivity.
Qed.

Lemma replace_block_regex_cut (k : selector) (s : str) :
  replace_block_regex k s
  = firstn (fst (regex_cut k s)) s
    ++ skipn (fst (regex_cut k s) + snd (regex_cut k s)) s.
Proof.
  unfold replace_block_regex, regex_cut.
  destruct (block_regex_exec k s) as [[[i n] g]|]; reflexivity.
Qed.

Lemma replaceStr_cut (s pat : str) :
  replaceStr s pat
  = firstn (fst (text_cut s pat)) s
    ++ skipn (fst (text_cut s pat) + snd (text_cut s pat)) s.
Proof.
  unfold replaceStr, text_cut.
  destruct (indexOf s pat) as [i|]; reflexivity.
Qed.

(** A part of the working content that no strip overlaps is in the
    leftover text as it was, when it starts and ends with a character
    that is not white space. *)
Lemma stripOldSections_keeps (a t b : str) (c d : char) :
  is_ws c = false -> is_ws d = false ->
  let x := c :: t ++ [d] in
  clear_of_strips (a ++ x ++ b) (length a) (length x) = true ->
  exists a' b', stripOldSections (a ++ x ++ b) = a' ++ x ++ b'.
Proof.
  intros Hc Hd x. unfold clear_of_strips, stripOldSections.
  set (w := a ++ x ++ b).
  destruct (moved (regex_cut Root w) (length x) (length a)) as [p1|] eqn:E1;
    [|discriminate].
  destruct (cut_keeps _ a x b p1 E1) as (a1 & b1 & H1 & L1).
  fold w in H1. rewrite <- replace_block_regex_cut in H1. rewrite H1.
  destruct (moved (regex_cut Dark (a1 ++ x ++ b1)) (length x) p1)
    as [p2|] eqn:E2; [|discriminate].
  rewrite <- L1 in E2.
  destruct (cut_keeps _ a1 x b1 p2 E2) as (a2 & b2 & H2 & L2).
  rewrite <- replace_block_regex_cut in H2. rewrite H2.
  destruct (moved (text_cut (a2 ++ x ++ b2) (extractBlock w (js "@theme inline")))
              (length x) p2) as [p3|] eqn:E3; [|discriminate].
  rewrite <- L2 in E3.
  destruct (cut_keeps _ a2 x b2 p3 E3) as (a3 & b3 & H3 & L3).
  rewrite <- replaceStr_cut in H3. rewrite H3.
  destruct (moved (text_cut (a3 ++ x ++ b3) (extractBlock w (js "@layer base")))
              (length x) p3) as [p4|] eqn:E4; [|discriminate].
  rewrite <- L3 in E4.
  destruct (cut_keeps _ a3 x b3 p4 E4) as (a4 & b4 & H4 & L4).
  rewrite <- replaceStr_cut in H4. rewrite H4.
  intros _. subst x. now apply trim_keeps.
Qed.




(** * Running the merge twice *)

(** ** More on trimming *)

Lemma trimEnd_cons (c : char) (s : str) :
  trimEnd (c :: s)
  = match trimEnd s with
    | [] => if is_ws c then [] else [c]
    | t => c :: t
    end.
Proof. reflexivity. Qed.

Lemma trimEnd_idem (s : str) : trimEnd (trimEnd s) = trimEnd s.
Proof.
  induction s as [|c s IH]; [reflexivity|]. rewrite trimEnd_cons.
  destruct (trimEnd s) as [|d t] eqn:E.
  - destruct (is_ws c) eqn:Ec; [reflexivity|]. cbn. now rewrite Ec.
  - rewrite trimEnd_cons, IH. reflexivity.
Qed.

Lemma trimEnd_head (s : str) :
  trimEnd s = [] \/ exists c t t', s = c :: t /\ trimEnd s = c :: t'.
Proof.
  destruct s as [|c s]; [now left|]. cbn [trimEnd].
  destruct (trimEnd s) as [|d t].
  - destruct (is_ws c); [now left | right; now exists c, s, []].
  - right. now exists c, s, (d :: t).
Qed.

Lemma trimStart_head (s : str) :
  trimStart s = [] \/ exists c t, trimStart s = c :: t /\ is_ws c = false.
Proof.
  induction s as [|c s IH]; [now left|].
  destruct (is_ws c) eqn:E.
  - now rewrite trimStart_ws.
  - right. exists c, s. now rewrite trimStart_nonws.
Qed.

Lemma trim_idem (s : str) : trim (trim s) = trim s.
Proof.
  unfold trim. destruct (trimStart_head s) as [E|(c & t & E & Hc)]; rewrite E.
  - reflexivity.
  - destruct (trimEnd_head (c :: t)) as [E'|(c' & t1 & t' & E1 & E')].
    + now rewrite E'.
    + inversion E1; subst c' t1. rewrite E'.
      rewrite trimStart_nonws by assumption.
      rewrite <- E'. apply trimEnd_idem.
Qed.

Lemma trimStart_ws_prefix (w s : str) :
  forallb is_ws w = true -> trimStart (w ++ s) = trimStart s.
Proof.
  induction w as [|c w IH]; cbn [forallb app]; [reflexivity|].
  intros H. apply andb_true_iff in H as [Hc Hw].
  rewrite trimStart_ws by assumption. now apply IH.
Qed.

Lemma trim_ws_prefix (w s : str) :
  forallb is_ws w = true -> trim (w ++ s) = trim s.
Proof. intros H. unfold trim. now rewrite trimStart_ws_prefix. Qed.

Lemma trimEnd_ws (w : str) : forallb is_ws w = true -> trimEnd w = [].
Proof.
  induction w as [|c w IH]; cbn [forallb trimEnd]; [reflexivity|].
  intros H. apply andb_true_iff in H as [Hc Hw]. now rewrite IH, Hc.
Qed.

Lemma trimEnd_ws_suffix (s w : str) :
  forallb is_ws w = true -> trimEnd (s ++ w) = trimEnd s.
Proof.
  intros Hw. induction s as [|c s IH]; cbn [app trimEnd].
  - now apply trimEnd_ws.
  - now rewrite IH.
Qed.

(** A text between two characters that are not white space is trimmed. *)
Lemma trim_fixed (c d : char) (t : str) :
  is_ws c = false -> is_ws d = false -> trim (c :: t ++ [d]) = c :: t ++ [d].
Proof.
  intros Hc Hd. unfold trim. rewrite trimStart_nonws by assumption.
  exact (trimEnd_snoc (c :: t) d Hd).
Qed.

Lemma forallb_trimEnd (p : char -> bool) (s : str) :
  forallb p s = true -> forallb p (trimEnd s) = true.
Proof.
  induction s as [|c s IH]; cbn [forallb trimEnd]; [reflexivity|].
  intros H. apply andb_true_iff in H as [Hc Hs]. specialize (IH Hs).
  destruct (trimEnd s); [destruct (is_ws c); cbn; now rewrite ?Hc|].
  cbn [forallb] in *. now rewrite Hc, IH.
Qed.

Lemma forallb_trimStart (p : char -> bool) (s : str) :
  forallb p s = true -> forallb p (trimStart s) = true.
Proof.
  induction s as [|c s IH]; [reflexivity|]. cbn [forallb].
  intros H. apply andb_true_iff in H as [Hc Hs].
  destruct (is_ws c) eqn:E.
  - rewrite trimStart_ws by assumption. now apply IH.
  - rewrite trimStart_nonws by assumption. cbn. now rewrite Hc, Hs.
Qed.

Lemma forallb_trim (p : char -> bool) (s : str) :
  forallb p s = true -> forallb p (trim s) = true.
Proof. intros H. now apply forallb_trimEnd, forallb_trimStart. Qed.

(** ** More on lines *)

Lemma join_split_nl (s : str) : join [LF] (split_nl s) = s.
Proof.
  induction s as [|c s IH]; [reflexivity|]. cbn [split_nl].
  destruct (split_nl_cons s) as (l & ls & E). rewrite E in *.
  destruct (N.eqb c LF) eqn:Ec.
  - apply N.eqb_eq in Ec; subst c.
    change (join [LF] ([] :: l :: ls)) with (LF :: join [LF] (l :: ls)).
    now rewrite IH.
  - destruct ls; cbn [join app] in *; now rewrite IH.
Qed.

Lemma join_cons2 (sep x y : str) (rest : list str) :
  join sep (x :: y :: rest) = x ++ sep ++ join sep (y :: rest).
Proof. reflexivity. Qed.

Lemma startsWith_app_LF (p a b : str) :
  ~ In LF p -> startsWith (a ++ LF :: b) p = startsWith a p.
Proof.
  revert a; induction p as [|x p IH]; intros a Hp; [reflexivity|].
  destruct a as [|y a]; cbn [app startsWith].
  - replace (N.eqb x LF) with false; [reflexivity|].
    symmetry. apply N.eqb_neq. intros ->. apply Hp. now left.
  - rewrite IH; [reflexivity|]. intros H. apply Hp. now right.
Qed.

(** A pattern without LF that does not occur in a piece does not start
    in it either when LF follows the piece. *)
Lemma indexOf_skip_piece (pat a b : str) :
  free_of pat a = true -> ~ In LF pat ->
  indexOf (a ++ LF :: b) pat
  = option_map (fun n => length a + 1 + n) (indexOf b pat).
Proof.
  unfold free_of. intros Hfree Hlf.
  destruct (indexOf a pat) eqn:Ea; [discriminate|]. clear Hfree.
  pose proof (indexOf_None a pat Ea) as Hno. clear Ea.
  unfold indexOf at 1. induction a as [|c a IH].
  - cbn [app indexOf_at length].
    pose proof (Hno 0) as H0. cbn [skipn] in H0.
    rewrite <- (startsWith_app_LF pat [] b Hlf) in H0. cbn [app] in H0.
    rewrite H0, indexOf_at_shift. now destruct (indexOf b pat).
  - cbn [app indexOf_at length].
    pose proof (Hno 0) as H0. cbn [skipn] in H0.
    rewrite <- (startsWith_app_LF pat (c :: a) b Hlf) in H0.
    cbn [app] in H0. rewrite H0, indexOf_at_shift.
    unfold indexOf at 1. rewrite IH by (intros j; exact (Hno (S j))).
    destruct (indexOf b pat); [cbn; f_equal; lia | reflexivity].
Qed.

(** ** Removing the imports *)

Lemma removeAll_skip (here : bool -> str -> option nat) (a x : str) :
  forall b, removeAll here b (length a) (a ++ x)
            = removeAll here (bol_after b a) 0 x.
Proof.
  induction a as [|c a IH]; intros b; cbn [length app bol_after].
  - now destruct x.
  - cbn [removeAll]. apply IH.
Qed.

(** A match that starts at the head of the text drops its characters. *)
Lemma removeAll_match (here : bool -> str -> option nat)
    (m x : str) (b : bool) :
  m <> [] -> here b (m ++ x) = Some (length m) ->
  removeAll here b 0 (m ++ x) = removeAll here (bol_after b m) 0 x.
Proof.
  intros Hm Hhere. destruct m as [|c m]; [congruence|].
  cbn [app removeAll]. change (c :: m ++ x) with ((c :: m) ++ x).
  rewrite Hhere. cbn [length bol_after]. apply removeAll_skip.
Qed.

Lemma import_tail_last (r : str) (n : nat) :
  import_tail r = Some n ->
  1 <= n <= length r /\ nth_error r (n - 1) = Some (ch ";").
Proof.
  revert n; induction r as [|c r IH]; intros n; cbn [import_tail];
    [discriminate|].
  destruct (N.eqb c (ch ";") && at_eol r) eqn:E.
  - intros [= <-]. apply andb_true_iff in E as [E _].
    apply N.eqb_eq in E; subst. cbn. split; [lia | reflexivity].
  - destruct (is_lt c); [discriminate|].
    destruct (import_tail r) as [m|]; [|discriminate].
    cbn. intros [= <-]. destruct (IH m eq_refl) as (Hm & Hn).
    split; [cbn; lia|]. destruct m as [|m]; [lia|]. cbn in *.
    now rewrite Nat.sub_0_r in Hn.
Qed.

Lemma startsWith_import_trim (l : str) :
  startsWith l (js "@import") = true ->
  startsWith (trim l) (js "@import") = true.
Proof.
  intros H. apply startsWith_prefix in H as [t ->].
  unfold trim. change (js "@import") with (ch "@" :: js "import") at 1.
  cbn [app]. rewrite trimStart_nonws by reflexivity.
  change (ch "@" :: js "import" ++ t) with (js "@impor" ++ ch "t" :: t).
  rewrite trimEnd_keep by reflexivity.
  change (js "@impor" ++ ch "t" :: trimEnd t)
    with (js "@import" ++ trimEnd t).
  apply startsWith_app.
Qed.

Lemma quiet_line_shape (l : str) :
  quiet_line l = true ->
  forallb (fun c => negb (is_lt c)) l = true
  /\ startsWith (trim l) (js "@import") = false
  /\ startsWith l (js "@import") = false.
Proof.
  unfold quiet_line. intros H. apply andb_true_iff in H as [Hlt Hs].
  apply negb_true_iff in Hs. repeat split; try assumption.
  destruct (startsWith l (js "@import")) eqn:E; [|reflexivity].
  apply startsWith_import_trim in E. congruence.
Qed.

Lemma IMPORT_REGEX_no_import (b : bool) (s : str) :
  startsWith s (js "@import") = false -> IMPORT_REGEX b s = None.
Proof. unfold IMPORT_REGEX. intros ->. now rewrite andb_false_r. Qed.

(** The replacement keeps a line in which no match starts. *)
Lemma removeAll_keep_line (l y : str) : forall b,
  forallb (fun c => negb (is_lt c)) l = true ->
  IMPORT_REGEX b (l ++ y) = None ->
  removeAll IMPORT_REGEX b 0 (l ++ y)
  = l ++ removeAll IMPORT_REGEX (bol_after b l) 0 y.
Proof.
  induction l as [|c l IH]; intros b Hlt Hnone; [reflexivity|].
  cbn [forallb] in Hlt. apply andb_true_iff in Hlt as [Hc Hl].
  apply negb_true_iff in Hc.
  cbn [app removeAll bol_after]. change (c :: l ++ y) with ((c :: l) ++ y).
  rewrite Hnone, Hc. f_equal. now apply IH.
Qed.

Lemma removeAll_quiet_lines (ls : list str) :
  forallb quiet_line ls = true ->
  removeAll IMPORT_REGEX true 0 (join [LF] ls) = join [LF] ls.
Proof.
  induction ls as [|l ls IH]; [reflexivity|]. cbn [forallb].
  intros H. apply andb_true_iff in H as [Hl Hls].
  apply quiet_line_shape in Hl as (Hlt & _ & Hs).
  destruct ls as [|l2 ls].
  - cbn [join]. rewrite <- (app_nil_r l) at 1.
    rewrite removeAll_keep_line; [now rewrite app_nil_r | assumption |].
    rewrite app_nil_r. now apply IMPORT_REGEX_no_import.
  - rewrite join_cons2. cbn [app].
    rewrite removeAll_keep_line; [|assumption|].
    + f_equal. cbn [removeAll].
      rewrite IMPORT_REGEX_no_import by reflexivity.
      f_equal. now apply IH.
    + apply IMPORT_REGEX_no_import.
      rewrite startsWith_app_LF; [assumption|].
      vm_compute. intuition discriminate.
Qed.

Lemma removeAll_quiet (s : str) :
  quiet s = true -> removeAll IMPORT_REGEX true 0 s = s.
Proof.
  intros H. rewrite <- (join_split_nl s).
  now apply removeAll_quiet_lines.
Qed.

Lemma quiet_app (a b : str) : quiet (a ++ LF :: b) = quiet a && quiet b.
Proof. unfold quiet. now rewrite split_nl_app, forallb_app. Qed.

Lemma no_lt_no_LF (l : str) :
  forallb (fun c => negb (is_lt c)) l = true ->
  forallb (fun c => negb (N.eqb c LF)) l = true.
Proof.
  intros H. apply forallb_forall. intros x Hx.
  rewrite forallb_forall in H. specialize (H x Hx).
  apply negb_true_iff in H. apply negb_true_iff. now apply not_lt_not_LF.
Qed.

Lemma removeAll_length (here : bool -> str -> option nat) (s : str) :
  forall b k, length (removeAll here b k s) <= length s.
Proof.
  induction s as [|c s IH]; intros b k; cbn [removeAll length]; [lia|].
  destruct k as [|k].
  - destruct (here b (c :: s)) as [[|n]|]; cbn [length];
      try (specialize (IH (is_lt c) 0); lia).
    specialize (IH (is_lt c) n); lia.
  - specialize (IH (is_lt c) k); lia.
Qed.

Lemma IMPORT_REGEX_pos (b : bool) (s : str) (n : nat) :
  IMPORT_REGEX b s = Some n -> exists m, n = S m.
Proof.
  unfold IMPORT_REGEX. destruct (b && startsWith s (js "@import"));
    [|discriminate].
  destruct (span is_ws (skipn 7 s)) as [ws r].
  destruct ws; [discriminate|].
  destruct (import_tail r); [|discriminate].
  cbn. intros [= <-]. eauto.
Qed.

Lemma removeAll_matchless (s : str) : forall b,
  matchless b s = true -> removeAll IMPORT_REGEX b 0 s = s.
Proof.
  induction s as [|c s IH]; intros b; [reflexivity|].
  cbn [matchless removeAll].
  destruct (IMPORT_REGEX b (c :: s)); [discriminate|].
  intros H. now rewrite IH.
Qed.

Lemma matchless_removeAll (s : str) : forall b,
  removeAll IMPORT_REGEX b 0 s = s -> matchless b s = true.
Proof.
  induction s as [|c s IH]; intros b; [reflexivity|].
  cbn [matchless removeAll].
  destruct (IMPORT_REGEX b (c :: s)) as [n|] eqn:E.
  - apply IMPORT_REGEX_pos in E as [m ->]. intros H.
    pose proof (removeAll_length IMPORT_REGEX s (is_lt c) m) as Hl.
    rewrite H in Hl. cbn [length] in Hl. lia.
  - intros [= H]. now apply IH.
Qed.

Lemma no_import_match_matchless (s : str) :
  no_import_match s = true <-> matchless true s = true.
Proof.
  unfold no_import_match. split.
  - intros H. apply str_eqb_eq in H. now apply matchless_removeAll.
  - intros H. rewrite removeAll_matchless by assumption. apply str_eqb_refl.
Qed.

Lemma import_tail_before_LF (r y : str) :
  import_tail (r ++ LF :: y) = import_tail r.
Proof.
  induction r as [|c r IH]; [reflexivity|].
  cbn [app import_tail]. rewrite IH.
  replace (at_eol (r ++ LF :: y)) with (at_eol r); [reflexivity|].
  now destruct r.
Qed.

Lemma span_app_all (p : char -> bool) (a b : str) :
  forallb p a = true ->
  span p (a ++ b) = (a ++ fst (span p b), snd (span p b)).
Proof.
  induction a as [|c a IH]; cbn [forallb app].
  - intros _. now destruct (span p b).
  - intros H. apply andb_true_iff in H as [Hc Ha].
    cbn [span]. rewrite Hc, IH by assumption. reflexivity.
Qed.

Lemma not_LF_import : ~ In LF (js "@import").
Proof. vm_compute. intuition discriminate. Qed.

(** A match that starts in a text that ends with a closing brace lies in
    that text, whatever follows the line break after it. *)
Lemma IMPORT_REGEX_before_LF (b : bool) (s y : str) :
  (exists s', s = s' ++ [ch "}"]) ->
  IMPORT_REGEX b (s ++ LF :: y) = IMPORT_REGEX b s.
Proof.
  intros [s' Es]. unfold IMPORT_REGEX.
  rewrite startsWith_app_LF by exact not_LF_import.
  destruct (startsWith s (js "@import")) eqn:E;
    [|now rewrite !andb_false_r].
  destruct b; [|reflexivity]. cbn [andb].
  apply startsWith_prefix in E as [t Et].
  rewrite Et, <- app_assoc.
  change (skipn 7 (js "@import" ++ t ++ LF :: y)) with (t ++ LF :: y).
  change (skipn 7 (js "@import" ++ t)) with t.
  destruct (span is_ws t) as [ws r] eqn:Esp.
  apply span_eq in Esp as (Etr & Hws & Hr).
  assert (Hne : r <> []).
  { intros ->. rewrite app_nil_r in Etr. subst t.
    rewrite Es in Et.
    destruct (exists_last (l := ws)) as (ws' & d & Ews).
    - intros ->. rewrite app_nil_r in Et.
      apply (f_equal (@rev _)) in Et. rewrite rev_app_distr in Et.
      discriminate.
    - rewrite Ews, app_assoc in Et. apply app_inj_tail in Et as [_ Ed].
      rewrite Ews, forallb_app in Hws. apply andb_true_iff in Hws as [_ Hd].
      rewrite <- Ed in Hd. discriminate. }
  rewrite Etr, <- app_assoc.
  rewrite (span_app_stop is_ws ws (r ++ LF :: y)); [|assumption|].
  - now rewrite import_tail_before_LF.
  - destruct r; [congruence | exact Hr].
Qed.

(** At the end of the input a line break changes no match. *)
Lemma IMPORT_REGEX_last_LF (b : bool) (s : str) :
  IMPORT_REGEX b (s ++ [LF]) = IMPORT_REGEX b s.
Proof.
  unfold IMPORT_REGEX.
  rewrite startsWith_app_LF by exact not_LF_import.
  destruct (startsWith s (js "@import")) eqn:E;
    [|now rewrite !andb_false_r].
  destruct b; [|reflexivity]. cbn [andb].
  apply startsWith_prefix in E as [t Et].
  rewrite Et, <- app_assoc.
  change (skipn 7 (js "@import" ++ t ++ [LF])) with (t ++ [LF]).
  change (skipn 7 (js "@import" ++ t)) with t.
  destruct (span is_ws t) as [ws r] eqn:Esp.
  apply span_eq in Esp as (Etr & Hws & Hr).
  destruct r as [|c r].
  - rewrite app_nil_r in Etr. subst t.
    rewrite span_app_all by assumption. cbn [span is_ws fst snd].
    change (is_ws LF) with true. cbn [fst snd import_tail].
    destruct (ws ++ [LF]) eqn:E1, ws; reflexivity.
  - rewrite Etr, <- app_assoc.
    rewrite (span_app_stop is_ws ws ((c :: r) ++ [LF])); [|assumption|exact Hr].
    now rewrite import_tail_before_LF.
Qed.

Lemma IMPORT_REGEX_at_LF (b : bool) (y : str) : IMPORT_REGEX b (LF :: y) = None.
Proof. unfold IMPORT_REGEX. now rewrite andb_false_r. Qed.

Lemma matchless_LF (b : bool) (y : str) :
  matchless b (LF :: y) = matchless true y.
Proof. cbn [matchless]. now rewrite IMPORT_REGEX_at_LF. Qed.

Lemma matchless_closed_app (a' y : str) : forall b,
  matchless b (a' ++ [ch "}"]) = true -> matchless true y = true ->
  matchless b ((a' ++ [ch "}"]) ++ LF :: y) = true.
Proof.
  induction a' as [|c a IH]; intros b Ha Hy.
  - cbn [app matchless]. rewrite IMPORT_REGEX_at_LF.
    unfold IMPORT_REGEX. now rewrite andb_false_r.
  - cbn [app matchless] in *.
    change (c :: (a ++ [ch "}"]) ++ LF :: y)
      with (((c :: a) ++ [ch "}"]) ++ LF :: y).
    rewrite IMPORT_REGEX_before_LF by eauto.
    cbn [app]. destruct (IMPORT_REGEX b (c :: a ++ [ch "}"]));
      [discriminate|].
    now apply IH.
Qed.

Lemma matchless_last_LF (s : str) : forall b,
  matchless b s = true -> matchless b (s ++ [LF]) = true.
Proof.
  induction s as [|c s IH]; intros b H.
  - cbn [app matchless]. now rewrite IMPORT_REGEX_at_LF.
  - cbn [app matchless] in *.
    change (c :: s ++ [LF]) with ((c :: s) ++ [LF]).
    rewrite IMPORT_REGEX_last_LF.
    destruct (IMPORT_REGEX b (c :: s)); [discriminate|]. now apply IH.
Qed.

Lemma no_import_line_app (a b : str) :
  no_import_line (a ++ LF :: b) = no_import_line a && no_import_line b.
Proof. unfold no_import_line. now rewrite split_nl_app, forallb_app. Qed.

Lemma no_import_line_LF (b : str) : no_import_line (LF :: b) = no_import_line b.
Proof.
  change (LF :: b) with ([] ++ LF :: b). now rewrite no_import_line_app.
Qed.

(** A text of quiet lines is free of imports. *)
Lemma quiet_import_free (s : str) :
  quiet s = true -> no_import_line s = true /\ matchless true s = true.
Proof.
  intros H. split.
  - unfold quiet in H. unfold no_import_line.
    apply forallb_forall. intros l Hl. rewrite forallb_forall in H.
    specialize (H l Hl). apply quiet_line_shape in H as (_ & H & _).
    now rewrite H.
  - apply matchless_removeAll. now apply removeAll_quiet.
Qed.

Lemma import_free_facts (s : str) :
  import_free s = true -> no_import_line s = true /\ matchless true s = true.
Proof.
  unfold import_free. intros H. apply andb_true_iff in H as [H1 H2].
  split; [assumption | now apply no_import_match_matchless].
Qed.

Lemma whole_import_shape (l : str) :
  whole_import l = true ->
  exists w ws r,
    l = js "@import" ++ (w :: ws) ++ r
    /\ forallb is_ws (w :: ws) = true
    /\ match r with [] => True | c :: _ => is_ws c = false end
    /\ import_tail r = Some (length r).
Proof.
  unfold whole_import, IMPORT_REGEX. cbn [andb].
  destruct (startsWith l (js "@import")) eqn:Es; [|discriminate].
  apply startsWith_prefix in Es as [t ->].
  change (skipn 7 (js "@import" ++ t)) with t.
  destruct (span is_ws t) as [ws r] eqn:Esp.
  apply span_eq in Esp as (-> & Hws & Hr).
  destruct ws as [|w ws]; [discriminate|].
  destruct (import_tail r) as [m|] eqn:Em; [|discriminate].
  cbn [option_map]. intros H. apply Nat.eqb_eq in H.
  rewrite !length_app in H.
  assert (m = length r) by (change (length (js "@import")) with 7 in H; lia).
  subst m. now exists w, ws, r.
Qed.

(** In the output the pattern takes an import line as a whole. *)
Lemma IMPORT_REGEX_whole (l x : str) :
  whole_import l = true ->
  IMPORT_REGEX true (l ++ LF :: x) = Some (length l).
Proof.
  intros H. apply whole_import_shape in H
    as (w & ws & r & -> & Hws & Hr & Htail).
  unfold IMPORT_REGEX. rewrite <- !app_assoc, startsWith_app. cbn [andb].
  change (skipn 7 (js "@import" ++ (w :: ws) ++ r ++ LF :: x))
    with ((w :: ws) ++ r ++ LF :: x).
  assert (Hr' : r <> []) by (intros ->; discriminate).
  rewrite (span_app_stop is_ws (w :: ws)); [|assumption|].
  - rewrite import_tail_before_LF, Htail.
    cbn [option_map]. f_equal. rewrite !length_app.
    change (length (js "@import")) with 7. lia.
  - destruct r; [congruence | exact Hr].
Qed.

Lemma whole_import_trim (l : str) :
  whole_import l = true ->
  trim l = l /\ startsWith l (js "@import") = true.
Proof.
  intros H. apply whole_import_shape in H
    as (w & ws & r & -> & Hws & Hr & Htail).
  split; [|apply startsWith_app].
  apply import_tail_last in Htail as (Hn & Hlast).
  destruct (exists_last (l := r)) as (r' & d & ->).
  { intros ->. cbn in Hn. lia. }
  rewrite length_app in Hlast. cbn [length] in Hlast.
  replace (length r' + 1 - 1) with (length r') in Hlast by lia.
  rewrite nth_error_app2, Nat.sub_diag in Hlast by lia.
  cbn in Hlast. inversion Hlast; subst d.
  assert (E : js "@import" ++ (w :: ws) ++ r' ++ [ch ";"]
              = ch "@" :: (js "import" ++ (w :: ws) ++ r') ++ [ch ";"]).
  { change (js "@import") with (ch "@" :: js "import").
    rewrite <- !app_assoc. reflexivity. }
  rewrite E. now apply trim_fixed.
Qed.

(** The replacement drops an import line of the output and keeps the line
    break after it. *)
Lemma removeAll_import_line (l x : str) :
  whole_import l = true ->
  removeAll IMPORT_REGEX true 0 (l ++ LF :: x)
  = LF :: removeAll IMPORT_REGEX true 0 x.
Proof.
  intros H. pose proof (IMPORT_REGEX_whole l x H) as Hm.
  pose proof (whole_import_shape l H) as (w & ws & r & El & _).
  rewrite removeAll_match; [|subst l; discriminate|assumption].
  cbn [removeAll]. now rewrite IMPORT_REGEX_at_LF.
Qed.

(** In the output the replacement leaves one line break for each import
    line and keeps what follows. *)
Lemma removeAll_imports (imports : list str) (q : str) :
  imports <> [] ->
  forallb whole_import imports = true ->
  matchless true q = true ->
  removeAll IMPORT_REGEX true 0 (join [LF] imports ++ LF :: q)
  = repeat LF (length imports) ++ q.
Proof.
  intros Hne Hall Hq. induction imports as [|l ls IH]; [congruence|].
  cbn [forallb] in Hall. apply andb_true_iff in Hall as [Hl Hls].
  destruct ls as [|l2 ls].
  - cbn [join length repeat app].
    rewrite removeAll_import_line by assumption.
    now rewrite removeAll_matchless.
  - rewrite join_cons2. cbn [app]. rewrite <- app_assoc. cbn [app].
    rewrite removeAll_import_line by assumption.
    rewrite IH by (assumption || discriminate). reflexivity.
Qed.

(** The lines of the output that are collected as imports are the import
    lines it was assembled from. *)
Lemma found_imports (imports : list str) (q : str) :
  imports <> [] ->
  forallb whole_import imports = true ->
  Forall (fun l => forallb (fun c => negb (N.eqb c LF)) l = true) imports ->
  no_import_line q = true ->
  filter (fun l => startsWith l (js "@import"))
    (map trim (split_nl (join [LF] imports ++ LF :: q)))
  = imports.
Proof.
  intros Hne Hall Hlines Hq. rewrite split_nl_app, map_app, filter_app.
  rewrite split_nl_join by assumption.
  replace (filter _ (map trim (split_nl q))) with (@nil str).
  - rewrite app_nil_r. clear Hne Hlines.
    induction imports as [|l ls IH]; [reflexivity|].
    cbn [forallb] in Hall. apply andb_true_iff in Hall as [Hl Hls].
    apply whole_import_trim in Hl as [Ht Hs].
    cbn [map filter]. rewrite Ht, Hs. f_equal. now apply IH.
  - symmetry. unfold no_import_line in Hq.
    induction (split_nl q) as [|l ls IH]; [reflexivity|].
    cbn [forallb] in Hq. apply andb_true_iff in Hq as [Hl Hls].
    apply negb_true_iff in Hl.
    cbn [map filter]. rewrite Hl. now apply IH.
Qed.

Lemma split_nl_no_LF (s l : str) :
  In l (split_nl s) -> forallb (fun c => negb (N.eqb c LF)) l = true.
Proof.
  revert l; induction s as [|c s IH]; intros l.
  - cbn. intros [<-|[]]. reflexivity.
  - cbn [split_nl]. destruct (split_nl_cons s) as (l0 & ls & E).
    rewrite E in *. destruct (N.eqb c LF) eqn:Ec.
    + intros [<-|H]; [reflexivity | now apply IH].
    + intros [<-|H].
      * cbn [forallb]. rewrite Ec. cbn [negb andb]. apply IH. now left.
      * apply IH. now right.
Qed.

(** No import line of a file holds a line break. *)
Lemma importLines_one_line (cssContent : str) :
  Forall (fun l => forallb (fun c => negb (N.eqb c LF)) l = true)
    (importLines cssContent).
Proof.
  unfold importLines. rewrite fold_import_lines, required_appended.
  cbn [app]. apply Forall_app. split.
  - apply Forall_forall. intros l Hl. apply filter_In in Hl as [Hl _].
    apply in_map_iff in Hl as (l0 & <- & Hl0).
    apply forallb_trim. now apply (split_nl_no_LF cssContent).
  - apply Forall_forall. intros l Hl. apply filter_In in Hl as [Hl _].
    destruct Hl as [<-|[<-|[]]]; reflexivity.
Qed.

Lemma importLines_required (cssContent : str) (req : str) :
  In req REQUIRED_IMPORTS -> In req (importLines cssContent).
Proof.
  intros Hreq. unfold importLines. rewrite fold_import_lines, required_appended.
  cbn [app]. set (found := filter _ _).
  destruct (includes found req) eqn:E.
  - apply in_or_app; left. now apply includes_In.
  - apply in_or_app; right. apply filter_In. split; [assumption|].
    now rewrite E.
Qed.

(** ** Closed blocks *)

Lemma scan_braces_prefix (x rest : str) : forall n d i,
  n <= length x ->
  (forall m, m < n -> (0 < depth_from d (firstn m x))%Z) ->
  depth_from d (firstn n x) = 0%Z ->
  scan_braces (firstn n x ++ rest) d i = i + n.
Proof.
  induction x as [|c x IH]; intros n d i Hn Hpos Hzero.
  - cbn in Hn. replace n with 0 in * by lia. cbn in Hzero. subst d.
    cbn [firstn app]. destruct rest; cbn; lia.
  - destruct n as [|n].
    + cbn in Hzero. subst d. cbn [firstn app].
      destruct rest; cbn; lia.
    + pose proof (Hpos 0 ltac:(lia)) as H0. cbn in H0.
      cbn [firstn app scan_braces].
      replace (0 <? d)%Z with true by (symmetry; now apply Z.ltb_lt).
      rewrite IH.
      * lia.
      * cbn in Hn. lia.
      * intros m Hm. exact (Hpos (S m) ltac:(lia)).
      * exact Hzero.
Qed.

Lemma find_char_app_none (c : char) (a t : str) :
  find_char c a = None ->
  find_char c (a ++ t) = option_map (Nat.add (length a)) (find_char c t).
Proof.
  induction a as [|d a IH]; cbn [find_char app length].
  - intros _. now destruct (find_char c t).
  - destruct (N.eqb d c); [discriminate|].
    destruct (find_char c a); [discriminate|]. intros _.
    rewrite IH by reflexivity. now destruct (find_char c t).
Qed.

Lemma find_char_split (c : char) (t : str) (j : nat) :
  find_char c t = Some j ->
  exists a b, t = a ++ c :: b /\ find_char c a = None /\ length a = j.
Proof.
  revert j; induction t as [|d t IH]; intros j; cbn [find_char];
    [discriminate|].
  destruct (N.eqb d c) eqn:E.
  - intros [= <-]. apply N.eqb_eq in E; subst. now exists [], t.
  - destruct (find_char c t) as [k|]; [|discriminate].
    cbn. intros [= <-]. destruct (IH k eq_refl) as (a & b & -> & Ha & Hl).
    exists (d :: a), b. cbn [app find_char length]. rewrite E, Ha, Hl.
    auto.
Qed.

(** ** The Block Extractor, by the text it returns *)

Lemma indexOfFrom_char (text : str) (c : char) (startIdx : nat) :
  startIdx <= length text ->
  indexOfFrom text [c] startIdx
  = option_map (Nat.add startIdx) (find_char c (skipn startIdx text)).
Proof.
  intros H. unfold indexOfFrom. rewrite Nat.min_l by assumption.
  now rewrite indexOf_at_shift, indexOf_single.
Qed.

Lemma depth_closes (b : str) (c : char) :
  (0 < depth b)%Z -> depth (b ++ [c]) = 0%Z -> c = ch "}".
Proof.
  unfold depth. intros Hb H0. rewrite depth_from_app in H0. cbn in H0.
  destruct (N.eqb c (ch "{")); [lia|].
  destruct (N.eqb c (ch "}")) eqn:E; [now apply N.eqb_eq in E | lia].
Qed.

(** C6: [extractBlock] is empty when the keyword does not occur in the
    text, and when no opening brace follows the first occurrence of the
    keyword (its own characters included).  Otherwise it is the text from
    that first occurrence through the first opening brace and a body after
    it: the depth counter, 1 after the opening brace, is positive after
    every shorter part of the body, and after the body it is back to 0,
    the body ending with a closing brace, or it is still positive and the
    body runs to the end of the input.  The function is total: there is no
    input on which it fails. *)
Theorem extractBlock_brace_counting (text keyword : str) :
  ((forall pre post, text <> pre ++ keyword ++ post)
   /\ extractBlock text keyword = [])
  \/ exists pre post,
       text = pre ++ keyword ++ post
       /\ (forall pre' post',
             text = pre' ++ keyword ++ post' -> length pre <= length pre')
       /\ ((~ In (ch "{") (keyword ++ post)
            /\ extractBlock text keyword = [])
           \/ exists gap body rest,
                keyword ++ post = gap ++ ch "{" :: body ++ rest
                /\ ~ In (ch "{") gap
                /\ extractBlock text keyword = gap ++ ch "{" :: body
                /\ (forall t u, body = t ++ u -> u <> [] -> (0 < depth t)%Z)
                /\ ((depth body = 0%Z /\ exists b, body = b ++ [ch "}"])
                    \/ (rest = [] /\ (0 < depth body)%Z))).
Proof.
  unfold extractBlock.
  destruct (indexOf text keyword) as [startIdx|] eqn:Ek.
  2:{ left. split; [|reflexivity]. intros pre post E.
      pose proof (indexOf_None _ _ Ek (length pre)) as H.
      rewrite E, skipn_app_exact, startsWith_app in H. discriminate. }
  right. apply indexOf_Some in Ek as (Hlen & Hstart & Hfirst).
  apply startsWith_prefix in Hstart as [post Hpost].
  exists (firstn startIdx text), post.
  split; [now rewrite <- Hpost, firstn_skipn|]. split.
  { intros pre' post' E. rewrite length_firstn, Nat.min_l by assumption.
    destruct (le_lt_dec startIdx (length pre')) as [|Hlt]; [assumption|].
    pose proof (Hfirst _ Hlt) as H.
    rewrite E, skipn_app_exact, startsWith_app in H. discriminate. }
  change (js "{") with [ch "{"].
  rewrite indexOfFrom_char, Hpost by assumption.
  destruct (find_char (ch "{") (keyword ++ post)) as [j|] eqn:Eo;
    cbn [option_map].
  2:{ left. split; [now apply find_char_None | reflexivity]. }
  right. apply find_char_split in Eo as (gap & tail & Et & Hgap & Hj).
  assert (Hskip : skipn (startIdx + j + 1) text = tail).
  { rewrite <- Nat.add_assoc, Nat.add_comm, <- skipn_skipn, Hpost, Et.
    replace (j + 1) with (length (gap ++ [ch "{"]))
      by (rewrite length_app; cbn; lia).
    change (gap ++ ch "{" :: tail) with (gap ++ [ch "{"] ++ tail).
    rewrite app_assoc. apply skipn_app_exact. }
  rewrite Hskip.
  destruct (scan_braces_spec tail 1 (startIdx + j + 1))
    as (n & Hn & Hl & Hpos & Hend); [lia|].
  exists gap, (firstn n tail), (skipn n tail).
  split; [now rewrite firstn_skipn|].
  split; [now apply find_char_None|]. split.
  { rewrite Hn. unfold slice. rewrite Hpost, Et.
    replace (startIdx + j + 1 + n - startIdx) with (length gap + S n) by lia.
    rewrite firstn_app_2. reflexivity. }
  split.
  { intros t u E Hu. unfold depth.
    assert (Ht : t = firstn (length t) tail).
    { rewrite <- (firstn_skipn n tail), E, <- app_assoc.
      now rewrite firstn_app_exact. }
    rewrite Ht. apply Hpos.
    apply (f_equal (@length _)) in E.
    rewrite length_app, length_firstn in E.
    destruct u; [contradiction|]. cbn in E. lia. }
  unfold depth. destruct Hend as [H0 | [Hlenn Hp]].
  - left. split; [assumption|].
    destruct n as [|m]; [cbn in H0; discriminate|].
    destruct (nth_error tail m) as [c|] eqn:Ec.
    2:{ apply nth_error_None in Ec. lia. }
    rewrite (firstn_snoc _ _ _ Ec) in H0 |- *.
    exists (firstn m tail). f_equal. f_equal.
    apply (depth_closes (firstn m tail)); [apply Hpos; lia | exact H0].
  - right. split; [|assumption]. subst n. apply skipn_all.
Qed.

(** A closed block: the keyword, some text without a brace, an opening
    brace, and an inside at whose end, and not before, the depth is 0. *)
Lemma closed_section_shape (tpl keyword : str) :
  closed_section tpl keyword = true ->
  find_char (ch "{") keyword = None ->
  exists mid inner,
    extractBlock tpl keyword = keyword ++ mid ++ ch "{" :: inner
    /\ find_char (ch "{") mid = None
    /\ (forall m, m < length inner ->
                  (0 < depth_from 1 (firstn m inner))%Z)
    /\ depth_from 1 inner = 0%Z.
Proof.
  unfold closed_section, extractBlock. intros Hc Hkw.
  destruct (indexOf tpl keyword) as [s0|] eqn:Ek; [|discriminate].
  apply indexOf_Some in Ek as (Hlen & Hstart & _).
  apply startsWith_prefix in Hstart as [t Ht].
  destruct (indexOfFrom tpl (js "{") s0) as [o|] eqn:Eo; [|discriminate].
  unfold indexOfFrom in Eo. rewrite Nat.min_l in Eo by assumption.
  rewrite indexOf_at_shift in Eo. change (js "{") with [ch "{"] in Eo.
  rewrite indexOf_single, Ht, (find_char_app_none _ _ _ Hkw) in Eo.
  destruct (find_char (ch "{") t) as [j|] eqn:Ej; [|discriminate].
  cbn in Eo. inversion Eo; subst o. clear Eo.
  apply find_char_split in Ej as (mid & t2 & -> & Hmid & <-).
  assert (Hskip : skipn (s0 + (length keyword + length mid) + 1) tpl = t2).
  { replace (s0 + (length keyword + length mid) + 1)
      with (length (keyword ++ mid ++ [ch "{"]) + s0)
      by (rewrite !length_app; cbn; lia).
    rewrite <- skipn_skipn, Ht.
    replace (keyword ++ mid ++ ch "{" :: t2)
      with ((keyword ++ mid ++ [ch "{"]) ++ t2)
      by (rewrite <- !app_assoc; reflexivity).
    apply skipn_app_exact. }
  rewrite Hskip in *.
  destruct (scan_braces_spec t2 1
              (s0 + (length keyword + length mid) + 1) ltac:(lia))
    as (n & Hn & Hl & Hpos & _).
  rewrite Hn in *. apply Z.eqb_eq in Hc. unfold depth, slice in Hc.
  rewrite Hskip in Hc.
  replace (s0 + (length keyword + length mid) + 1 + n
           - (s0 + (length keyword + length mid) + 1)) with n in Hc by lia.
  exists mid, (firstn n t2). split; [|split; [assumption|split]].
  - unfold slice. rewrite Ht.
    replace (s0 + (length keyword + length mid) + 1 + n - s0)
      with (length (keyword ++ mid ++ [ch "{"]) + n)
      by (rewrite !length_app; cbn; lia).
    replace (keyword ++ mid ++ ch "{" :: t2)
      with ((keyword ++ mid ++ [ch "{"]) ++ t2)
      by (rewrite <- !app_assoc; reflexivity).
    rewrite firstn_app_2, <- !app_assoc. reflexivity.
  - intros m Hm. rewrite length_firstn in Hm.
    rewrite firstn_firstn. replace (Nat.min m n) with m by lia.
    apply Hpos. lia.
  - exact Hc.
Qed.

(** A closed block is extracted as a whole from any text in which the
    keyword first occurs where the block starts. *)
Lemma extractBlock_in_context (keyword mid inner pre rest : str) :
  find_char (ch "{") (keyword ++ mid) = None ->
  (forall m, m < length inner -> (0 < depth_from 1 (firstn m inner))%Z) ->
  depth_from 1 inner = 0%Z ->
  let blk := keyword ++ mid ++ ch "{" :: inner in
  indexOf (pre ++ blk ++ rest) keyword = Some (length pre) ->
  extractBlock (pre ++ blk ++ rest) keyword = blk.
Proof.
  intros Hno Hpos Hzero blk Hidx. unfold extractBlock. rewrite Hidx.
  unfold indexOfFrom. rewrite Nat.min_l by (rewrite length_app; lia).
  rewrite skipn_app_exact, indexOf_at_shift.
  change (js "{") with [ch "{"]. rewrite indexOf_single.
  assert (Eb : blk ++ rest = (keyword ++ mid) ++ ch "{" :: inner ++ rest).
  { unfold blk. rewrite <- !app_assoc. cbn [app]. reflexivity. }
  rewrite Eb, (find_char_app _ _ _ Hno). cbn [option_map].
  set (o := length pre + length (keyword ++ mid)).
  assert (Hskip : skipn (o + 1) (pre ++ (keyword ++ mid) ++ ch "{" :: inner ++ rest)
                  = inner ++ rest).
  { replace (pre ++ (keyword ++ mid) ++ ch "{" :: inner ++ rest)
      with ((pre ++ (keyword ++ mid) ++ [ch "{"]) ++ inner ++ rest)
      by (rewrite <- !app_assoc; reflexivity).
    replace (o + 1) with (length (pre ++ (keyword ++ mid) ++ [ch "{"]))
      by (subst o; rewrite !length_app; cbn [length]; lia).
    apply skipn_app_exact. }
  rewrite Hskip.
  pose proof (scan_braces_prefix inner rest (length inner) 1 (o + 1)
                (Nat.le_refl _) Hpos) as Hs.
  rewrite firstn_all in Hs. rewrite (Hs Hzero).
  unfold slice. rewrite skipn_app_exact, <- Eb.
  replace (o + 1 + length inner - length pre) with (length blk).
  - apply firstn_app_exact.
  - subst o blk. rewrite !length_app. cbn [length]. lia.
Qed.

Lemma depth_zero_last (inner : str) :
  (forall m, m < length inner -> (0 < depth_from 1 (firstn m inner))%Z) ->
  depth_from 1 inner = 0%Z ->
  exists inner', inner = inner' ++ [ch "}"].
Proof.
  intros Hpos Hzero. destruct (exists_last (l := inner)) as (a & c & ->).
  { intros ->. discriminate. }
  exists a. f_equal. f_equal.
  specialize (Hpos (length a)). rewrite length_app in Hpos.
  rewrite firstn_app_exact in Hpos. specialize (Hpos ltac:(cbn; lia)).
  rewrite depth_from_app in Hzero. cbn [depth_from] in Hzero.
  destruct (N.eqb c (ch "{")); [lia|].
  destruct (N.eqb c (ch "}")) eqn:E; [now apply N.eqb_eq in E | lia].
Qed.

(** ** The extracted maps *)

Lemma VAR_REGEX_regular (line m1 m2 : str) :
  VAR_REGEX line = Some (m1, m2) ->
  valid_key (js "--" ++ m1) = true
  /\ forallb (fun c => negb (is_lt c)) m2 = true.
Proof.
  unfold VAR_REGEX.
  destruct (startsWith line (js "--")); [|discriminate].
  destruct (span is_name (skipn 2 line)) as [name r] eqn:Es.
  apply span_eq in Es as (_ & Hname & _).
  destruct name as [|n name]; [discriminate|].
  destruct r as [|x r']; [discriminate|].
  destruct (N.eqb x (ch ":")); [|discriminate].
  destruct (rev r') as [|last br]; [discriminate|].
  destruct (N.eqb last (ch ";")); [|discriminate].
  destruct (span is_ws (rev br)) as [ws val].
  assert (Hk : valid_key (js "--" ++ n :: name) = true).
  { unfold valid_key. rewrite startsWith_app.
    change (skipn 2 (js "--" ++ n :: name)) with (n :: name).
    exact Hname. }
  destruct val as [|v val].
  - destruct (rev ws) as [|w ws']; [discriminate|].
    destruct (is_lt w) eqn:Ew; [discriminate|].
    intros [= <- <-]. split; [exact Hk|]. cbn. now rewrite Ew.
  - destruct (forallb (fun x0 => negb (is_lt x0)) (v :: val)) eqn:Ev;
      [|discriminate].
    intros [= <- <-]. now split.
Qed.

Lemma forallb_set (P : str * str -> bool) (k v : str) (vars : Record) :
  forallb P vars = true -> P (k, v) = true ->
  forallb P (set k v vars) = true.
Proof.
  intros Hvars Hkv. induction vars as [|[k' v'] vars IH];
    cbn [set forallb] in *.
  - now rewrite Hkv.
  - apply andb_true_iff in Hvars as [H1 H2].
    destruct (str_eqb k k') eqn:E; cbn [forallb].
    + apply str_eqb_eq in E; subst k'. now rewrite Hkv, H2.
    + now rewrite H1, IH.
Qed.

Lemma keys_set (k v : str) (vars : Record) :
  keys (set k v vars)
  = if includes (keys vars) k then keys vars else keys vars ++ [k].
Proof.
  induction vars as [|[k' v'] vars IH]; [reflexivity|].
  cbn [set keys map fst]. unfold includes. cbn [existsb].
  destruct (str_eqb k k'); [reflexivity|]. cbn [keys map fst orb].
  fold (keys (set k v vars)). rewrite IH. unfold includes, keys.
  now destruct (existsb (str_eqb k) (map fst vars)).
Qed.

Lemma NoDup_keys_set (k v : str) (vars : Record) :
  NoDup (keys vars) -> NoDup (keys (set k v vars)).
Proof.
  intros H. rewrite keys_set. destruct (includes (keys vars) k) eqn:E;
    [assumption|].
  apply includes_not_In in E. apply NoDup_app; [assumption | | ].
  - repeat constructor. intros [].
  - intros a Ha [<-|[]]. contradiction.
Qed.

Lemma extractVars_step_regular (vars : Record) (line : str) :
  forallb regular_entry vars = true ->
  forallb regular_entry (extractVars_step vars line) = true.
Proof.
  intros H. unfold extractVars_step.
  destruct (VAR_REGEX line) as [[m1 m2]|] eqn:E; [|assumption].
  apply VAR_REGEX_regular in E as [Hk Hlt].
  apply forallb_set; [assumption|]. unfold regular_entry; cbn [fst snd].
  rewrite Hk, trim_idem, str_eqb_refl. cbn [andb].
  now apply forallb_trim.
Qed.

Lemma extractVars_step_NoDup (vars : Record) (line : str) :
  NoDup (keys vars) -> NoDup (keys (extractVars_step vars line)).
Proof.
  intros H. unfold extractVars_step.
  destruct (VAR_REGEX line) as [[m1 m2]|]; [|assumption].
  now apply NoDup_keys_set.
Qed.

(** Every extracted map has regular entries and no key twice. *)
Lemma extractVars_regular (block : str) :
  forallb regular_entry (extractVars block) = true
  /\ NoDup (keys (extractVars block)).
Proof.
  unfold extractVars.
  assert (H : forall lines acc,
             forallb regular_entry acc = true -> NoDup (keys acc) ->
             forallb regular_entry (fold_left extractVars_step lines acc) = true
             /\ NoDup (keys (fold_left extractVars_step lines acc))).
  { induction lines as [|l lines IH]; intros acc H1 H2; [now split|].
    cbn [fold_left]. apply IH;
      [now apply extractVars_step_regular | now apply extractVars_step_NoDup]. }
  apply H; [reflexivity | constructor].
Qed.

Lemma forallb_spread (P : str * str -> bool) (src : Record) : forall acc,
  forallb P acc = true -> forallb P src = true ->
  forallb P (spread src acc) = true.
Proof.
  induction src as [|[k v] src IH]; intros acc Hacc Hsrc; [assumption|].
  cbn [forallb] in Hsrc. apply andb_true_iff in Hsrc as [Hkv Hsrc].
  change (spread ((k, v) :: src) acc) with (spread src (set k v acc)).
  apply IH; [now apply forallb_set | assumption].
Qed.

Lemma spread2_regular (t u : Record) :
  forallb regular_entry t = true -> forallb regular_entry u = true ->
  forallb regular_entry (spread2 t u) = true.
Proof.
  intros Ht Hu. unfold spread2.
  apply forallb_spread; [|assumption]. now apply forallb_spread.
Qed.

(** ** The characters of the values *)

Section Characters.

Variable p : char -> bool.

Lemma forallb_removeAll (here : bool -> str -> option nat) (s : str) :
  forall b k,
  forallb p s = true -> forallb p (removeAll here b k s) = true.
Proof.
  induction s as [|c s IH]; intros b k; [reflexivity|].
  cbn [forallb removeAll]. intros H. apply andb_true_iff in H as [Hc Hs].
  destruct k as [|k]; [|now apply IH].
  destruct (here b (c :: s)) as [[|n]|]; cbn [forallb];
    rewrite ?Hc; cbn [andb]; now apply IH.
Qed.

Lemma forallb_split_nl (s l : str) :
  forallb p s = true -> In l (split_nl s) -> forallb p l = true.
Proof.
  revert l; induction s as [|c s IH]; intros l Hs.
  - cbn. intros [<-|[]]. reflexivity.
  - cbn [forallb] in Hs. apply andb_true_iff in Hs as [Hc Hs].
    cbn [split_nl]. destruct (split_nl_cons s) as (l0 & ls & E).
    rewrite E in *. destruct (N.eqb c LF).
    + intros [<-|H]; [reflexivity | now apply IH].
    + intros [<-|H].
      * cbn [forallb]. rewrite Hc. cbn [andb]. apply IH; [assumption|].
        now left.
      * apply IH; [assumption | now right].
Qed.

Lemma forallb_skipn (n : nat) (s : str) :
  forallb p s = true -> forallb p (skipn n s) = true.
Proof.
  revert s; induction n as [|n IH]; intros s H; [assumption|].
  destruct s as [|c s]; [reflexivity|]. cbn [forallb] in H.
  apply andb_true_iff in H as [_ H]. now apply IH.
Qed.

(** The value that the declaration pattern reads is made of characters of
    the line. *)
Lemma VAR_REGEX_value (line m1 m2 : str) :
  forallb p line = true -> VAR_REGEX line = Some (m1, m2) ->
  forallb p m2 = true.
Proof.
  intros Hline. unfold VAR_REGEX.
  destruct (startsWith line (js "--")); [|discriminate].
  pose proof (forallb_skipn 2 line Hline) as H2.
  destruct (span is_name (skipn 2 line)) as [name r] eqn:Es.
  apply span_eq in Es as (E & _ & _). rewrite E, forallb_app in H2.
  apply andb_true_iff in H2 as [_ Hr].
  destruct name as [|n name]; [discriminate|].
  destruct r as [|x r']; [discriminate|].
  destruct (N.eqb x (ch ":")); [|discriminate].
  cbn [forallb] in Hr. apply andb_true_iff in Hr as [_ Hr'].
  destruct (rev r') as [|last br] eqn:Er; [discriminate|].
  destruct (N.eqb last (ch ";")); [|discriminate].
  assert (Hbr : forallb p (rev br) = true).
  { apply forallb_forall. intros y Hy. rewrite forallb_forall in Hr'.
    apply Hr'. apply in_rev. rewrite Er. right. now apply in_rev. }
  destruct (span is_ws (rev br)) as [ws val] eqn:Esp.
  apply span_eq in Esp as (E2 & _ & _). rewrite E2, forallb_app in Hbr.
  apply andb_true_iff in Hbr as [Hws Hval].
  destruct val as [|v val].
  - destruct (rev ws) as [|w ws'] eqn:Ew; [discriminate|].
    destruct (is_lt w); [discriminate|].
    intros [= <- <-]. cbn [forallb]. rewrite andb_true_r.
    rewrite forallb_forall in Hws. apply Hws. apply in_rev.
    rewrite Ew. now left.
  - destruct (forallb (fun x0 => negb (is_lt x0)) (v :: val));
      [|discriminate].
    now intros [= <- <-].
Qed.

Lemma extractVars_step_values (vars : Record) (line : str) :
  forallb p line = true ->
  forallb (fun kv => forallb p (snd kv)) vars = true ->
  forallb (fun kv => forallb p (snd kv)) (extractVars_step vars line) = true.
Proof.
  intros Hline H. unfold extractVars_step.
  destruct (VAR_REGEX line) as [[m1 m2]|] eqn:E; [|assumption].
  apply forallb_set; [assumption|]. cbn [snd].
  apply forallb_trim. exact (VAR_REGEX_value line m1 m2 Hline E).
Qed.

(** The values of an extracted map are made of characters of the
    block. *)
Lemma extractVars_values (block : str) :
  forallb p block = true ->
  forallb (fun kv => forallb p (snd kv)) (extractVars block) = true.
Proof.
  intros Hb. unfold extractVars.
  assert (H : forall lines acc,
             (forall l, In l lines -> forallb p l = true) ->
             forallb (fun kv => forallb p (snd kv)) acc = true ->
             forallb (fun kv => forallb p (snd kv))
               (fold_left extractVars_step lines acc) = true).
  { induction lines as [|l lines IH]; intros acc Hl Hacc; [assumption|].
    cbn [fold_left]. apply IH.
    - intros l' Hl'. apply Hl. now right.
    - apply extractVars_step_values; [|assumption]. apply Hl. now left. }
  apply H; [|reflexivity].
  intros l Hl. apply in_map_iff in Hl as (l0 & <- & Hl0).
  unfold strip_line. apply forallb_removeAll, forallb_trim.
  now apply (forallb_split_nl block).
Qed.

Lemma spread2_values (P : str * str -> bool) (t u : Record) :
  forallb P t = true -> forallb P u = true ->
  forallb P (spread2 t u) = true.
Proof.
  intros Ht Hu. unfold spread2.
  apply forallb_spread; [|assumption]. now apply forallb_spread.
Qed.

End Characters.

Lemma not_close_find (s : str) :
  forallb not_close s = true <-> find_char (ch "}") s = None.
Proof.
  rewrite find_char_None, forallb_forall. unfold not_close. split.
  - intros H Hin. specialize (H _ Hin). now rewrite N.eqb_refl in H.
  - intros H x Hx. apply negb_true_iff, N.eqb_neq. now intros ->.
Qed.

Lemma block_regex_here_no_close (k : selector) (s : str) (n : nat)
    (body : str) :
  block_regex_here k s = Some (n, body) -> forallb not_close body = true.
Proof.
  unfold block_regex_here.
  destruct (startsWith s (selector_text k)); [|discriminate].
  destruct (span is_ws (skipn 5 s)) as [ws r].
  destruct r as [|c b]; [discriminate|].
  destruct (N.eqb c (ch "{")); [|discriminate].
  destruct (find_char (ch "}") b) as [j|] eqn:E; [|discriminate].
  intros [= _ <-].
  apply find_char_split in E as (a & b' & -> & Ha & <-).
  rewrite firstn_app_exact. now apply not_close_find.
Qed.

Lemma block_regex_at_no_close (k : selector) (s : str) :
  forall i i' n body,
  block_regex_at k s i = Some (i', n, body) ->
  forallb not_close body = true.
Proof.
  induction s as [|c s IH]; intros i i' n body; cbn [block_regex_at].
  - destruct (block_regex_here k []) as [[n0 b]|] eqn:E; [|discriminate].
    intros [= _ _ <-]. exact (block_regex_here_no_close k _ _ _ E).
  - destruct (block_regex_here k (c :: s)) as [[n0 b]|] eqn:E.
    + intros [= _ _ <-]. exact (block_regex_here_no_close k _ _ _ E).
    + apply IH.
Qed.

(** Group 1 of a single-block pattern holds no closing brace. *)
Lemma match_group1_no_close (k : selector) (s : str) :
  forallb not_close (match_group1 k s) = true.
Proof.
  unfold match_group1, block_regex_exec.
  destruct (block_regex_at k s 0) as [[[i n] body]|] eqn:E; [|reflexivity].
  exact (block_regex_at_no_close k s 0 i n body E).
Qed.

(** No value of a merged map holds a closing brace. *)
Lemma merged_values_no_close (k : selector) (tpl w : str) :
  forallb (fun kv => forallb not_close (snd kv))
    (spread2 (extractVars (match_group1 k tpl))
       (extractVars (match_group1 k w))) = true.
Proof.
  apply spread2_values; apply extractVars_values, match_group1_no_close.
Qed.

(** ** Merging again *)

Lemma only_user_idem (ks : list str) (u : Record) :
  only_user ks (only_user ks u) = only_user ks u.
Proof.
  unfold only_user. induction u as [|[k v] u IH]; [reflexivity|].
  cbn [filter fst]. destruct (includes ks k) eqn:E; cbn [negb filter fst].
  - exact IH.
  - rewrite E. cbn [negb]. now rewrite IH.
Qed.

Lemma only_user_template (t u : Record) :
  only_user (keys t) (map (user_value u) t) = [].
Proof.
  unfold only_user.
  assert (H : forall ks, (forall k, In k (keys t) -> In k ks) ->
            filter (fun kv => negb (includes ks (fst kv)))
              (map (user_value u) t) = []).
  { induction t as [|[k v] t IH]; intros ks Hks; [reflexivity|].
    cbn [map filter user_value fst].
    replace (includes ks k) with true.
    - cbn [negb]. apply IH. intros k' Hk'. apply Hks. now right.
    - symmetry. apply includes_In. apply Hks. now left. }
  now apply H.
Qed.

(** Merging the template with a merged map gives that map again. *)
Lemma spread2_idem (t u : Record) :
  NoDup (keys t) -> NoDup (keys u) ->
  spread2 t (spread2 t u) = spread2 t u.
Proof.
  intros Ht Hu.
  pose proof (NoDup_keys_spread2 t u Ht Hu) as Hm.
  rewrite (spread2_closed t (spread2 t u) Ht Hm).
  rewrite (spread2_closed t u Ht Hu) at 2 3.
  f_equal.
  - apply map_ext_in. intros [k v] Hin.
    unfold user_value at 1. cbn [fst snd].
    replace (get k (spread2 t u))
      with (Some (snd (user_value u (k, v)))); [reflexivity|].
    symmetry. apply In_get_Some; [assumption|].
    rewrite (spread2_closed t u Ht Hu). apply in_or_app; left.
    apply in_map_iff. exists (k, v). split; [|assumption]. reflexivity.
  - unfold only_user at 1. rewrite filter_app.
    fold (only_user (keys t) (map (user_value u) t)).
    fold (only_user (keys t) (only_user (keys t) u)).
    now rewrite only_user_template, only_user_idem.
Qed.

(** ** The rendered blocks *)

Lemma regular_plain_valid (m : Record) :
  forallb regular_entry m = true -> forallb plain_value m = true ->
  forallb valid_entry m = true.
Proof.
  induction m as [|[k v] m IH]; [reflexivity|]. cbn [forallb].
  intros Hr Hp. apply andb_true_iff in Hr as [Hr Hrs].
  apply andb_true_iff in Hp as [Hp Hps]. rewrite IH by assumption.
  rewrite andb_true_r. unfold regular_entry, plain_value in *.
  cbn [fst snd] in *. apply andb_true_iff in Hr as [Hr H3].
  apply andb_true_iff in Hr as [H1 H2].
  unfold valid_entry, valid_value. cbn [fst snd].
  now rewrite H1, H2, H3, Hp.
Qed.

Lemma buildBlock_block_text (k : selector) (m : Record) :
  buildBlock (selector_text k) m = block_text k [ch " "] (block_body m).
Proof.
  unfold buildBlock, block_text, block_body. fold declaration.
  change (fun kv : str * str => declaration kv) with declaration.
  change (js " {") with [ch " "; ch "{"]. change (js "}") with [ch "}"].
  cbn [app]. rewrite <- !app_assoc. reflexivity.
Qed.

Lemma trim_declaration (k v : str) :
  valid_key k = true ->
  trim (declaration (k, v)) = k ++ js ": " ++ v ++ js ";".
Proof.
  intros Hk. apply valid_key_shape in Hk as (c & name & -> & Hname).
  unfold declaration, trim; cbn [fst snd].
  change (js "  ") with [ch " "; ch " "].
  change (js "--") with [ch "-"; ch "-"]. cbn [app].
  rewrite 2 trimStart_ws by reflexivity.
  rewrite trimStart_nonws by reflexivity.
  change (js ";") with [ch ";"].
  replace (ch "-" :: ch "-" :: c :: name ++ js ": " ++ v ++ [ch ";"])
    with ((ch "-" :: ch "-" :: c :: name ++ js ": " ++ v) ++ [ch ";"]).
  - now rewrite trimEnd_snoc.
  - cbn [app]. now rewrite <- !app_assoc.
Qed.

Lemma regular_entry_shape (kv : str * str) :
  regular_entry kv = true ->
  valid_key (fst kv) = true
  /\ forallb (fun c => negb (is_lt c)) (snd kv) = true.
Proof.
  unfold regular_entry. intros H. apply andb_true_iff in H as [H H3].
  apply andb_true_iff in H as [H1 _]. now split.
Qed.

Lemma quiet_line_declaration (kv : str * str) :
  regular_entry kv = true -> quiet_line (declaration kv) = true.
Proof.
  destruct kv as [k v]. intros H.
  apply regular_entry_shape in H as [Hk Hv]. cbn [fst snd] in *.
  unfold quiet_line. rewrite trim_declaration by assumption.
  apply valid_key_shape in Hk as (c & name & -> & Hname).
  apply andb_true_iff; split; [|reflexivity].
  unfold declaration; cbn [fst snd]. rewrite !forallb_app.
  rewrite !andb_true_iff. repeat split; try reflexivity; try assumption.
  apply forallb_forall. intros x Hx. rewrite forallb_forall in Hname.
  apply negb_true_iff, is_name_not_lt. now apply Hname.
Qed.

Lemma quiet_line_one_line (l : str) :
  quiet_line l = true -> forallb (fun c => negb (N.eqb c LF)) l = true.
Proof.
  intros H. apply quiet_line_shape in H as (H & _ & _).
  now apply no_lt_no_LF.
Qed.

Lemma quiet_join (ls : list str) :
  forallb quiet_line ls = true -> quiet (join [LF] ls) = true.
Proof.
  intros H. destruct ls as [|l ls]; [reflexivity|].
  unfold quiet. rewrite split_nl_join; [assumption | discriminate |].
  apply Forall_forall. intros x Hx. rewrite forallb_forall in H.
  now apply quiet_line_one_line, H.
Qed.

(** A rendered block is quiet. *)
Lemma quiet_buildBlock (k : selector) (m : Record) :
  forallb regular_entry m = true ->
  quiet (buildBlock (selector_text k) m) = true.
Proof.
  intros H. rewrite buildBlock_lines, !quiet_app.
  rewrite !andb_true_iff. repeat split.
  - now destruct k.
  - apply quiet_join. rewrite forallb_forall in *.
    intros l Hl. apply in_map_iff in Hl as (kv & <- & Hkv).
    now apply quiet_line_declaration, H.
Qed.

Lemma In_join (c : char) (sep : str) (ls : list str) :
  In c (join sep ls) -> In c sep \/ exists l, In l ls /\ In c l.
Proof.
  induction ls as [|l ls IH]; [intros []|].
  destruct ls as [|l2 ls].
  - cbn [join]. intros H. right. exists l. split; [now left | assumption].
  - rewrite join_cons2. intros H.
    apply in_app_or in H as [H|H]; [right; exists l; split; [now left|assumption]|].
    apply in_app_or in H as [H|H]; [now left|].
    destruct (IH H) as [H'|(l' & Hl' & Hc)]; [now left|].
    right. exists l'. split; [now right | assumption].
Qed.

(** The body of a rendered block whose values hold no closing brace
    holds none. *)
Lemma block_body_no_close (m : Record) :
  forallb regular_entry m = true ->
  forallb (fun kv => forallb not_close (snd kv)) m = true ->
  find_char (ch "}") (block_body m) = None.
Proof.
  intros Hr Hp. apply find_char_None. unfold block_body. intros Hin.
  destruct Hin as [Hin|Hin]; [discriminate|].
  apply in_app_or in Hin as [Hin|[Hin|[]]]; [|discriminate].
  apply In_join in Hin as [[Hin|[]]|(l & Hl & Hin)]; [discriminate|].
  apply in_map_iff in Hl as ([k v] & <- & Hkv).
  rewrite forallb_forall in Hr, Hp.
  specialize (Hr _ Hkv). specialize (Hp _ Hkv).
  apply regular_entry_shape in Hr as [Hk _]. cbn [fst snd] in *.
  apply valid_key_shape in Hk as (c & name & -> & Hname).
  apply not_close_find, find_char_None in Hp.
  unfold declaration in Hin; cbn [fst snd] in Hin.
  repeat (apply in_app_or in Hin as [Hin|Hin]).
  - vm_compute in Hin. intuition discriminate.
  - vm_compute in Hin. intuition discriminate.
  - rewrite forallb_forall in Hname. apply Hname in Hin. discriminate.
  - vm_compute in Hin. intuition discriminate.
  - contradiction.
  - vm_compute in Hin. intuition discriminate.
Qed.

(** The extractor reads the body of a rendered block back. *)
Lemma extractVars_block_body (m : Record) :
  NoDup (keys m) -> forallb valid_entry m = true ->
  extractVars (block_body m) = m.
Proof.
  intros Hnd Hvalid. unfold extractVars, block_body.
  change (LF :: join [LF] (map declaration m) ++ [LF])
    with ([] ++ LF :: join [LF] (map declaration m) ++ LF :: []).
  rewrite !split_nl_app, !map_app, !fold_left_app.
  destruct m as [|kv m]; [reflexivity|].
  rewrite split_nl_join.
  - rewrite fold_declarations by assumption.
    cbn [split_nl map fold_left].
    change (extractVars_step [] (strip_line [])) with (@nil (str * str)).
    rewrite spread_nil by assumption. reflexivity.
  - discriminate.
  - apply Forall_forall. intros l Hl.
    apply in_map_iff in Hl as (e & <- & He). apply declaration_one_line.
    rewrite forallb_forall in Hvalid. now apply Hvalid.
Qed.

(** ** Finding the sections of the output *)

Lemma indexOf_here (s pat : str) :
  startsWith s pat = true -> indexOf s pat = Some 0.
Proof. unfold indexOf. intros H. destruct s; cbn [indexOf_at]; now rewrite H. Qed.

Lemma free_of_empty (pat : str) : pat <> [] -> free_of pat [] = true.
Proof. destruct pat; [congruence | reflexivity]. Qed.

(** Past a piece that is free of the pattern and the blank line after
    it. *)
Lemma indexOf_skip_gap (pat a b : str) :
  free_of pat a = true -> ~ In LF pat -> pat <> [] ->
  indexOf (a ++ LF :: LF :: b) pat
  = option_map (fun n => length a + 2 + n) (indexOf b pat).
Proof.
  intros Ha Hlf Hne. rewrite indexOf_skip_piece by assumption.
  change (LF :: b) with ([] ++ LF :: b).
  rewrite indexOf_skip_piece by (assumption || now apply free_of_empty).
  destruct (indexOf b pat); cbn; [f_equal; lia | reflexivity].
Qed.

Lemma trimmed_last (s : str) :
  trim s = s -> s <> [] -> exists s' d, s = s' ++ [d] /\ is_ws d = false.
Proof.
  intros Ht Hne. destruct s as [|c s]; [congruence|].
  apply trimmed_head in Ht as [_ Hend].
  destruct (exists_last (l := c :: s)) as (s' & d & E); [discriminate|].
  exists s', d. split; [assumption|].
  destruct (is_ws d) eqn:Ed; [exfalso | reflexivity].
  rewrite E in Hend. rewrite trimEnd_ws_suffix in Hend by (cbn; now rewrite Ed).
  pose proof (trimEnd_length s') as Hlen. rewrite Hend, length_app in Hlen.
  cbn in Hlen. lia.
Qed.

(** Trimming takes the line breaks around a text that starts and ends
    with other characters. *)
Lemma trim_between_breaks (w s' : str) (c d : char) :
  forallb is_ws w = true -> is_ws c = false -> is_ws d = false ->
  trim (w ++ (c :: s' ++ [d]) ++ [LF]) = c :: s' ++ [d].
Proof.
  intros Hw Hc Hd. rewrite trim_ws_prefix by assumption.
  unfold trim. cbn [app]. rewrite trimStart_nonws by assumption.
  change (c :: (s' ++ [d]) ++ [LF]) with ((c :: s' ++ [d]) ++ [LF]).
  rewrite trimEnd_ws_suffix by reflexivity.
  exact (trimEnd_snoc (c :: s') d Hd).
Qed.

Lemma forallb_repeat_LF (n : nat) : forallb is_ws (repeat LF n) = true.
Proof. induction n; [reflexivity | assumption]. Qed.

Lemma filterBoolean_cons (c : char) (t : str) (rest : list str) :
  filterBoolean ((c :: t) :: rest) = (c :: t) :: filterBoolean rest.
Proof. reflexivity. Qed.

Lemma filterBoolean_nil (rest : list str) :
  filterBoolean ([] :: rest) = filterBoolean rest.
Proof. reflexivity. Qed.

(** The block of a keyword that starts with [@], when it is closed:
    its ends, and how it is found again. *)
Lemma closed_section_facts (tpl keyword : str) :
  closed_section tpl keyword = true ->
  find_char (ch "{") keyword = None ->
  (exists t, keyword = ch "@" :: t) ->
  (exists t, extractBlock tpl keyword = ch "@" :: t ++ [ch "}"])
  /\ startsWith (extractBlock tpl keyword) keyword = true
  /\ forall pre rest,
       indexOf (pre ++ extractBlock tpl keyword ++ rest) keyword
       = Some (length pre) ->
       extractBlock (pre ++ extractBlock tpl keyword ++ rest) keyword
       = extractBlock tpl keyword.
Proof.
  intros Hc Hkw [t0 Et0].
  destruct (closed_section_shape tpl keyword Hc Hkw)
    as (mid & inner & E & Hmid & Hpos & Hzero).
  rewrite E. split; [|split].
  - destruct (depth_zero_last inner Hpos Hzero) as [inner' ->].
    exists (t0 ++ mid ++ ch "{" :: inner'). rewrite Et0. cbn [app].
    rewrite <- !app_assoc. reflexivity.
  - apply startsWith_app.
  - intros pre rest Hidx.
    apply (extractBlock_in_context keyword mid inner pre rest);
      try assumption.
    rewrite find_char_app_none by assumption. now rewrite Hmid.
Qed.

(** ** The second run

    The output of a run is assembled from import lines, the two blocks of
    the template, two rendered blocks and a leftover text.  Under the
    conditions of [template_ok] and [run_ok], a run on such an output
    finds each of these pieces again. *)

Lemma startsWith_app_closed (d : char) (y : str) : forall s' p,
  ~ In d p ->
  startsWith ((s' ++ [d]) ++ y) p = startsWith (s' ++ [d]) p.
Proof.
  induction s' as [|c s IH]; intros p Hp.
  - destruct p as [|x p]; [reflexivity|]. cbn [app startsWith].
    replace (N.eqb x d) with false; [reflexivity|].
    symmetry. apply N.eqb_neq. intros ->. apply Hp. now left.
  - destruct p as [|x p]; [reflexivity|]. cbn [app startsWith].
    f_equal. apply IH. intros H. apply Hp. now right.
Qed.

Lemma not_close_selector (k : selector) : ~ In (ch "}") (selector_text k).
Proof. destruct k; vm_compute; intuition discriminate. Qed.

Lemma find_char_app_some (c : char) (a y : str) (j : nat) :
  find_char c a = Some j -> find_char c (a ++ y) = Some j.
Proof.
  revert j; induction a as [|d a IH]; intros j; cbn [find_char app];
    [discriminate|].
  destruct (N.eqb d c); [trivial|].
  destruct (find_char c a) as [m|]; [|discriminate].
  intros [= <-]. now rewrite (IH m eq_refl).
Qed.

Lemma find_char_bound (c : char) (a : str) (j : nat) :
  find_char c a = Some j -> j < length a.
Proof.
  revert j; induction a as [|d a IH]; intros j; cbn [find_char length];
    [discriminate|].
  destruct (N.eqb d c); [intros [= <-]; lia|].
  destruct (find_char c a) as [m|]; [|discriminate].
  intros [= <-]. specialize (IH m eq_refl). cbn. lia.
Qed.

(** In a text that ends with a closing brace, what the pattern matches at
    the head does not depend on the text that follows: the selector, the
    white space and the opening brace lie in the text, and its last
    character closes the match at the latest. *)
Lemma block_regex_here_closed (k : selector) (s' y : str) :
  block_regex_here k ((s' ++ [ch "}"]) ++ y)
  = block_regex_here k (s' ++ [ch "}"]).
Proof.
  unfold block_regex_here.
  rewrite startsWith_app_closed by apply not_close_selector.
  destruct (startsWith (s' ++ [ch "}"]) (selector_text k)) eqn:Es;
    [|reflexivity].
  apply startsWith_prefix in Es as [t Et]. rewrite Et.
  rewrite <- app_assoc.
  rewrite <- (selector_length k), !skipn_app_exact.
  destruct (span is_ws t) as [ws r] eqn:Esp.
  apply span_eq in Esp as (Etr & Hws & Hr).
  destruct r as [|c body].
  { exfalso. rewrite app_nil_r in Etr. subst t.
    destruct (exists_last (l := ws)) as (ws' & d & Ews).
    - intros ->. rewrite app_nil_r in Et.
      apply (not_close_selector k). rewrite <- Et.
      apply in_or_app. right. now left.
    - rewrite Ews, app_assoc in Et. apply app_inj_tail in Et as [_ Ed].
      rewrite Ews, forallb_app in Hws. apply andb_true_iff in Hws as [_ Hd].
      rewrite <- Ed in Hd. discriminate. }
  rewrite Etr, <- app_assoc.
  rewrite (span_app_stop is_ws ws ((c :: body) ++ y)) by assumption.
  cbn [app]. destruct (N.eqb c (ch "{")) eqn:Ec; [|reflexivity].
  destruct (find_char (ch "}") body) as [j|] eqn:Ef.
  - rewrite (find_char_app_some _ _ y _ Ef).
    rewrite firstn_app. apply find_char_bound in Ef.
    replace (j - length body) with 0 by lia.
    cbn [firstn]. now rewrite app_nil_r.
  - exfalso. apply find_char_None in Ef. apply Ef.
    assert (E : s' ++ [ch "}"] = (selector_text k ++ ws ++ [c]) ++ body).
    { rewrite Et, Etr, <- !app_assoc. reflexivity. }
    destruct (exists_last (l := body)) as (b' & d & Eb).
    + intros ->. rewrite app_nil_r, !app_assoc in E.
      apply app_inj_tail in E as [_ E]. apply N.eqb_eq in Ec.
      rewrite Ec in E. discriminate.
    + rewrite Eb, app_assoc in E. apply app_inj_tail in E as [_ E].
      rewrite Eb, <- E. apply in_or_app. right. now left.
Qed.

(** The search in a piece that ends with a closing brace, with more text
    after it: the first match of the piece, and the search in the rest
    when the piece has none. *)
Lemma block_regex_at_closed (k : selector) (y : str) : forall a' i,
  block_regex_at k ((a' ++ [ch "}"]) ++ y) i
  = match block_regex_at k (a' ++ [ch "}"]) i with
    | Some r => Some r
    | None => block_regex_at k y (i + length (a' ++ [ch "}"]))
    end.
Proof.
  induction a' as [|c a IH]; intros i.
  - cbn [app block_regex_at length].
    replace (block_regex_here k (ch "}" :: y)) with (@None (nat * str)).
    + replace (block_regex_here k [ch "}"]) with (@None (nat * str)).
      * replace (block_regex_here k []) with (@None (nat * str));
          [f_equal; lia | now destruct k].
      * now destruct k.
    + unfold block_regex_here.
      replace (startsWith (ch "}" :: y) (selector_text k)) with false;
        [reflexivity | now destruct k].
  - cbn [app block_regex_at length].
    change (c :: (a ++ [ch "}"]) ++ y) with (((c :: a) ++ [ch "}"]) ++ y).
    rewrite block_regex_here_closed. cbn [app].
    destruct (block_regex_here k (c :: a ++ [ch "}"])) as [[n b]|];
      [reflexivity|].
    rewrite IH. replace (S i + length (a ++ [ch "}"]))
      with (i + S (length (a ++ [ch "}"]))) by lia.
    reflexivity.
Qed.

(** Group 1 of the first match does not depend on the index from which
    the positions are counted. *)
Lemma block_regex_at_group (k : selector) (s : str) : forall i j,
  option_map snd (block_regex_at k s i)
  = option_map snd (block_regex_at k s j).
Proof.
  induction s as [|c s IH]; intros i j; cbn [block_regex_at].
  - now destruct (block_regex_here k []) as [[n b]|].
  - destruct (block_regex_here k (c :: s)) as [[n b]|]; [reflexivity|].
    apply IH.
Qed.

Lemma match_group1_at (k : selector) (s : str) (i : nat) :
  match_group1 k s
  = match option_map snd (block_regex_at k s i) with
    | Some body => body
    | None => []
    end.
Proof.
  unfold match_group1, block_regex_exec.
  rewrite (block_regex_at_group k s i 0).
  now destruct (block_regex_at k s 0) as [[[p n] b]|].
Qed.

(** A text in which the pattern matches somewhere has a first match. *)
Lemma block_regex_at_somewhere (k : selector) (b : str) (n : nat)
    (body : str) : forall a i,
  block_regex_here k b = Some (n, body) ->
  block_regex_at k (a ++ b) i <> None.
Proof.
  induction a as [|c a IH]; intros i H; cbn [app].
  - destruct b; cbn [block_regex_at]; now rewrite H.
  - cbn [block_regex_at].
    destruct (block_regex_here k (c :: a ++ b)) as [[n0 b0]|];
      [discriminate | now apply IH].
Qed.

Lemma block_regex_at_None (k : selector) (s : str) : forall i j,
  block_regex_at k s i = None -> block_regex_at k s j = None.
Proof.
  induction s as [|c s IH]; intros i j; cbn [block_regex_at].
  - destruct (block_regex_here k []) as [[n b]|]; [discriminate|reflexivity].
  - destruct (block_regex_here k (c :: s)) as [[n b]|]; [discriminate|].
    apply IH.
Qed.

(** The search goes past a piece that ends with a closing brace and in
    which the pattern has no match. *)
Lemma block_regex_at_past_closed (k : selector) (y a' : str) (i : nat) :
  no_block_match k (a' ++ [ch "}"]) = true ->
  block_regex_at k ((a' ++ [ch "}"]) ++ y) i
  = block_regex_at k y (i + length (a' ++ [ch "}"])).
Proof.
  unfold no_block_match, block_regex_exec. intros H.
  rewrite block_regex_at_closed.
  destruct (block_regex_at k (a' ++ [ch "}"]) 0) eqn:E0; [discriminate|].
  now rewrite (block_regex_at_None k _ 0 i E0).
Qed.

Lemma block_regex_at_LF (k : selector) (y : str) (i : nat) :
  block_regex_at k (LF :: y) i = block_regex_at k y (S i).
Proof.
  cbn [block_regex_at]. unfold block_regex_here.
  replace (startsWith (LF :: y) (selector_text k)) with false;
    [reflexivity|].
  now destruct k.
Qed.

Lemma block_regex_at_block (k : selector) (ws body rest : str) (i : nat) :
  forallb is_ws ws = true ->
  find_char (ch "}") body = None ->
  block_regex_at k (block_text k ws body ++ rest) i
  = Some (i, length (block_text k ws body), body).
Proof.
  intros Hws Hbody.
  destruct (block_text k ws body ++ rest) as [|c t] eqn:E.
  - destruct k; discriminate.
  - cbn [block_regex_at]. rewrite <- E.
    now rewrite block_regex_here_block.
Qed.

(** When the search reaches a block, the replacement removes it. *)
Lemma replace_block_regex_found (k : selector) (pre blk rest body : str) :
  block_regex_exec k (pre ++ blk ++ rest)
  = Some (length pre, length blk, body) ->
  replace_block_regex k (pre ++ blk ++ rest) = pre ++ rest.
Proof.
  intros H. unfold replace_block_regex. rewrite H.
  rewrite firstn_app_exact. f_equal.
  rewrite skipn_app, skipn_all2 by lia. cbn [app].
  replace (length pre + length blk - length pre) with (length blk) by lia.
  apply skipn_app_exact.
Qed.

Lemma replaceStr_here (blk rest : str) :
  replaceStr (blk ++ rest) blk = rest.
Proof.
  unfold replaceStr. rewrite indexOf_here by apply startsWith_app.
  cbn [firstn app Nat.add]. apply skipn_app_exact.
Qed.

Lemma replaceStr_after_breaks (n : nat) (t rest : str) :
  replaceStr (repeat LF n ++ (ch "@" :: t) ++ rest) (ch "@" :: t)
  = repeat LF n ++ rest.
Proof.
  unfold replaceStr. rewrite (indexOf_first _ _ n).
  - rewrite <- (repeat_length LF n) at 1 3.
    rewrite firstn_app_exact. f_equal.
    rewrite app_assoc, <- length_app. apply skipn_app_exact.
  - rewrite <- (repeat_length LF n) at 1. rewrite skipn_app_exact.
    apply startsWith_app.
  - intros j Hj.
    assert (E : skipn j (repeat LF n ++ (ch "@" :: t) ++ rest)
                = LF :: skipn (S j) (repeat LF n ++ (ch "@" :: t) ++ rest)).
    { revert j Hj. clear. induction n as [|n IH]; intros j Hj; [lia|].
      destruct j as [|j]; [reflexivity|]. cbn [repeat app skipn].
      apply IH. lia. }
    rewrite E. reflexivity.
  - rewrite length_app, repeat_length. lia.
Qed.

Ltac app_norm :=
  repeat (cbn [app]; rewrite <- ?app_assoc); cbn [app];
  rewrite ?app_nil_r.

Lemma template_ok_facts (tpl : str) :
  template_ok tpl = true ->
  closed_section tpl (js "@theme inline") = true
  /\ closed_section tpl (js "@layer base") = true
  /\ import_free (coreThemeInline tpl) = true
  /\ import_free (coreLayerBase tpl) = true
  /\ no_block_match Root (coreThemeInline tpl) = true
  /\ no_block_match Dark (coreThemeInline tpl) = true
  /\ free_of (js "@layer base") (coreThemeInline tpl) = true.
Proof.
  unfold template_ok. rewrite !andb_true_iff. tauto.
Qed.

Section SecondRun.

Variable tpl : str.
Hypothesis Htpl : template_ok tpl = true.

Variables (imports : list str) (mr md : Record) (L : str).

Hypothesis Himports : forallb whole_import imports = true.
Hypothesis Hlines :
  Forall (fun l => forallb (fun c => negb (N.eqb c LF)) l = true) imports.
Hypothesis Hrequired : forall req, In req REQUIRED_IMPORTS -> In req imports.
Hypothesis HLfree : import_free L = true.
Hypothesis HLtrim : trim L = L.
Hypothesis Hmr : forallb regular_entry mr = true.
Hypothesis Hmr_plain : forallb plain_value mr = true.
Hypothesis Hmr_close : forallb (fun kv => forallb not_close (snd kv)) mr = true.
Hypothesis Hmr_keys : NoDup (keys mr).
Hypothesis Hmd : forallb regular_entry md = true.
Hypothesis Hmd_close : forallb (fun kv => forallb not_close (snd kv)) md = true.
Hypothesis HD_read :
  buildBlock (js ".dark")
    (spread2 (coreDarkVars tpl)
       (extractVars
          (match_group1 Dark
             (buildBlock (js ":root") mr
              ++ LF :: LF :: buildBlock (js ".dark") md))))
  = buildBlock (js ".dark") md.
Hypothesis HR_layer :
  free_of (js "@layer base") (buildBlock (js ":root") mr) = true.
Hypothesis HD_layer :
  free_of (js "@layer base") (buildBlock (js ".dark") md) = true.

Local Abbreviation TI := (coreThemeInline tpl).
Local Abbreviation LB := (coreLayerBase tpl).
Local Abbreviation R := (block_text Root [ch " "] (block_body mr)).
Local Abbreviation D := (block_text Dark [ch " "] (block_body md)).
Local Abbreviation tailL :=
  (match L with [] => [] | _ :: _ => LF :: LF :: L end).
Local Abbreviation W2 :=
  (TI ++ LF :: LF :: R ++ LF :: LF :: D ++ LF :: LF :: LB ++ tailL).

Lemma TI_ends : exists t, TI = ch "@" :: t ++ [ch "}"].
Proof.
  destruct (template_ok_facts tpl Htpl) as (H & _).
  apply (closed_section_facts tpl (js "@theme inline") H eq_refl).
  now exists (js "theme inline").
Qed.

Lemma LB_ends : exists t, LB = ch "@" :: t ++ [ch "}"].
Proof.
  destruct (template_ok_facts tpl Htpl) as (_ & H & _).
  apply (closed_section_facts tpl (js "@layer base") H eq_refl).
  now exists (js "layer base").
Qed.

Lemma imports_head : exists l ls t, imports = l :: ls /\ l = ch "@" :: t.
Proof.
  destruct imports as [|l ls] eqn:E.
  - exfalso. apply (Hrequired import_tailwindcss). now left.
  - cbn [forallb] in Himports. apply andb_true_iff in Himports as [Hl _].
    apply whole_import_shape in Hl as (w & ws & r & El & _).
    exists l, ls, (js "import" ++ (w :: ws) ++ r).
    split; [reflexivity | exact El].
Qed.

Lemma join_imports_head : exists t, join [LF] imports = ch "@" :: t.
Proof.
  destruct imports_head as (l & ls & t & -> & ->).
  destruct ls; [now exists t|]. rewrite join_cons2. cbn [app]. eauto.
Qed.

Lemma W2_ends : exists w d, W2 = ch "@" :: w ++ [d] /\ is_ws d = false.
Proof.
  destruct TI_ends as [t1 ->]. destruct LB_ends as [t2 ->].
  destruct L as [|c l] eqn:EL.
  - eexists (t1 ++ [ch "}"] ++ LF :: LF :: R ++ LF :: LF :: D
             ++ LF :: LF :: ch "@" :: t2), (ch "}").
    split; [|reflexivity]. app_norm. reflexivity.
  - destruct (trimmed_last (c :: l)) as (l' & d & E & Hd);
      [first [exact HLtrim | rewrite <- EL; exact HLtrim] | discriminate |].
    rewrite E.
    exists (t1 ++ [ch "}"] ++ LF :: LF :: R ++ LF :: LF :: D
            ++ LF :: LF :: ch "@" :: t2 ++ [ch "}"] ++ LF :: LF :: l'), d.
    split; [|assumption]. app_norm. reflexivity.
Qed.

(** The output, piece by piece. *)
Lemma assemble_shape :
  assemble imports TI R D LB L = join [LF] imports ++ LF :: LF :: W2 ++ [LF].
Proof.
  unfold assemble.
  destruct W2_ends as (w & d & EW & Hd).
  destruct join_imports_head as [ti Ei].
  assert (EB : join [LF; LF] (filterBoolean [TI; []; R; []; D; []; LB])
               = TI ++ LF :: LF :: R ++ LF :: LF :: D ++ LF :: LF :: LB).
  { destruct TI_ends as [t1 ->]. destruct LB_ends as [t2 ->].
    destruct (block_text_ends Root [ch " "] (block_body mr)) as (c1 & r1 & -> & _).
    destruct (block_text_ends Dark [ch " "] (block_body md)) as (c2 & r2 & -> & _).
    rewrite !filterBoolean_cons, !filterBoolean_nil.
    rewrite !filterBoolean_cons, !filterBoolean_nil.
    cbn [filterBoolean filter]. rewrite !join_cons2. cbn [join].
    app_norm. reflexivity. }
  rewrite EB.
  assert (EF : join [LF; LF]
                 (filterBoolean
                    [join [LF] imports; [];
                     TI ++ LF :: LF :: R ++ LF :: LF :: D ++ LF :: LF :: LB;
                     []; L])
               = join [LF] imports ++ LF :: LF :: W2).
  { rewrite Ei. destruct TI_ends as [t1 ->].
    cbn [app]. rewrite !filterBoolean_cons, !filterBoolean_nil.
    rewrite !filterBoolean_cons, !filterBoolean_nil.
    destruct L as [|c l].
    - cbn [filterBoolean filter]. rewrite !join_cons2. cbn [join].
      app_norm. reflexivity.
    - rewrite filterBoolean_cons. cbn [filterBoolean filter].
      rewrite !join_cons2. cbn [join]. app_norm. reflexivity. }
  etransitivity;
    [apply f_equal2; [apply f_equal; exact EF | reflexivity]|].
  rewrite Ei, EW.
  assert (E : (ch "@" :: ti) ++ LF :: LF :: ch "@" :: w ++ [d]
              = ch "@" :: (ti ++ LF :: LF :: ch "@" :: w) ++ [d])
    by (app_norm; reflexivity).
  rewrite E, trim_fixed by (reflexivity || assumption).
  app_norm. reflexivity.
Qed.

Lemma R_closed : exists r, R = r ++ [ch "}"].
Proof.
  destruct (block_text_ends Root [ch " "] (block_body mr)) as (c & t & E & _).
  exists (c :: t). exact E.
Qed.

Lemma D_closed : exists r, D = r ++ [ch "}"].
Proof.
  destruct (block_text_ends Dark [ch " "] (block_body md)) as (c & t & E & _).
  exists (c :: t). exact E.
Qed.

Lemma TI_closed : exists r, TI = r ++ [ch "}"].
Proof. destruct TI_ends as [t E]. exists (ch "@" :: t). exact E. Qed.

Lemma LB_closed : exists r, LB = r ++ [ch "}"].
Proof. destruct LB_ends as [t E]. exists (ch "@" :: t). exact E. Qed.

Lemma import_free_R :
  no_import_line R = true /\ matchless true R = true.
Proof.
  apply quiet_import_free.
  rewrite <- buildBlock_block_text. now apply quiet_buildBlock.
Qed.

Lemma import_free_D :
  no_import_line D = true /\ matchless true D = true.
Proof.
  apply quiet_import_free.
  rewrite <- buildBlock_block_text. now apply quiet_buildBlock.
Qed.

(** No line after the import lines of the output is an import. *)
Lemma no_import_line_after : no_import_line (LF :: W2 ++ [LF]) = true.
Proof.
  destruct (template_ok_facts tpl Htpl) as (_ & _ & HTI & HLB & _).
  apply import_free_facts in HTI as [HTI _].
  apply import_free_facts in HLB as [HLB _].
  destruct (import_free_facts L HLfree) as [HL _].
  destruct import_free_R as [HR _]. destruct import_free_D as [HD _].
  rewrite no_import_line_LF. rewrite <- !app_assoc. cbn [app].
  rewrite no_import_line_app, HTI, no_import_line_LF. cbn [andb].
  rewrite <- !app_assoc. cbn [app].
  rewrite no_import_line_app, HR, no_import_line_LF. cbn [andb].
  rewrite <- !app_assoc. cbn [app].
  rewrite no_import_line_app, HD, no_import_line_LF. cbn [andb].
  rewrite <- !app_assoc.
  destruct L as [|c l] eqn:EL.
  - cbn [app]. now rewrite no_import_line_app, HLB.
  - cbn [app].
    rewrite no_import_line_app, HLB, no_import_line_LF. cbn [andb].
    change (c :: l ++ [LF]) with ((c :: l) ++ LF :: []).
    now rewrite no_import_line_app, HL.
Qed.

(** The import pattern has no match after the import lines of the
    output. *)
Lemma matchless_after : matchless true (LF :: W2 ++ [LF]) = true.
Proof.
  destruct (template_ok_facts tpl Htpl) as (_ & _ & HTI & HLB & _).
  apply import_free_facts in HTI as [_ HTI].
  apply import_free_facts in HLB as [_ HLB].
  destruct (import_free_facts L HLfree) as [_ HL].
  destruct import_free_R as [_ HR]. destruct import_free_D as [_ HD].
  destruct TI_closed as [ti Eti]. destruct LB_closed as [lb Elb].
  destruct R_closed as [r Er]. destruct D_closed as [d Ed].
  rewrite matchless_LF. rewrite <- !app_assoc. cbn [app].
  rewrite Eti in *. apply matchless_closed_app; [assumption|].
  rewrite matchless_LF. rewrite <- !app_assoc. cbn [app].
  rewrite Er in *. apply matchless_closed_app; [assumption|].
  rewrite matchless_LF. rewrite <- !app_assoc. cbn [app].
  rewrite Ed in *. apply matchless_closed_app; [assumption|].
  rewrite matchless_LF. rewrite <- !app_assoc.
  rewrite Elb in *.
  destruct L as [|c l] eqn:EL.
  - cbn [app]. now apply matchless_last_LF.
  - cbn [app]. apply matchless_closed_app; [assumption|].
    rewrite matchless_LF. now apply (matchless_last_LF (c :: l)).
Qed.

Lemma imports_nonempty : imports <> [].
Proof. destruct imports_head as (l & ls & t & -> & _). discriminate. Qed.

(** STEP 1 on the output: the same import lines. *)
Lemma importLines_output :
  importLines (assemble imports TI R D LB L) = imports.
Proof.
  rewrite assemble_shape. unfold importLines.
  rewrite fold_import_lines, required_appended. cbn [app].
  rewrite (found_imports imports (LF :: W2 ++ [LF]) imports_nonempty
             Himports Hlines no_import_line_after).
  unfold REQUIRED_IMPORTS. cbn [filter].
  rewrite (proj2 (includes_In imports import_tailwindcss))
    by (apply Hrequired; now left).
  rewrite (proj2 (includes_In imports import_tw_animate_css))
    by (apply Hrequired; right; now left).
  apply app_nil_r.
Qed.

(** The working content of the output: the four blocks and the
    leftover text. *)
Lemma workingContent0_output :
  workingContent0 (assemble imports TI R D LB L) = W2.
Proof.
  unfold workingContent0. rewrite assemble_shape.
  rewrite (removeAll_imports imports (LF :: W2 ++ [LF]) imports_nonempty
             Himports matchless_after).
  destruct W2_ends as (w & d & -> & Hd).
  replace (repeat LF (length imports) ++ LF :: (ch "@" :: w ++ [d]) ++ [LF])
    with ((repeat LF (length imports) ++ [LF])
          ++ (ch "@" :: w ++ [d]) ++ [LF])
    by (app_norm; reflexivity).
  apply trim_between_breaks; [|reflexivity|assumption].
  rewrite forallb_app, forallb_repeat_LF. reflexivity.
Qed.

Lemma W2_root :
  W2 = (TI ++ [LF; LF]) ++ R ++ (LF :: LF :: D ++ LF :: LF :: LB ++ tailL).
Proof. app_norm. reflexivity. Qed.

Lemma W2_layer :
  W2 = (TI ++ LF :: LF :: R ++ LF :: LF :: D ++ [LF; LF]) ++ LB ++ tailL.
Proof. app_norm. reflexivity. Qed.

Lemma body_mr_no_close : find_char (ch "}") (block_body mr) = None.
Proof. now apply block_body_no_close. Qed.

Lemma body_md_no_close : find_char (ch "}") (block_body md) = None.
Proof. now apply block_body_no_close. Qed.

(** The first match of the [:root] pattern in the output is the rendered
    block. *)
Lemma exec_root :
  block_regex_exec Root
    ((TI ++ [LF; LF]) ++ R ++ (LF :: LF :: D ++ LF :: LF :: LB ++ tailL))
  = Some (length (TI ++ [LF; LF]), length R, block_body mr).
Proof.
  destruct (template_ok_facts tpl Htpl) as (_ & _ & _ & _ & H & _).
  destruct TI_closed as [ti Eti]. rewrite Eti in *.
  unfold block_regex_exec. rewrite <- !app_assoc.
  rewrite app_assoc.
  rewrite block_regex_at_past_closed by assumption.
  cbn [app]. rewrite !block_regex_at_LF.
  rewrite block_regex_at_block by (reflexivity || exact body_mr_no_close).
  do 3 f_equal. rewrite !length_app. cbn [length]. lia.
Qed.

(** The [.dark] pattern finds in the output what it finds in the two
    rendered blocks. *)
Lemma match_group1_dark :
  match_group1 Dark W2 = match_group1 Dark (R ++ LF :: LF :: D).
Proof.
  destruct (template_ok_facts tpl Htpl) as (_ & _ & _ & _ & _ & H & _).
  destruct TI_closed as [ti Eti]. destruct D_closed as [d Ed].
  assert (E : W2 = (ti ++ [ch "}"])
                   ++ LF :: LF :: ((R ++ LF :: LF :: d) ++ [ch "}"])
                   ++ (LF :: LF :: LB ++ tailL)).
  { rewrite Eti, Ed. app_norm. reflexivity. }
  assert (EX : R ++ LF :: LF :: D = (R ++ LF :: LF :: d) ++ [ch "}"]).
  { rewrite Ed. app_norm. reflexivity. }
  rewrite E, EX. rewrite Eti in H.
  rewrite (match_group1_at Dark _ 0).
  rewrite block_regex_at_past_closed by assumption.
  rewrite !block_regex_at_LF, block_regex_at_closed.
  rewrite (match_group1_at Dark ((R ++ LF :: LF :: d) ++ [ch "}"])
             (S (S (0 + length (ti ++ [ch "}"]))))).
  destruct (block_regex_at Dark ((R ++ LF :: LF :: d) ++ [ch "}"])
              (S (S (0 + length (ti ++ [ch "}"]))))) as [r|] eqn:Er;
    [reflexivity|].
  exfalso. rewrite <- EX in Er.
  replace (R ++ LF :: LF :: D) with ((R ++ [LF; LF]) ++ D) in Er
    by (app_norm; reflexivity).
  revert Er.
  apply (block_regex_at_somewhere Dark D (length D) (block_body md)).
  rewrite <- (app_nil_r D) at 1.
  apply block_regex_here_block; [reflexivity|].
  now apply block_body_no_close.
Qed.

Lemma exec_dark_after_root :
  block_regex_exec Dark
    ((TI ++ [LF; LF; LF; LF]) ++ D ++ (LF :: LF :: LB ++ tailL))
  = Some (length (TI ++ [LF; LF; LF; LF]), length D, block_body md).
Proof.
  destruct (template_ok_facts tpl Htpl) as (_ & _ & _ & _ & _ & H & _).
  destruct TI_closed as [ti Eti]. rewrite Eti in *.
  unfold block_regex_exec. rewrite <- !app_assoc.
  rewrite app_assoc.
  rewrite block_regex_at_past_closed by assumption.
  cbn [app]. rewrite !block_regex_at_LF.
  rewrite block_regex_at_block by (reflexivity || exact body_md_no_close).
  do 3 f_equal. rewrite !length_app. cbn [length]. lia.
Qed.

(** STEP 3 on the output: the bodies of the two rendered blocks. *)
Lemma match_group1_root : match_group1 Root W2 = block_body mr.
Proof. unfold match_group1. now rewrite W2_root, exec_root. Qed.

Lemma userRootVars_output : extractVars (match_group1 Root W2) = mr.
Proof.
  rewrite match_group1_root. apply extractVars_block_body;
    [assumption | now apply regular_plain_valid].
Qed.

(** STEP 3 and STEP 4 on the output for the [.dark] section. *)
Lemma mergedDarkBlock_output : mergedDarkBlock tpl W2 = D.
Proof.
  unfold mergedDarkBlock, userDarkVars. rewrite match_group1_dark.
  change (js ":root") with (selector_text Root) in HD_read.
  change (js ".dark") with (selector_text Dark) in HD_read.
  rewrite !buildBlock_block_text in HD_read.
  change (js ".dark") with (selector_text Dark).
  rewrite buildBlock_block_text. exact HD_read.
Qed.

(** STEP 5 on the output, one replacement after the other. *)
Lemma strip_root_dark :
  replace_block_regex Dark (replace_block_regex Root W2)
  = TI ++ repeat LF 6 ++ LB ++ tailL.
Proof.
  rewrite W2_root at 1.
  rewrite (replace_block_regex_found Root _ _ _ _ exec_root).
  replace ((TI ++ [LF; LF]) ++ LF :: LF :: D ++ LF :: LF :: LB ++ tailL)
    with ((TI ++ [LF; LF; LF; LF]) ++ D ++ (LF :: LF :: LB ++ tailL))
    by (app_norm; reflexivity).
  rewrite (replace_block_regex_found Dark _ _ _ _ exec_dark_after_root).
  app_norm. reflexivity.
Qed.

Lemma extractBlock_theme : extractBlock W2 (js "@theme inline") = TI.
Proof.
  destruct (template_ok_facts tpl Htpl) as (H & _).
  destruct (closed_section_facts tpl (js "@theme inline") H eq_refl)
    as (_ & Hs & Hctx); [now exists (js "theme inline")|].
  apply (Hctx [] (LF :: LF :: R ++ LF :: LF :: D ++ LF :: LF :: LB ++ tailL)).
  apply indexOf_here. cbn [app].
  apply startsWith_prefix in Hs as [t Ht]. unfold coreThemeInline, getCoreSection.
  rewrite Ht, <- app_assoc. apply startsWith_app.
Qed.

Lemma idx_layer :
  indexOf W2 (js "@layer base")
  = Some (length (TI ++ LF :: LF :: R ++ LF :: LF :: D ++ [LF; LF])).
Proof.
  destruct (template_ok_facts tpl Htpl) as (_ & Hc & _ & _ & _ & _ & H).
  destruct (closed_section_facts tpl (js "@layer base") Hc eq_refl)
    as (_ & Hs & _); [now exists (js "layer base")|].
  assert (Hlf : ~ In LF (js "@layer base"))
    by (vm_compute; intuition discriminate).
  rewrite indexOf_skip_gap; [|exact H|exact Hlf|discriminate].
  rewrite indexOf_skip_gap;
    [|rewrite <- buildBlock_block_text; exact HR_layer|exact Hlf|discriminate].
  rewrite indexOf_skip_gap;
    [|rewrite <- buildBlock_block_text; exact HD_layer|exact Hlf|discriminate].
  rewrite indexOf_here.
  - cbn [option_map]. f_equal. rewrite !length_app. cbn [length].
    rewrite !length_app. cbn [length]. rewrite !length_app. cbn [length]. lia.
  - apply startsWith_prefix in Hs as [t Ht].
    unfold coreLayerBase, getCoreSection.
    rewrite Ht, <- app_assoc. apply startsWith_app.
Qed.

Lemma extractBlock_layer : extractBlock W2 (js "@layer base") = LB.
Proof.
  destruct (template_ok_facts tpl Htpl) as (_ & H & _).
  destruct (closed_section_facts tpl (js "@layer base") H eq_refl)
    as (_ & _ & Hctx); [now exists (js "layer base")|].
  rewrite W2_layer. apply Hctx.
  pose proof idx_layer as Hi. rewrite W2_layer in Hi. exact Hi.
Qed.

Lemma stripOldSections_output : stripOldSections W2 = L.
Proof.
  unfold stripOldSections.
  rewrite strip_root_dark, extractBlock_theme, extractBlock_layer.
  rewrite replaceStr_here. destruct LB_ends as [t ELB]. rewrite ELB.
  rewrite replaceStr_after_breaks.
  destruct L as [|c l] eqn:EL.
  - rewrite app_nil_r. unfold trim.
    rewrite <- (app_nil_r (repeat LF 6)), trimStart_ws_prefix by reflexivity.
    reflexivity.
  - replace (repeat LF 6 ++ LF :: LF :: c :: l)
      with (repeat LF 8 ++ c :: l) by reflexivity.
    rewrite trim_ws_prefix by reflexivity.
    first [exact HLtrim | rewrite <- EL; exact HLtrim].
Qed.

(** A run on the output reads the same pieces and assembles them with the
    template merged once more into the two maps. *)
Lemma finalCss_output :
  finalCss tpl (assemble imports TI R D LB L)
  = assemble imports TI
      (buildBlock (js ":root") (spread2 (coreRootVars tpl) mr)) D LB L.
Proof.
  unfold finalCss, clyroBlock.
  rewrite importLines_output, workingContent0_output.
  rewrite mergedDarkBlock_output, stripOldSections_output.
  unfold mergedRootBlock, userRootVars. rewrite userRootVars_output.
  reflexivity.
Qed.

End SecondRun.

Lemma finalCss_assemble (tpl cssContent : str) :
  finalCss tpl cssContent
  = assemble (importLines cssContent) (coreThemeInline tpl)
      (mergedRootBlock tpl (workingContent0 cssContent))
      (mergedDarkBlock tpl (workingContent0 cssContent))
      (coreLayerBase tpl)
      (stripOldSections (workingContent0 cssContent)).
Proof. reflexivity. Qed.

Lemma run_ok_facts (tpl cssContent : str) :
  run_ok tpl cssContent = true ->
  let w := workingContent0 cssContent in
  forallb whole_import (importLines cssContent) = true
  /\ import_free (stripOldSections w) = true
  /\ forallb plain_value (spread2 (coreRootVars tpl) (userRootVars w)) = true
  /\ darkBlockReadBack tpl w = mergedDarkBlock tpl w
  /\ free_of (js "@layer base") (mergedRootBlock tpl w) = true
  /\ free_of (js "@layer base") (mergedDarkBlock tpl w) = true.
Proof.
  unfold run_ok. rewrite !andb_true_iff. intros H.
  decompose [and] H. repeat split; try assumption.
  now apply str_eqb_eq.
Qed.

(** The merged [.dark] block is read back when the [.dark] pattern has no
    match in the merged [:root] block and no merged [.dark] value holds a
    comment: the pattern then finds the merged [.dark] block and the
    extractor reads its entries. *)
Lemma darkBlockReadBack_without_match (tpl w : str) :
  no_block_match DARK_REGEX (mergedRootBlock tpl w) = true ->
  forallb plain_value (spread2 (coreDarkVars tpl) (userDarkVars w)) = true ->
  darkBlockReadBack tpl w = mergedDarkBlock tpl w.
Proof.
  intros HR Hplain.
  destruct (extractVars_regular (match_group1 Root tpl)) as [Hcr Hcrk].
  destruct (extractVars_regular (match_group1 Dark tpl)) as [Hcd Hcdk].
  destruct (extractVars_regular (match_group1 Root w)) as [Hur Hurk].
  destruct (extractVars_regular (match_group1 Dark w)) as [Hud Hudk].
  fold (coreRootVars tpl) in Hcr, Hcrk. fold (coreDarkVars tpl) in Hcd, Hcdk.
  fold (userRootVars w) in Hur, Hurk. fold (userDarkVars w) in Hud, Hudk.
  unfold darkBlockReadBack, mergedRootBlock, mergedDarkBlock in *.
  set (mr := spread2 (coreRootVars tpl) (userRootVars w)) in *.
  set (md := spread2 (coreDarkVars tpl) (userDarkVars w)) in *.
  assert (Hmd : forallb regular_entry md = true)
    by now apply spread2_regular.
  assert (Hmdk : NoDup (keys md)) by now apply NoDup_keys_spread2.
  change (js ":root") with (selector_text Root) in *.
  change (js ".dark") with (selector_text Dark) in *.
  rewrite !buildBlock_block_text in *.
  destruct (block_text_ends Root [ch " "] (block_body mr))
    as (c & t & Er & _).
  change (c :: t ++ [ch "}"]) with ((c :: t) ++ [ch "}"]) in Er.
  unfold userDarkVars at 1.
  replace (match_group1 Dark
             (block_text Root [ch " "] (block_body mr)
              ++ LF :: LF :: block_text Dark [ch " "] (block_body md)))
    with (block_body md).
  - rewrite extractVars_block_body
      by (assumption || now apply regular_plain_valid).
    subst md. now rewrite spread2_idem.
  - rewrite (match_group1_at Dark _ 0). rewrite Er in *.
    rewrite block_regex_at_past_closed by assumption.
    rewrite !block_regex_at_LF.
    rewrite <- (app_nil_r (block_text Dark [ch " "] (block_body md))).
    rewrite block_regex_at_block; [reflexivity | reflexivity |].
    apply block_body_no_close; [assumption|].
    apply (merged_values_no_close Dark).
Qed.

(** C1, as the code has it: a second run on the output of a run gives the
    same bytes when it reads back what the first run wrote.  The template
    is fit ([template_ok]): its two named blocks are closed and hold no
    import, and the mapping block holds no match of the two single-block
    patterns and not the keyword of the base layer.  The first run is fit
    ([run_ok]): the import pattern takes every collected import line from
    end to end, the leftover text holds no line that STEP 1 collects and
    no match of the import pattern, no merged [:root] value holds a
    comment, the merged [.dark] block is read back from the two merged
    blocks as the output holds them, and these do not hold the keyword of
    the base layer. *)
Theorem merge_twice_same_output (tpl cssContent : str) :
  template_ok tpl = true ->
  run_ok tpl cssContent = true ->
  finalCss tpl (finalCss tpl cssContent) = finalCss tpl cssContent.
Proof.
  intros Htpl Hrun.
  destruct (run_ok_facts tpl cssContent Hrun)
    as (Himp & HL & Hrp & Hdark & HRl & HDl).
  set (w := workingContent0 cssContent) in *.
  destruct (extractVars_regular (match_group1 Root tpl)) as [Hcr Hcrk].
  destruct (extractVars_regular (match_group1 Dark tpl)) as [Hcd Hcdk].
  destruct (extractVars_regular (match_group1 Root w)) as [Hur Hurk].
  destruct (extractVars_regular (match_group1 Dark w)) as [Hud Hudk].
  fold (coreRootVars tpl) in Hcr, Hcrk. fold (coreDarkVars tpl) in Hcd, Hcdk.
  fold (userRootVars w) in Hur, Hurk. fold (userDarkVars w) in Hud, Hudk.
  rewrite (finalCss_assemble tpl cssContent). fold w.
  unfold darkBlockReadBack, mergedRootBlock, mergedDarkBlock in *.
  change (js ":root") with (selector_text Root) in *.
  change (js ".dark") with (selector_text Dark) in *.
  rewrite !buildBlock_block_text.
  etransitivity.
  { apply (finalCss_output tpl Htpl (importLines cssContent)
             (spread2 (coreRootVars tpl) (userRootVars w))
             (spread2 (coreDarkVars tpl) (userDarkVars w))
             (stripOldSections w)).
    - exact Himp.
    - apply importLines_one_line.
    - intros req Hreq. now apply importLines_required.
    - exact HL.
    - unfold stripOldSections. apply trim_idem.
    - now apply spread2_regular.
    - exact Hrp.
    - apply (merged_values_no_close Root).
    - now apply NoDup_keys_spread2.
    - now apply spread2_regular.
    - apply (merged_values_no_close Dark).
    - exact Hdark.
    - exact HRl.
    - exact HDl. }
  change (js ":root") with (selector_text Root).
  rewrite spread2_idem by assumption.
  now rewrite !buildBlock_block_text.
Qed.

Lemma merge_twice_same_output_witness :
  let css := js "@import 'fonts.css';
:root {
  --primary: red;
  --logo: url(logo.dark.png);
}
.dark { --primary: black; }
" ++ js ".btn { color: var(--primary); }" ++ [13%N; LF]
     ++ js ":root { --later: 2; }" ++ [13%N; LF] in
  finalCss sample_template (finalCss sample_template css)
  = finalCss sample_template css.
Proof.
  intros css.
  apply (merge_twice_same_output sample_template css);
    vm_compute; reflexivity.
Defined.

(** C1 at three files on which the second run reads the output of the
    first otherwise than the first run wrote it.  A value in which
    removing a comment leaves the opening of another one: the second run
    removes that one as well.  A value of the [:root] block that holds
    [.dark {]: in the output the [:root] block comes first, the [.dark]
    pattern matches there, and the variable of the user's [.dark] block is
    lost.  A value that holds the keyword of the base layer: the second
    run looks for the base-layer block from there, does not strip the
    block of the template, and writes it once more as leftover text. *)
Lemma merge_twice_counterexample :
  let css2 := js ":root {
  --a: 1 //* x */* y */;
}" in
  let css3 := js ".dark { --b: 1; }
:root { --a: .dark {; }" in
  let css4 := js ":root { --a: @layer base; }" in
  finalCss sample_template (finalCss sample_template css2)
  <> finalCss sample_template css2
  /\ finalCss sample_template (finalCss sample_template css3)
     <> finalCss sample_template css3
  /\ get (js "--b") (userDarkVars (workingContent0 css3)) = Some (js "1")
  /\ get (js "--b")
       (userDarkVars (workingContent0 (finalCss sample_template css3)))
     = None
  /\ finalCss sample_template (finalCss sample_template css4)
     <> finalCss sample_template css4
  /\ leftover css4 = []
  /\ leftover (finalCss sample_template css4) = coreLayerBase sample_template.
Proof.
  repeat split; try (vm_compute; reflexivity); vm_compute; discriminate.
Qed.

(** On these files the conditions of [run_ok] hold exactly when the second
    run gives the same bytes: a leftover text with CRLF line ends, a value
    that holds [.dark] without a block after it, a value that holds
    [.dark {] in a file without a [.dark] block, and a later block inside
    the base layer on one side; the three files of the counterexample, an
    indented import, an import that is not closed on its line and an
    import that a strip leaves at the start of a line on the other. *)
Example run_ok_on_samples :
  let same css :=
    str_eqb (finalCss sample_template (finalCss sample_template css))
      (finalCss sample_template css) in
  let samples :=
    [ js ".a { color: red; }" ++ [13%N; LF] ++ js ".b { color: blue; }";
      js ":root { --logo: url(logo.dark.png); }
.dark { --logo: url(logo.png); }";
      js ":root { --a: .dark {; }";
      js ":root { --a: 1; }
@layer base {
  :root { --b: 2; }
}";
      js ":root {
  --a: 1 //* x */* y */;
}";
      js ".dark { --b: 1; }
:root { --a: .dark {; }";
      js ":root { --a: @layer base; }";
      js "  @import 'a.css';
.x { color: red; }";
      js "@import url('theme.css')
  screen;
.btn { color: red; }";
      js ":root { --a: 1; }@import 'x.css';" ] in
  map (run_ok sample_template) samples
  = [true; true; true; true; false; false; false; false; false; false]
  /\ map same samples = map (run_ok sample_template) samples.
Proof. vm_compute. split; reflexivity. Qed.

(** * The rest of the engine and the other modules *)

(** ** More on the variable extractor *)

(** X1: whatever the block text, the extracted map lists no key twice, every
    key is two dashes and a non-empty name of name characters, and every
    value is trimmed and holds no line terminator. *)
Theorem extractVars_entries_well_formed (block : str) :
  NoDup (keys (extractVars block))
  /\ forall k v, In (k, v) (extractVars block) ->
       (exists name, k = js "--" ++ name /\ name <> []
                     /\ forallb is_name name = true)
       /\ trim v = v
       /\ forallb (fun c => negb (is_lt c)) v = true.
Proof.
  destruct (extractVars_regular block) as [Hreg Hnd]. split; [assumption|].
  intros k v Hin. rewrite forallb_forall in Hreg. specialize (Hreg _ Hin).
  unfold regular_entry in Hreg. cbn [fst snd] in Hreg.
  apply andb_true_iff in Hreg as [Hreg Hlt].
  apply andb_true_iff in Hreg as [Hk Ht].
  apply valid_key_shape in Hk as (c & name & -> & Hname).
  repeat split.
  - exists (c :: name). repeat split; [discriminate | assumption].
  - now apply str_eqb_eq.
  - assumption.
Qed.

Lemma get_set_same (k v : str) (m : Record) : get k (set k v m) = Some v.
Proof.
  induction m as [|[k' v'] m IH]; cbn [set get].
  - now rewrite str_eqb_refl.
  - destruct (str_eqb k k') eqn:E; cbn [get]; rewrite E;
      [reflexivity | exact IH].
Qed.

Lemma extractVars_app (a b : str) :
  extractVars (a ++ LF :: b)
  = fold_left extractVars_step (map strip_line (split_nl b)) (extractVars a).
Proof.
  unfold extractVars. now rewrite split_nl_app, map_app, fold_left_app.
Qed.

(** X2: a declaration line after any block text sets its variable: the key
    keeps the place it had, or goes last when it is new, and its value is
    the one of this last line. *)
Theorem extractVars_later_declaration_wins (block : str) (kv : str * str) :
  valid_entry kv = true ->
  extractVars (block ++ LF :: declaration kv)
  = set (fst kv) (snd kv) (extractVars block)
  /\ get (fst kv) (extractVars (block ++ LF :: declaration kv))
     = Some (snd kv).
Proof.
  intros Hv.
  assert (E : extractVars (block ++ LF :: declaration kv)
              = set (fst kv) (snd kv) (extractVars block)).
  { rewrite extractVars_app.
    rewrite (split_nl_one_line _ (declaration_one_line kv Hv)).
    cbn [map fold_left]. now apply extractVars_step_declaration. }
  split; [exact E|]. rewrite E. apply get_set_same.
Qed.

Lemma extractVars_later_declaration_wins_witness :
  extractVars (js "--a: 1;" ++ LF :: declaration (js "--a", js "3"))
  = [(js "--a", js "3")].
Proof.
  destruct (extractVars_later_declaration_wins (js "--a: 1;")
              (js "--a", js "3") eq_refl) as [E _].
  rewrite E. reflexivity.
Defined.

(** ** A file without a section of its own *)

Lemma spread2_nil_r (t : Record) : NoDup (keys t) -> spread2 t [] = t.
Proof.
  intros Ht. unfold spread2. cbn [spread fold_left]. now apply spread_nil.
Qed.

(** X3: when the pattern of a selector has no match in the working text, the
    merged block of that selector is the block of the template's own
    variables, and replacing the pattern leaves the text as it is. *)
Theorem missing_section_gives_template_block
    (tpl workingContent : str) (k : selector) :
  block_regex_exec k workingContent = None ->
  match k with
  | Root => mergedRootBlock tpl workingContent
            = buildBlock (js ":root") (coreRootVars tpl)
  | Dark => mergedDarkBlock tpl workingContent
            = buildBlock (js ".dark") (coreDarkVars tpl)
  end
  /\ replace_block_regex k workingContent = workingContent.
Proof.
  intros Hnone. split; [|now apply replace_block_regex_none].
  destruct k.
  - unfold mergedRootBlock, userRootVars, match_group1. rewrite Hnone.
    change (extractVars []) with (@nil (str * str)).
    rewrite spread2_nil_r; [reflexivity|].
    apply (extractVars_regular _).
  - unfold mergedDarkBlock, userDarkVars, match_group1. rewrite Hnone.
    change (extractVars []) with (@nil (str * str)).
    rewrite spread2_nil_r; [reflexivity|].
    apply (extractVars_regular _).
Qed.

Lemma missing_section_gives_template_block_witness :
  mergedDarkBlock sample_template (js ":root { --a: 1; }")
  = buildBlock (js ".dark") (coreDarkVars sample_template).
Proof.
  exact (proj1 (missing_section_gives_template_block sample_template
                  (js ":root { --a: 1; }") Dark eq_refl)).
Defined.

(** ** More on the merge *)

Lemma user_value_self (t : Record) :
  NoDup (keys t) -> map (user_value t) t = t.
Proof.
  intros Ht. rewrite <- (map_id t) at 3. apply map_ext_in.
  intros [k v] Hin. unfold user_value. cbn [fst snd].
  now rewrite (In_get_Some k v t Ht Hin).
Qed.

Lemma filter_none {A : Type} (f : A -> bool) (l : list A) :
  (forall x, In x l -> f x = false) -> filter f l = [].
Proof.
  induction l as [|x l IH]; intros H; [reflexivity|]. cbn [filter].
  rewrite (H x (or_introl eq_refl)). apply IH. intros y Hy. apply H. now right.
Qed.

Lemma only_user_self (t : Record) : only_user (keys t) t = [].
Proof.
  unfold only_user. apply filter_none. intros kv Hin. apply negb_false_iff.
  destruct (includes (keys t) (fst kv)) eqn:E; [reflexivity|].
  apply includes_not_In in E. exfalso. apply E. unfold keys. now apply in_map.
Qed.

(** X4: the merge keeps what it has merged: merging the template again with
    a merged map gives that map; an empty user map gives the template
    map, an empty template map gives the user map, and a map merged with
    itself is that map. *)
Theorem merge_again_changes_nothing (templateMap userMap : Record) :
  uniqueKeys templateMap = true ->
  uniqueKeys userMap = true ->
  spread2 templateMap (spread2 templateMap userMap)
  = spread2 templateMap userMap
  /\ spread2 templateMap [] = templateMap
  /\ spread2 [] userMap = userMap
  /\ spread2 templateMap templateMap = templateMap.
Proof.
  intros Ht Hu. apply uniqueKeys_NoDup in Ht, Hu. repeat split.
  - now apply spread2_idem.
  - now apply spread2_nil_r.
  - unfold spread2. cbn [spread fold_left]. now apply spread_nil.
  - rewrite (spread2_closed _ _ Ht Ht), user_value_self, only_user_self
      by assumption.
    apply app_nil_r.
Qed.

Lemma merge_again_changes_nothing_witness :
  let t := [(js "--a", js "9"); (js "--c", js "3")] in
  let u := [(js "--custom", js "1px"); (js "--a", js "1")] in
  spread2 t (spread2 t u)
  = [(js "--a", js "1"); (js "--c", js "3"); (js "--custom", js "1px")].
Proof.
  intros t u.
  rewrite (proj1 (merge_again_changes_nothing t u eq_refl eq_refl)).
  reflexivity.
Defined.

(** ** More on the import lines *)

Lemma importLines_entries (cssContent l : str) :
  In l (importLines cssContent) ->
  trim l = l /\ startsWith l (js "@import") = true.
Proof.
  unfold importLines.
  rewrite fold_import_lines, required_appended. cbn [app].
  intros Hin. apply in_app_or in Hin as [Hin | Hin].
  - apply filter_In in Hin as [Hin Hs]. split; [|assumption].
    apply in_map_iff in Hin as (x & <- & _). apply trim_idem.
  - apply filter_In in Hin as [Hin _].
    destruct Hin as [<- | [<- | []]]; split; vm_compute; reflexivity.
Qed.

Lemma importLines_not_nil (cssContent : str) : importLines cssContent <> [].
Proof.
  intros E.
  pose proof (importLines_required cssContent import_tailwindcss
                (or_introl eq_refl)) as Hin.
  rewrite E in Hin. destruct Hin.
Qed.

(** X5: whatever the file, the list of import lines holds the two required
    imports, and each of its lines is trimmed and starts with [@import];
    so the list is never empty. *)
Theorem importLines_invariant (cssContent : str) :
  (forall req, In req REQUIRED_IMPORTS -> In req (importLines cssContent))
  /\ (forall l, In l (importLines cssContent) ->
        trim l = l /\ startsWith l (js "@import") = true)
  /\ importLines cssContent <> [].
Proof.
  split; [intros req; apply importLines_required|].
  split; [intros l; apply importLines_entries | apply importLines_not_nil].
Qed.

(** ** The shape of the output *)

Lemma join_head (sep x : str) (rest : list str) :
  exists r, join sep (x :: rest) = x ++ r.
Proof.
  destruct rest as [|y rest].
  - exists []. cbn [join]. now rewrite app_nil_r.
  - exists (sep ++ join sep (y :: rest)). apply join_cons2.
Qed.

Lemma trimEnd_nonws (c : char) (s : str) :
  is_ws c = false -> trimEnd (c :: s) = c :: trimEnd s.
Proof. intros H. exact (trimEnd_keep [] s c H). Qed.

Lemma trim_import_head (rest : str) :
  trim (js "@import" ++ rest) = js "@import" ++ trimEnd rest.
Proof.
  change (js "@import")
    with [ch "@"; ch "i"; ch "m"; ch "p"; ch "o"; ch "r"; ch "t"].
  cbn [app]. unfold trim. rewrite trimStart_nonws by reflexivity.
  now rewrite !trimEnd_nonws by reflexivity.
Qed.

(** The text of the output before trimming starts with the first import
    line. *)
Lemma output_starts_with_import (imports : list str) (others : list str) :
  (forall l, In l imports -> startsWith l (js "@import") = true) ->
  imports <> [] ->
  exists r,
    join [LF; LF] (filterBoolean (join [LF] imports :: others))
    = js "@import" ++ r.
Proof.
  intros Hall Hne. destruct imports as [|l0 ls]; [contradiction|].
  pose proof (Hall l0 (or_introl eq_refl)) as H0.
  apply startsWith_prefix in H0 as [t ->].
  destruct (join_head [LF] (js "@import" ++ t) ls) as [r1 E1].
  rewrite E1.
  change (js "@import")
    with [ch "@"; ch "i"; ch "m"; ch "p"; ch "o"; ch "r"; ch "t"].
  cbn [app]. rewrite filterBoolean_cons.
  destruct (join_head [LF; LF]
              (ch "@" :: ch "i" :: ch "m" :: ch "p" :: ch "o" :: ch "r"
                 :: ch "t" :: t ++ r1) (filterBoolean others)) as [r2 E2].
  exists (t ++ r1 ++ r2). etransitivity; [exact E2|].
  cbn [app]. now rewrite <- app_assoc.
Qed.

(** X6: whatever the template and the file, the text written back starts with
    an [@import] line and is a trimmed text followed by one line feed. *)
Theorem finalCss_starts_with_import_ends_with_LF (tpl cssContent : str) :
  exists body,
    finalCss tpl cssContent = body ++ [LF]
    /\ trim body = body
    /\ startsWith body (js "@import") = true.
Proof.
  unfold finalCss.
  set (others := [ []; clyroBlock tpl (workingContent0 cssContent); [];
                   stripOldSections (workingContent0 cssContent) ]).
  destruct (output_starts_with_import (importLines cssContent) others
              (fun l Hl => proj2 (importLines_entries cssContent l Hl))
              (importLines_not_nil cssContent)) as [r E].
  cbv zeta. fold others. rewrite E.
  eexists. split; [reflexivity|]. split; [apply trim_idem|].
  rewrite trim_import_head. apply startsWith_app.
Qed.

(** ** The output and the detection of the stylesheet *)

Lemma str_includes_app (a p b : str) : str_includes (a ++ p ++ b) p = true.
Proof.
  unfold str_includes. destruct (indexOf (a ++ p ++ b) p) eqn:E; [reflexivity|].
  pose proof (indexOf_None _ _ E (length a)) as H.
  rewrite skipn_app_exact, startsWith_app in H. discriminate.
Qed.

Lemma join_In_split (sep x : str) (parts : list str) :
  In x parts -> exists a b, join sep parts = a ++ x ++ b.
Proof.
  induction parts as [|y parts IH]; [intros []|].
  intros [-> | Hin].
  - destruct (join_head sep x parts) as [r ->]. now exists [], r.
  - destruct (IH Hin) as (a & b & E).
    destruct parts as [|z parts]; [destruct Hin|].
    rewrite join_cons2, E. exists (y ++ sep ++ a), b.
    now rewrite <- !app_assoc.
Qed.

(** Every required import stands in the output as it is. *)
Lemma finalCss_holds_required (tpl cssContent req : str) :
  In req REQUIRED_IMPORTS ->
  exists a b, finalCss tpl cssContent = a ++ req ++ b.
Proof.
  intros Hreq. unfold finalCss. cbv zeta.
  set (others := [ []; clyroBlock tpl (workingContent0 cssContent); [];
                   stripOldSections (workingContent0 cssContent) ]).
  set (ci := join [LF] (importLines cssContent)).
  destruct (join_In_split [LF] req (importLines cssContent)
              (importLines_required cssContent req Hreq)) as (a1 & b1 & E1).
  fold ci in E1.
  assert (Hreq_shape : exists t, req = ch "@" :: t ++ [ch ";"]).
  { destruct Hreq as [<- | [<- | []]]; eexists;
      [ change import_tailwindcss
          with (ch "@" :: (js "import " ++ dq ++ js "tailwindcss" ++ dq)
                  ++ [ch ";"])
      | change import_tw_animate_css
          with (ch "@" :: (js "import " ++ dq ++ js "tw-animate-css" ++ dq)
                  ++ [ch ";"]) ]; reflexivity. }
  destruct Hreq_shape as [t ->].
  assert (Hci : ci <> []).
  { rewrite E1. destruct a1; discriminate. }
  assert (Hin : In ci (filterBoolean (ci :: others))).
  { apply filter_In. split; [now left|].
    destruct ci; [contradiction | reflexivity]. }
  destruct (join_In_split [LF; LF] ci _ Hin) as (a2 & b2 & E2).
  rewrite E2, E1.
  replace (a2 ++ (a1 ++ (ch "@" :: t ++ [ch ";"]) ++ b1) ++ b2)
    with ((a2 ++ a1) ++ (ch "@" :: t ++ [ch ";"]) ++ (b1 ++ b2))
    by now rewrite <- !app_assoc.
  destruct (trim_keeps (a2 ++ a1) t (b1 ++ b2) (ch "@") (ch ";")
              eq_refl eq_refl) as (a & b & E).
  rewrite E. exists a, (b ++ [LF]). now rewrite <- !app_assoc.
Qed.

Lemma tailwind_marker_required (a b : str) :
  tailwind_marker (a ++ import_tailwindcss ++ b) = true.
Proof.
  unfold tailwind_marker.
  change import_tailwindcss
    with ((js "@import " ++ dq ++ js "tailwindcss" ++ dq) ++ [ch ";"]).
  rewrite <- (app_assoc _ [ch ";"] b).
  rewrite str_includes_app. now rewrite orb_true_r.
Qed.

(** X7: whatever the template and the file, the text written back passes the
    test by which [getTailwindCssFile] knows a Tailwind stylesheet: it
    holds the required import of [tailwindcss]. *)
Theorem finalCss_has_tailwind_marker (tpl cssContent : str) :
  tailwind_marker (finalCss tpl cssContent) = true.
Proof.
  destruct (finalCss_holds_required tpl cssContent import_tailwindcss
              (or_introl eq_refl)) as (a & b & E).
  rewrite E. apply tailwind_marker_required.
Qed.

(** ** The run on a file that exists *)

Lemma injectclyroTheme_writes
    (tpl : str) (cssFilePath : string) (w : World) (cssContent : str) :
  files w cssFilePath = Some cssContent ->
  readOnly w cssFilePath = false ->
  injectclyroTheme tpl cssFilePath w
  = (Resolved,
     {| files := fun q => if String.eqb q cssFilePath
                          then Some (finalCss tpl cssContent) else files w q;
        readOnly := readOnly w;
        partialWrite := partialWrite w;
        console := console w ++ [(Info, SmartMerged cssFilePath)] |}).
Proof.
  intros Hfile Hrw. unfold injectclyroTheme, existsSync, writeFile.
  now rewrite Hfile, Hrw.
Qed.

(** X8: on a file that exists and can be written, the promise resolves, the
    file holds the merged text of its former content, no other file
    changes, and the console gets the line that names the file. *)
Theorem existing_file_gets_the_merge
    (tpl : str) (cssFilePath : string) (w : World) (cssContent : str) :
  files w cssFilePath = Some cssContent ->
  readOnly w cssFilePath = false ->
  let (result, w') := injectclyroTheme tpl cssFilePath w in
  result = Resolved
  /\ files w' cssFilePath = Some (finalCss tpl cssContent)
  /\ (forall q, q <> cssFilePath -> files w' q = files w q)
  /\ readOnly w' = readOnly w
  /\ console w' = console w ++ [(Info, SmartMerged cssFilePath)].
Proof.
  intros Hfile Hrw.
  rewrite (injectclyroTheme_writes tpl cssFilePath w cssContent Hfile Hrw).
  cbn [files readOnly console]. rewrite String.eqb_refl. repeat split.
  intros q Hq. apply String.eqb_neq in Hq. now rewrite Hq.
Qed.

Lemma existing_file_gets_the_merge_witness :
  let w := {| files := fun p => if String.eqb p "src/index.css"
                                then Some (js ".x { color: red; }") else None;
              readOnly := fun _ => false;
              partialWrite := fun _ => None;
              console := [] |} in
  files (snd (injectclyroTheme sample_template "src/index.css" w))
    "src/index.css"
  = Some (finalCss sample_template (js ".x { color: red; }")).
Proof.
  intros w.
  pose proof (existing_file_gets_the_merge sample_template "src/index.css" w
                (js ".x { color: red; }") eq_refl eq_refl) as H.
  destruct (injectclyroTheme sample_template "src/index.css" w)
    as [result w'].
  exact (proj1 (proj2 H)).
Defined.




(** X11: after a run that has written the merged text to one of the files of
    the glob, the search for the Tailwind stylesheet does not come back
    empty-handed: it stops at that file or at an earlier one. *)
Theorem merged_file_is_found_as_stylesheet
    (path_resolve : string -> string -> string)
    (tpl : str) (cwd file : string) (cssFiles : list string)
    (w : World) (cssContent : str) :
  In file cssFiles ->
  files w (path_resolve cwd file) = Some cssContent ->
  readOnly w (path_resolve cwd file) = false ->
  let w' := snd (injectclyroTheme tpl (path_resolve cwd file) w) in
  getTailwindCssFile path_resolve w' cwd cssFiles <> Resolves None.
Proof.
  intros Hin Hfile Hrw w'. subst w'.
  rewrite (injectclyroTheme_writes tpl _ w cssContent Hfile Hrw).
  cbn [snd]. set (w' := {| files := _ |}).
  assert (Hw' : files w' (path_resolve cwd file)
                = Some (finalCss tpl cssContent)).
  { subst w'. cbn [files]. now rewrite String.eqb_refl. }
  clearbody w'.
  induction cssFiles as [|f fs IH]; [destruct Hin|].
  cbn [getTailwindCssFile].
  destruct (files w' (path_resolve cwd f)) as [content|] eqn:Ef;
    [|discriminate].
  destruct (tailwind_marker content) eqn:Em; [discriminate|].
  destruct Hin as [-> | Hin]; [|now apply IH].
  rewrite Hw' in Ef. injection Ef as <-.
  destruct (finalCss_holds_required tpl cssContent import_tailwindcss
              (or_introl eq_refl)) as (a & b & E).
  now rewrite E, tailwind_marker_required in Em.
Qed.

Lemma merged_file_is_found_as_stylesheet_witness :
  let resolve := fun cwd file => String.append cwd (String.append "/" file) in
  let w := {| files := fun p => if String.eqb p "app/src/index.css"
                                then Some (js ".x { color: red; }") else None;
              readOnly := fun _ => false;
              partialWrite := fun _ => None;
              console := [] |} in
  getTailwindCssFile resolve
    (snd (injectclyroTheme sample_template "app/src/index.css" w))
    "app" ["src/index.css"%string]
  <> Resolves None.
Proof.
  intros resolve w.
  exact (merged_file_is_found_as_stylesheet resolve sample_template
           "app" "src/index.css" ["src/index.css"%string] w
           (js ".x { color: red; }") (or_introl eq_refl) eq_refl eq_refl).
Defined.

(** ** The two merged blocks in the output *)

Lemma buildBlock_ends (first : char) (selector : str) (vars : Record) :
  exists t,
    buildBlock (first :: selector) vars = first :: t ++ [ch "}"].
Proof.
  unfold buildBlock. change (js "}") with [ch "}"].
  exists (selector ++ js " {" ++ [LF]
          ++ join [LF]
               (map (fun kv => js "  " ++ fst kv ++ js ": " ++ snd kv ++ js ";")
                  vars)
          ++ [LF]).
  cbn [app]. rewrite <- !app_assoc. cbn [app]. rewrite <- !app_assoc.
  reflexivity.
Qed.

(** In the text of the managed sections the block of [.dark] comes after
    the block of [:root] and a blank line. *)
Lemma clyroBlock_root_dark (themeInline rootBlock darkBlock layerBase : str) :
  rootBlock <> [] -> darkBlock <> [] ->
  exists a b,
    join [LF; LF]
      (filterBoolean
         [ themeInline; []; rootBlock; []; darkBlock; []; layerBase ])
    = a ++ (rootBlock ++ [LF; LF] ++ darkBlock) ++ b.
Proof.
  intros Hr Hd.
  destruct rootBlock as [|r0 r]; [contradiction|].
  destruct darkBlock as [|d0 d]; [contradiction|].
  destruct themeInline as [|t0 t], layerBase as [|l0 l];
    cbn [filterBoolean filter join].
  - exists [], []. now rewrite app_nil_r.
  - exists [], ([LF; LF] ++ l0 :: l). cbn [app]. now rewrite <- !app_assoc.
  - exists ((t0 :: t) ++ [LF; LF]), []. rewrite app_nil_r.
    now rewrite <- !app_assoc.
  - exists ((t0 :: t) ++ [LF; LF]), ([LF; LF] ++ l0 :: l).
    now rewrite <- !app_assoc.
Qed.

(** The two merged blocks stand in the output, the second one a blank
    line after the first. *)
Lemma finalCss_blocks (tpl cssContent : str) :
  let workingContent := workingContent0 cssContent in
  exists a b,
    finalCss tpl cssContent
    = a ++ mergedRootBlock tpl workingContent ++ [LF; LF]
        ++ mergedDarkBlock tpl workingContent ++ b.
Proof.
  intros workingContent. unfold finalCss. cbv zeta. fold workingContent.
  set (R := mergedRootBlock tpl workingContent).
  set (D := mergedDarkBlock tpl workingContent).
  destruct (buildBlock_ends (ch ":") (js "root")
              (spread2 (coreRootVars tpl) (userRootVars workingContent)))
    as [tr Er].
  destruct (buildBlock_ends (ch ".") (js "dark")
              (spread2 (coreDarkVars tpl) (userDarkVars workingContent)))
    as [td Ed].
  change (buildBlock (ch ":" :: js "root") _) with R in Er.
  change (buildBlock (ch "." :: js "dark") _) with D in Ed.
  destruct (clyroBlock_root_dark (coreThemeInline tpl) R D (coreLayerBase tpl))
    as (a1 & b1 & E1); [rewrite Er; discriminate | rewrite Ed; discriminate |].
  change (join [LF; LF] (filterBoolean [coreThemeInline tpl; []; R; []; D; [];
                                         coreLayerBase tpl]))
    with (clyroBlock tpl workingContent) in E1.
  set (cb := clyroBlock tpl workingContent) in *.
  assert (Hin : In cb (filterBoolean
                         [ join [LF] (importLines cssContent); []; cb; [];
                           stripOldSections workingContent ])).
  { apply filter_In. split; [cbn; auto|].
    rewrite E1, Er. now destruct a1. }
  destruct (join_In_split [LF; LF] cb _ Hin) as (a2 & b2 & E2).
  rewrite E2, E1.
  assert (Emid : R ++ [LF; LF] ++ D
                 = ch ":" :: (tr ++ [ch "}"] ++ [LF; LF] ++ ch "." :: td)
                     ++ [ch "}"]).
  { rewrite Er, Ed. cbn [app]. now rewrite <- !app_assoc. }
  rewrite Emid.
  replace (a2 ++ (a1 ++ (ch ":" :: (tr ++ [ch "}"] ++ [LF; LF] ++ ch "." :: td)
                           ++ [ch "}"]) ++ b1) ++ b2)
    with ((a2 ++ a1)
          ++ (ch ":" :: (tr ++ [ch "}"] ++ [LF; LF] ++ ch "." :: td)
                ++ [ch "}"])
          ++ (b1 ++ b2))
    by now rewrite <- !app_assoc.
  destruct (trim_keeps (a2 ++ a1) (tr ++ [ch "}"] ++ [LF; LF] ++ ch "." :: td)
              (b1 ++ b2) (ch ":") (ch "}") eq_refl eq_refl) as (a & b & E).
  rewrite E, <- Emid. exists a, (b ++ [LF]). now rewrite <- !app_assoc.
Qed.

(** X12: whatever the template and the file, the text written back holds
    the merged block of [:root], a blank line, and the merged block of
    [.dark]. *)
Theorem finalCss_holds_merged_blocks (tpl cssContent : str) :
  exists a b,
    finalCss tpl cssContent
    = a ++ mergedRootBlock tpl (workingContent0 cssContent) ++ [LF; LF]
        ++ mergedDarkBlock tpl (workingContent0 cssContent) ++ b.
Proof. exact (finalCss_blocks tpl cssContent). Qed.

(** ** A file without managed sections *)

Lemma free_of_indexOf (pat s : str) :
  free_of pat s = true -> indexOf s pat = None.
Proof. unfold free_of. now destruct (indexOf s pat). Qed.

(** X13: when the working text of a file, that is its text without the import
    lines, trimmed, has no match of the two block patterns and holds
    neither [@theme inline] nor [@layer base], the leftover text is that
    working text: nothing more is taken from the file. *)
Theorem file_without_sections_keeps_its_text (cssContent : str) :
  block_regex_exec ROOT_REGEX (workingContent0 cssContent) = None ->
  block_regex_exec DARK_REGEX (workingContent0 cssContent) = None ->
  free_of (js "@theme inline") (workingContent0 cssContent) = true ->
  free_of (js "@layer base") (workingContent0 cssContent) = true ->
  leftover cssContent = workingContent0 cssContent.
Proof.
  intros Hr Hd Ht Hl. unfold leftover, stripOldSections.
  rewrite (replace_block_regex_none _ _ Hr), (replace_block_regex_none _ _ Hd).
  rewrite (extractBlock_absent _ _ (free_of_indexOf _ _ Ht)).
  rewrite (extractBlock_absent _ _ (free_of_indexOf _ _ Hl)).
  rewrite !replaceStr_empty. unfold workingContent0. apply trim_idem.
Qed.

Lemma file_without_sections_keeps_its_text_witness :
  let css := js "@import 'a.css';" ++ [LF] ++ js ".btn { color: red; }"
             ++ [LF; LF] ++ js ".card { margin: 0; }" ++ [LF] in
  leftover css
  = js ".btn { color: red; }" ++ [LF; LF] ++ js ".card { margin: 0; }".
Proof.
  intros css.
  rewrite (file_without_sections_keeps_its_text css eq_refl eq_refl eq_refl
             eq_refl).
  reflexivity.
Defined.

(** ** The empty file *)

(** X14: on an empty file the merged blocks are the blocks of the template's
    own variables, and the text written back is the two required
    imports, a blank line and the managed sections, trimmed, and a line
    feed. *)
Theorem empty_file_gets_imports_and_template (tpl : str) :
  mergedRootBlock tpl [] = buildBlock (js ":root") (coreRootVars tpl)
  /\ mergedDarkBlock tpl [] = buildBlock (js ".dark") (coreDarkVars tpl)
  /\ finalCss tpl []
     = trim (import_tailwindcss ++ [LF] ++ import_tw_animate_css
             ++ [LF; LF] ++ clyroBlock tpl [])
       ++ [LF].
Proof.
  assert (Hr : mergedRootBlock tpl []
               = buildBlock (js ":root") (coreRootVars tpl)).
  { unfold mergedRootBlock.
    change (userRootVars []) with (@nil (str * str)).
    rewrite spread2_nil_r; [reflexivity | apply (extractVars_regular _)]. }
  assert (Hd : mergedDarkBlock tpl []
               = buildBlock (js ".dark") (coreDarkVars tpl)).
  { unfold mergedDarkBlock.
    change (userDarkVars []) with (@nil (str * str)).
    rewrite spread2_nil_r; [reflexivity | apply (extractVars_regular _)]. }
  split; [exact Hr|]. split; [exact Hd|].
  unfold finalCss. cbv zeta.
  change (workingContent0 []) with (@nil char).
  change (stripOldSections []) with (@nil char).
  change (importLines []) with REQUIRED_IMPORTS.
  destruct (buildBlock_ends (ch ":") (js "root")
              (spread2 (coreRootVars tpl) (userRootVars []))) as [tr Er].
  destruct (buildBlock_ends (ch ".") (js "dark")
              (spread2 (coreDarkVars tpl) (userDarkVars []))) as [td Ed].
  destruct (clyroBlock_root_dark (coreThemeInline tpl)
              (mergedRootBlock tpl []) (mergedDarkBlock tpl [])
              (coreLayerBase tpl)) as (a & b & E).
  { unfold mergedRootBlock. change (js ":root") with (ch ":" :: js "root").
    rewrite Er. discriminate. }
  { unfold mergedDarkBlock. change (js ".dark") with (ch "." :: js "dark").
    rewrite Ed. discriminate. }
  change (join [LF; LF] (filterBoolean _)) with (clyroBlock tpl []) in E.
  destruct (clyroBlock tpl []) as [|c0 cb] eqn:Ecb.
  - exfalso. unfold mergedRootBlock in E.
    change (js ":root") with (ch ":" :: js "root") in E. rewrite Er in E.
    destruct a; discriminate.
  - reflexivity.
Qed.

(** ** The search for the stylesheet *)

(** X15: when the search gives a file, it is the first of the files of the
    glob whose content holds one of the marks: the files before it were
    read and hold none. *)
Theorem getTailwindCssFile_gives_first_marked
    (path_resolve : string -> string -> string)
    (w : World) (cwd : string) (cssFiles : list string) (file : string) :
  getTailwindCssFile path_resolve w cwd cssFiles = Resolves (Some file) ->
  exists before after content,
    cssFiles = before ++ file :: after
    /\ files w (path_resolve cwd file) = Some content
    /\ tailwind_marker content = true
    /\ forall f, In f before ->
         exists c, files w (path_resolve cwd f) = Some c
                   /\ tailwind_marker c = false.
Proof.
  induction cssFiles as [|f fs IH]; cbn [getTailwindCssFile]; [discriminate|].
  destruct (files w (path_resolve cwd f)) as [content|] eqn:Ef;
    [|discriminate].
  destruct (tailwind_marker content) eqn:Em.
  - intros [= <-]. exists [], fs, content. repeat split; try assumption.
    intros g [].
  - intros H. destruct (IH H) as (before & after & c & -> & Hc & Hm & Hb).
    exists (f :: before), after, c. repeat split; try assumption.
    intros g [<- | Hg]; [now exists content | now apply Hb].
Qed.

Lemma getTailwindCssFile_gives_first_marked_witness :
  let resolve := fun cwd file => String.append cwd (String.append "/" file) in
  let w := {| files := fun p =>
                if String.eqb p "app/a.css" then Some (js ".x { }")
                else if String.eqb p "app/b.css"
                     then Some (js "@tailwind base;")
                     else None;
              readOnly := fun _ => false;
              partialWrite := fun _ => None;
              console := [] |} in
  exists before after content,
    ["a.css"; "b.css"; "c.css"]%string = before ++ "b.css"%string :: after
    /\ files w (resolve "app"%string "b.css"%string) = Some content
    /\ tailwind_marker content = true
    /\ forall f, In f before ->
         exists c, files w (resolve "app"%string f) = Some c
                   /\ tailwind_marker c = false.
Proof.
  intros resolve w.
  exact (getTailwindCssFile_gives_first_marked resolve w "app"
           ["a.css"; "b.css"; "c.css"]%string "b.css" eq_refl).
Defined.

(** ** The variables of the user in the output *)

Lemma spread2_keeps_user (t u : Record) (k v : str) :
  NoDup (keys t) -> NoDup (keys u) ->
  In (k, v) u -> In (k, v) (spread2 t u).
Proof.
  intros Ht Hu Hin. rewrite (spread2_closed t u Ht Hu).
  pose proof (In_get_Some k v u Hu Hin) as Hg.
  apply in_or_app.
  destruct (includes (keys t) k) eqn:E.
  - left. apply includes_In in E. unfold keys in E.
    apply in_map_iff in E as ([k' v'] & Ek & Hin'); cbn [fst] in Ek; subst k'.
    apply in_map_iff. exists (k, v'); split; [|assumption].
    unfold user_value; cbn [fst snd]. now rewrite Hg.
  - right. unfold only_user. apply filter_In; split; [assumption|].
    cbn [fst]. now rewrite E.
Qed.

Lemma buildBlock_holds_declaration (selector : str) (vars : Record)
    (kv : str * str) :
  In kv vars ->
  exists a b, buildBlock selector vars = a ++ declaration kv ++ b.
Proof.
  intros Hin. rewrite buildBlock_lines.
  destruct (join_In_split [LF] (declaration kv) (map declaration vars)
              (in_map declaration vars kv Hin)) as (a & b & E).
  rewrite E. exists ((selector ++ js " {") ++ LF :: a), (b ++ LF :: js "}").
  rewrite <- !app_assoc. cbn [app]. rewrite <- ?app_assoc. reflexivity.
Qed.

(** X24: every variable that the extractor reads from the block of a
    selector in the file stands in the merged block of that selector with
    the value of the file, whatever the template says; and so its line,
    two spaces, the key, a colon, a space, the value and a semicolon,
    stands in the text written back. *)
Theorem user_variable_stands_in_output
    (tpl cssContent : str) (sel : selector) (k v : str) :
  In (k, v)
    match sel with
    | Root => userRootVars (workingContent0 cssContent)
    | Dark => userDarkVars (workingContent0 cssContent)
    end ->
  (exists a b,
     match sel with
     | Root => mergedRootBlock tpl (workingContent0 cssContent)
     | Dark => mergedDarkBlock tpl (workingContent0 cssContent)
     end = a ++ declaration (k, v) ++ b)
  /\ exists a b, finalCss tpl cssContent = a ++ declaration (k, v) ++ b.
Proof.
  intros Hin.
  destruct (finalCss_blocks tpl cssContent) as (a0 & b0 & E0).
  cbv zeta in E0. set (workingContent := workingContent0 cssContent) in *.
  destruct sel.
  - destruct (buildBlock_holds_declaration (js ":root") _ (k, v)
                (spread2_keeps_user (coreRootVars tpl)
                   (userRootVars workingContent) k v
                   (proj2 (extractVars_regular _))
                   (proj2 (extractVars_regular _)) Hin)) as (a & b & E).
    fold (mergedRootBlock tpl workingContent) in E.
    split; [now exists a, b|].
    rewrite E0, E. eexists (a0 ++ a), _. rewrite <- !app_assoc. reflexivity.
  - destruct (buildBlock_holds_declaration (js ".dark") _ (k, v)
                (spread2_keeps_user (coreDarkVars tpl)
                   (userDarkVars workingContent) k v
                   (proj2 (extractVars_regular _))
                   (proj2 (extractVars_regular _)) Hin)) as (a & b & E).
    fold (mergedDarkBlock tpl workingContent) in E.
    split; [now exists a, b|].
    rewrite E0, E.
    eexists (a0 ++ mergedRootBlock tpl workingContent ++ [LF; LF] ++ a), _.
    rewrite <- !app_assoc. reflexivity.
Qed.

Lemma user_variable_stands_in_output_witness :
  let css :=
    js ":root {" ++ [LF] ++ js "  --primary: red;" ++ [LF] ++ js "}" in
  exists a b,
    finalCss sample_template css
    = a ++ declaration (js "--primary", js "red") ++ b.
Proof.
  intros css.
  exact (proj2 (user_variable_stands_in_output sample_template css Root
                  (js "--primary") (js "red") (or_introl eq_refl))).
Defined.

Lemma spread2_keeps_template (t u : Record) (k v : str) :
  NoDup (keys t) -> NoDup (keys u) ->
  In (k, v) t -> get k u = None -> In (k, v) (spread2 t u).
Proof.
  intros Ht Hu Hin Hg. rewrite (spread2_closed t u Ht Hu).
  apply in_or_app. left. apply in_map_iff. exists (k, v). split; [|assumption].
  unfold user_value. cbn [fst snd]. now rewrite Hg.
Qed.

(** X25: a variable of the template's block of a selector that the block
    of that selector in the file does not set stands in the merged block
    with the value of the template, and so its line stands in the text
    written back. *)
Theorem template_variable_stands_in_output
    (tpl cssContent : str) (sel : selector) (k v : str) :
  In (k, v)
    match sel with
    | Root => coreRootVars tpl
    | Dark => coreDarkVars tpl
    end ->
  get k
    match sel with
    | Root => userRootVars (workingContent0 cssContent)
    | Dark => userDarkVars (workingContent0 cssContent)
    end = None ->
  (exists a b,
     match sel with
     | Root => mergedRootBlock tpl (workingContent0 cssContent)
     | Dark => mergedDarkBlock tpl (workingContent0 cssContent)
     end = a ++ declaration (k, v) ++ b)
  /\ exists a b, finalCss tpl cssContent = a ++ declaration (k, v) ++ b.
Proof.
  intros Hin Hg.
  destruct (finalCss_blocks tpl cssContent) as (a0 & b0 & E0).
  cbv zeta in E0. set (workingContent := workingContent0 cssContent) in *.
  destruct sel.
  - destruct (buildBlock_holds_declaration (js ":root") _ (k, v)
                (spread2_keeps_template (coreRootVars tpl)
                   (userRootVars workingContent) k v
                   (proj2 (extractVars_regular _))
                   (proj2 (extractVars_regular _)) Hin Hg)) as (a & b & E).
    fold (mergedRootBlock tpl workingContent) in E.
    split; [now exists a, b|].
    rewrite E0, E. eexists (a0 ++ a), _. rewrite <- !app_assoc. reflexivity.
  - destruct (buildBlock_holds_declaration (js ".dark") _ (k, v)
                (spread2_keeps_template (coreDarkVars tpl)
                   (userDarkVars workingContent) k v
                   (proj2 (extractVars_regular _))
                   (proj2 (extractVars_regular _)) Hin Hg)) as (a & b & E).
    fold (mergedDarkBlock tpl workingContent) in E.
    split; [now exists a, b|].
    rewrite E0, E.
    eexists (a0 ++ mergedRootBlock tpl workingContent ++ [LF; LF] ++ a), _.
    rewrite <- !app_assoc. reflexivity.
Qed.

Lemma template_variable_stands_in_output_witness :
  let css :=
    js ":root {" ++ [LF] ++ js "  --primary: red;" ++ [LF] ++ js "}" in
  exists a b,
    finalCss sample_template css
    = a ++ declaration (js "--radius", js "0.5rem") ++ b.
Proof.
  intros css.
  exact (proj2 (template_variable_stands_in_output sample_template css Root
                  (js "--radius") (js "0.5rem")
                  (or_intror (or_introl eq_refl)) eq_refl)).
Defined.

(** ** The layout of the output *)

Lemma compactImports_head (cssContent : str) :
  exists r, join [LF] (importLines cssContent) = ch "@" :: r.
Proof.
  pose proof (importLines_not_nil cssContent) as Hne.
  destruct (importLines cssContent) as [|l0 ls] eqn:E; [contradiction|].
  assert (H0 : startsWith l0 (js "@import") = true).
  { apply (importLines_entries cssContent). rewrite E. now left. }
  apply startsWith_prefix in H0 as [t ->].
  destruct (join_head [LF] (js "@import" ++ t) ls) as [r1 E1].
  rewrite E1. now eexists.
Qed.

Lemma clyroBlock_not_nil (tpl workingContent : str) :
  clyroBlock tpl workingContent <> [].
Proof.
  destruct (buildBlock_ends (ch ":") (js "root")
              (spread2 (coreRootVars tpl) (userRootVars workingContent)))
    as [tr Er].
  destruct (buildBlock_ends (ch ".") (js "dark")
              (spread2 (coreDarkVars tpl) (userDarkVars workingContent)))
    as [td Ed].
  destruct (clyroBlock_root_dark (coreThemeInline tpl)
              (mergedRootBlock tpl workingContent)
              (mergedDarkBlock tpl workingContent)
              (coreLayerBase tpl)) as (a & b & E).
  { unfold mergedRootBlock. change (js ":root") with (ch ":" :: js "root").
    rewrite Er. discriminate. }
  { unfold mergedDarkBlock. change (js ".dark") with (ch "." :: js "dark").
    rewrite Ed. discriminate. }
  change (join [LF; LF] (filterBoolean _)) with (clyroBlock tpl workingContent)
    in E.
  rewrite E. unfold mergedRootBlock.
  change (js ":root") with (ch ":" :: js "root"). rewrite Er.
  destruct a; discriminate.
Qed.

(** X26: when some text of the file is left over, the text written back is
    the import lines, one to a line, a blank line, the managed sections,
    a blank line, the leftover text as it is, and a line feed. *)
Theorem finalCss_layout_with_leftover (tpl cssContent : str) :
  str_eqb (leftover cssContent) [] = false ->
  finalCss tpl cssContent
  = join [LF] (importLines cssContent) ++ [LF; LF]
    ++ clyroBlock tpl (workingContent0 cssContent) ++ [LF; LF]
    ++ leftover cssContent ++ [LF].
Proof.
  intros Hne. apply str_eqb_neq in Hne. unfold finalCss. cbv zeta.
  change (stripOldSections (workingContent0 cssContent))
    with (leftover cssContent).
  assert (Htrim : trim (leftover cssContent) = leftover cssContent).
  { unfold leftover, stripOldSections. apply trim_idem. }
  destruct (trimmed_last _ Htrim Hne) as (L' & d & EL & Hd).
  destruct (compactImports_head cssContent) as [r Eci].
  pose proof (clyroBlock_not_nil tpl (workingContent0 cssContent)) as Hcb.
  set (ci := join [LF] (importLines cssContent)) in *.
  set (cb := clyroBlock tpl (workingContent0 cssContent)) in *.
  set (L := leftover cssContent) in *.
  destruct cb as [|c0 cb']; [contradiction|].
  destruct L as [|l0 L0]; [contradiction|].
  rewrite Eci. cbn [filterBoolean filter join].
  replace ((ch "@" :: r) ++ [LF; LF] ++ (c0 :: cb') ++ [LF; LF] ++ l0 :: L0)
    with (ch "@" :: (r ++ [LF; LF] ++ (c0 :: cb') ++ [LF; LF] ++ L') ++ [d]).
  - rewrite trim_fixed by (reflexivity || assumption).
    cbn [app]. rewrite <- !app_assoc. cbn [app].
    change (l0 :: L0 ++ [LF]) with ((l0 :: L0) ++ [LF]). rewrite EL.
    rewrite <- !app_assoc. reflexivity.
  - rewrite EL. cbn [app]. rewrite <- !app_assoc. cbn [app].
    now rewrite <- ?app_assoc.
Qed.

Lemma finalCss_layout_with_leftover_witness :
  let css := js ".btn { color: red; }" in
  finalCss sample_template css
  = join [LF] (importLines css) ++ [LF; LF]
    ++ clyroBlock sample_template (workingContent0 css) ++ [LF; LF]
    ++ js ".btn { color: red; }" ++ [LF].
Proof.
  intros css.
  exact (finalCss_layout_with_leftover sample_template css eq_refl).
Defined.

(** ** The block extractor on its own result *)

Lemma scan_braces_all (x : str) : forall d i,
  (forall m, m < length x -> (0 < depth_from d (firstn m x))%Z) ->
  scan_braces x d i = i + length x.
Proof.
  induction x as [|c x IH]; intros d i Hpos; cbn [scan_braces length].
  - lia.
  - pose proof (Hpos 0 ltac:(cbn; lia)) as H0. cbn in H0.
    replace (0 <? d)%Z with true by (symmetry; now apply Z.ltb_lt).
    rewrite IH; [lia|].
    intros m Hm. exact (Hpos (S m) ltac:(cbn; lia)).
Qed.

Lemma extractBlock_nil (keyword : str) : extractBlock [] keyword = [].
Proof.
  unfold extractBlock. destruct (indexOf [] keyword) as [s0|]; [|reflexivity].
  destruct (indexOfFrom [] (js "{") s0) as [o|] eqn:E; [|reflexivity].
  unfold indexOfFrom in E. cbn in E. rewrite Nat.min_0_r in E. discriminate.
Qed.

(** What [extractBlock] gives for a keyword without a brace: nothing, or
    the keyword, some text without an opening brace, that brace, and an
    inside during which the depth stays positive. *)
Lemma extractBlock_shape (content keyword : str) :
  find_char (ch "{") keyword = None ->
  extractBlock content keyword = []
  \/ exists mid inner,
       extractBlock content keyword = keyword ++ mid ++ ch "{" :: inner
       /\ find_char (ch "{") mid = None
       /\ (forall m, m < length inner ->
                     (0 < depth_from 1 (firstn m inner))%Z).
Proof.
  intros Hkw. unfold extractBlock.
  destruct (indexOf content keyword) as [s0|] eqn:Ek; [|now left].
  apply indexOf_Some in Ek as (Hlen & Hstart & _).
  apply startsWith_prefix in Hstart as [t Ht].
  destruct (indexOfFrom content (js "{") s0) as [o|] eqn:Eo; [|now left].
  right.
  unfold indexOfFrom in Eo. rewrite Nat.min_l in Eo by assumption.
  rewrite indexOf_at_shift in Eo. change (js "{") with [ch "{"] in Eo.
  rewrite indexOf_single, Ht, (find_char_app_none _ _ _ Hkw) in Eo.
  destruct (find_char (ch "{") t) as [j|] eqn:Ej; [|discriminate].
  cbn in Eo. inversion Eo; subst o. clear Eo.
  apply find_char_split in Ej as (mid & t2 & -> & Hmid & <-).
  assert (Hskip : skipn (s0 + (length keyword + length mid) + 1) content = t2).
  { replace (s0 + (length keyword + length mid) + 1)
      with (length (keyword ++ mid ++ [ch "{"]) + s0)
      by (rewrite !length_app; cbn; lia).
    rewrite <- skipn_skipn, Ht.
    replace (keyword ++ mid ++ ch "{" :: t2)
      with ((keyword ++ mid ++ [ch "{"]) ++ t2)
      by (rewrite <- !app_assoc; reflexivity).
    apply skipn_app_exact. }
  rewrite Hskip.
  destruct (scan_braces_spec t2 1
              (s0 + (length keyword + length mid) + 1) ltac:(lia))
    as (n & Hn & Hl & Hpos & _).
  rewrite Hn.
  exists mid, (firstn n t2). split; [|split; [assumption|]].
  - unfold slice. rewrite Ht.
    replace (s0 + (length keyword + length mid) + 1 + n - s0)
      with (length (keyword ++ mid ++ [ch "{"]) + n)
      by (rewrite !length_app; cbn; lia).
    replace (keyword ++ mid ++ ch "{" :: t2)
      with ((keyword ++ mid ++ [ch "{"]) ++ t2)
      by (rewrite <- !app_assoc; reflexivity).
    rewrite firstn_app_2, <- !app_assoc. reflexivity.
  - intros m Hm. rewrite length_firstn in Hm.
    rewrite firstn_firstn. replace (Nat.min m n) with m by lia.
    apply Hpos. lia.
Qed.

(** A text of that shape is extracted from itself as a whole. *)
Lemma extractBlock_whole (keyword mid inner : str) :
  find_char (ch "{") (keyword ++ mid) = None ->
  (forall m, m < length inner -> (0 < depth_from 1 (firstn m inner))%Z) ->
  extractBlock (keyword ++ mid ++ ch "{" :: inner) keyword
  = keyword ++ mid ++ ch "{" :: inner.
Proof.
  intros Hno Hpos. unfold extractBlock.
  rewrite (indexOf_here _ _ (startsWith_app keyword _)).
  unfold indexOfFrom. rewrite Nat.min_0_l. cbn [skipn].
  rewrite indexOf_at_shift. change (js "{") with [ch "{"].
  rewrite indexOf_single.
  replace (keyword ++ mid ++ ch "{" :: inner)
    with ((keyword ++ mid) ++ ch "{" :: inner)
    by (rewrite <- !app_assoc; reflexivity).
  rewrite (find_char_app _ _ _ Hno). cbn [option_map].
  set (o := 0 + length (keyword ++ mid)).
  assert (Hskip : skipn (o + 1) ((keyword ++ mid) ++ ch "{" :: inner) = inner).
  { replace ((keyword ++ mid) ++ ch "{" :: inner)
      with (((keyword ++ mid) ++ [ch "{"]) ++ inner)
      by (rewrite <- !app_assoc; reflexivity).
    replace (o + 1) with (length ((keyword ++ mid) ++ [ch "{"]))
      by (subst o; rewrite !length_app; cbn [length]; lia).
    apply skipn_app_exact. }
  rewrite Hskip, (scan_braces_all inner 1 (o + 1) Hpos).
  unfold slice. cbn [skipn]. apply firstn_all2.
  subst o. rewrite !length_app. cbn [length]. lia.
Qed.

(** X16: for a keyword that holds no opening brace, what [extractBlock] gives
    starts with the keyword unless it is empty, and is extracted from
    itself as it is: extracting twice is extracting once. *)
Theorem extractBlock_twice (content keyword : str) :
  find_char (ch "{") keyword = None ->
  extractBlock (extractBlock content keyword) keyword
  = extractBlock content keyword
  /\ (extractBlock content keyword <> [] ->
      startsWith (extractBlock content keyword) keyword = true).
Proof.
  intros Hkw.
  destruct (extractBlock_shape content keyword Hkw)
    as [E | (mid & inner & E & Hmid & Hpos)]; rewrite E.
  - split; [apply extractBlock_nil | intros H; now contradiction H].
  - split; [|intros _; apply startsWith_app].
    apply extractBlock_whole; [|assumption].
    rewrite (find_char_app_none _ _ _ Hkw), Hmid. reflexivity.
Qed.

Lemma extractBlock_twice_witness :
  let content := js "a { b } @layer base { body { c } } d" in
  extractBlock (extractBlock content (js "@layer base")) (js "@layer base")
  = js "@layer base { body { c } }".
Proof.
  intros content.
  rewrite (proj1 (extractBlock_twice content (js "@layer base") eq_refl)).
  reflexivity.
Defined.

(** ** The aliases of a component file *)

Lemma find_char_cons_absent (c d : char) (s : str) :
  find_char c (d :: s) = None -> N.eqb d c = false /\ find_char c s = None.
Proof.
  cbn [find_char]. destruct (N.eqb d c); [discriminate|].
  destruct (find_char c s); [discriminate | now split].
Qed.

Lemma getSubstitution_plain (matched before after template : str) :
  find_char (ch "$") template = None ->
  getSubstitution matched before after template = template.
Proof.
  induction template as [|c t IH]; [reflexivity|]. intros H.
  apply find_char_cons_absent in H as [Hc Ht]. cbn [getSubstitution].
  rewrite Hc. now rewrite IH.
Qed.

Lemma find_char_app_absent (c : char) (a b : str) :
  find_char c a = None -> find_char c b = None -> find_char c (a ++ b) = None.
Proof.
  intros Ha Hb. now rewrite (find_char_app_none c a b Ha), Hb.
Qed.

Lemma find_char_skipn_absent (c : char) (n : nat) : forall s,
  find_char c s = None -> find_char c (skipn n s) = None.
Proof.
  induction n as [|n IH]; intros s H; [exact H|].
  destruct s as [|d s]; [reflexivity|].
  apply find_char_cons_absent in H as [_ H]. cbn [skipn]. now apply IH.
Qed.

Lemma strip_at_slash_plain (actual : str) :
  find_char (ch "$") actual = None ->
  find_char (ch "$") (strip_at_slash actual ++ js "/") = None.
Proof.
  intros H. apply find_char_app_absent; [|reflexivity].
  unfold strip_at_slash. destruct (startsWith actual (js "@/")); [|exact H].
  now apply find_char_skipn_absent.
Qed.

Lemma replaceWith_prefix (pat replacement rest : str) :
  find_char (ch "$") replacement = None ->
  replaceWith (pat ++ rest) pat replacement = replacement ++ rest.
Proof.
  intros H. unfold replaceWith.
  rewrite (indexOf_here _ _ (startsWith_app pat rest)).
  cbn [firstn app Nat.add]. rewrite skipn_app_exact.
  now rewrite getSubstitution_plain.
Qed.

Lemma fold_aliases_apart (relativePath : str) (aliases : list (str * str)) :
  forall acc,
  forallb (alias_apart relativePath) aliases = true ->
  fold_left (resolvedPath_step relativePath) aliases acc = acc.
Proof.
  induction aliases as [|e aliases IH]; intros acc H; [reflexivity|].
  cbn [forallb] in H. apply andb_true_iff in H as [He H].
  unfold alias_apart in He. apply negb_true_iff in He.
  cbn [fold_left]. unfold resolvedPath_step at 2. cbv zeta.
  rewrite He. now apply IH.
Qed.

(** X17: a path that starts with no alias followed by a slash is left as it
    is; so it is when there is no alias at all. *)
Theorem resolvedPath_without_alias
    (aliases : list (str * str)) (relativePath : str) :
  forallb (alias_apart relativePath) aliases = true ->
  resolvedPath aliases relativePath = relativePath.
Proof. apply fold_aliases_apart. Qed.

Lemma resolvedPath_without_alias_witness :
  resolvedPath [(js "components", js "@/components"); (js "lib", js "@/lib")]
    (js "hooks/use-toast.ts")
  = js "hooks/use-toast.ts".
Proof.
  exact (resolvedPath_without_alias
           [(js "components", js "@/components"); (js "lib", js "@/lib")]
           (js "hooks/use-toast.ts") eq_refl).
Defined.

(** X18: of the aliases that the path starts with, the last one in the order
    of the entries decides, whatever the earlier ones are: the alias and
    its slash give way to the target of the alias, without a leading
    [@/], and a slash.  The target holds no dollar, which the replacement
    would read as a pattern. *)
Theorem resolvedPath_last_alias_decides
    (earlier later : list (str * str)) (alias actual rest : str) :
  find_char (ch "$") actual = None ->
  forallb (alias_apart (alias ++ js "/" ++ rest)) later = true ->
  resolvedPath (earlier ++ (alias, actual) :: later) (alias ++ js "/" ++ rest)
  = strip_at_slash actual ++ js "/" ++ rest.
Proof.
  intros Hplain Hlater. unfold resolvedPath.
  rewrite fold_left_app. cbn [fold_left].
  rewrite (fold_aliases_apart _ later _ Hlater).
  unfold resolvedPath_step. cbv zeta. cbn [fst snd].
  replace (alias ++ js "/" ++ rest) with ((alias ++ js "/") ++ rest)
    by now rewrite <- app_assoc.
  rewrite startsWith_app.
  rewrite (replaceWith_prefix _ _ rest (strip_at_slash_plain actual Hplain)).
  now rewrite <- app_assoc.
Qed.

Lemma resolvedPath_last_alias_decides_witness :
  resolvedPath
    [(js "components", js "@/components"); (js "ui", js "@/components/ui");
     (js "lib", js "@/lib")]
    (js "ui/button.tsx")
  = js "components/ui/button.tsx".
Proof.
  exact (resolvedPath_last_alias_decides
           [(js "components", js "@/components")] [(js "lib", js "@/lib")]
           (js "ui") (js "@/components/ui") (js "button.tsx")
           eq_refl eq_refl).
Defined.

(** ** The command of the package manager *)

Lemma install_args_shape (pkgManager : PackageManager) (dev : bool)
    (packages : list str) :
  install_args pkgManager dev packages
  = match pkgManager with npm => js "install" | _ => js "add" end
    :: (if dev
        then [match pkgManager with
              | npm => js "--save-dev"
              | yarn => js "--dev"
              | _ => js "-D"
              end]
        else [])
    ++ match pkgManager with
       | yarn => packages
       | _ => filterBoolean packages
       end.
Proof. destruct pkgManager, dev; reflexivity. Qed.

Lemma installPackages_shape
    (path_join : string -> string -> string)
    (fs_existsSync : string -> bool)
    (execa : PackageManager -> list str -> string -> option str)
    (package : str) (others : list str) (options : InstallOptions) :
  let packages := package :: others in
  exists after,
    installPackages path_join fs_existsSync execa packages options
    = LogInstalling packages
      :: Execa (detectPackageManager path_join fs_existsSync
                  (install_cwd options))
           (install_args
              (detectPackageManager path_join fs_existsSync
                 (install_cwd options))
              (truthy (install_dev options)) packages)
           (install_cwd options)
      :: after
    /\ forall e, In e after ->
         match e with Execa _ _ _ => False | _ => True end.
Proof.
  intros packages. unfold installPackages, packages.
  eexists. split; [reflexivity|].
  intros e He.
  destruct (execa _ _ _); [destruct (truthy (install_silent options))|];
    cbn in He; intuition (subst; exact I).
Qed.


Lemma filterBoolean_fixed (l : list str) :
  forallb (fun x => match x with [] => false | _ => true end) l = true ->
  filterBoolean l = l.
Proof.
  induction l as [|x l IH]; [reflexivity|]. cbn [forallb]. intros H.
  apply andb_true_iff in H as [Hx H]. unfold filterBoolean in *.
  cbn [filter]. rewrite Hx. now rewrite IH.
Qed.


(** ** The version of Tailwind *)

Lemma TAILWIND_V3_REGEX_first (c : char) (rest : str) :
  TAILWIND_V3_REGEX (c :: rest)
  = if N.eqb c (ch "3") then TAILWIND_V3_REGEX (c :: rest) else None.
Proof. cbn [TAILWIND_V3_REGEX]. now destruct (N.eqb c (ch "3")). Qed.

Lemma TAILWIND_V3_REGEX_three (rest : str) :
  exists n, TAILWIND_V3_REGEX (ch "3" :: rest) = Some n.
Proof.
  cbn [TAILWIND_V3_REGEX]. rewrite N.eqb_refl.
  destruct rest as [|d rest']; [now eexists|].
  destruct (N.eqb d (ch ".")); [|now eexists].
  destruct (length (fst (span is_digit rest'))); now eexists.
Qed.

(** X21: the version is read off the first character of the range that
    [package.json] declares for [tailwindcss]: v3 when it is [3], v4 for
    every other one, and so for a range like [^3.4.1] or [~3.4.1]. *)
Theorem getTailwindVersion_by_first_character
    (pkg : PackageJson) (c : char) (rest : str) :
  tailwindcss_range pkg = Some (c :: rest) ->
  getTailwindVersion (Some pkg)
  = Some (if N.eqb c (ch "3") then v3 else v4).
Proof.
  intros Htw. unfold getTailwindVersion. rewrite Htw.
  destruct (N.eqb c (ch "3")) eqn:E.
  - apply N.eqb_eq in E. subst c.
    destruct (TAILWIND_V3_REGEX_three rest) as [n ->]. reflexivity.
  - rewrite TAILWIND_V3_REGEX_first, E. reflexivity.
Qed.

Lemma getTailwindVersion_by_first_character_witness :
  getTailwindVersion
    (Some {| dependencies := Some [(js "react", js "^18.3.1")];
             devDependencies := Some [(js "tailwindcss", js "^3.4.1")] |})
  = Some v4.
Proof.
  exact (getTailwindVersion_by_first_character
           {| dependencies := Some [(js "react", js "^18.3.1")];
              devDependencies := Some [(js "tailwindcss", js "^3.4.1")] |}
           (ch "^") (js "3.4.1") eq_refl).
Defined.

(** The pattern on some ranges: the match is the [3] alone, or the [3],
    the dot and the digits after it; there is none when the range does
    not start with [3]. *)
Example TAILWIND_V3_REGEX_lengths :
  map TAILWIND_V3_REGEX
    [js "3"; js "3.4.1"; js "3.42"; js "3.x"; js "34"; js "^3.4.1"; js "4.0.0"]
  = [Some 1; Some 3; Some 4; Some 1; Some 1; None; None].
Proof. reflexivity. Qed.

(** ** The preflight of [init] *)

Section PreflightInitFacts.

Variables MISSING_DIR_OR_EMPTY_PROJECT EXISTING_CONFIG UNSUPPORTED_FRAMEWORK
  TAILWIND_NOT_CONFIGURED IMPORT_ALIAS_MISSING : str.
Variable path_join : string -> string -> string.
Variable fs_existsSync : string -> bool.
Variable getProjectInfo : string -> option ProjectInfo.

Local Abbreviation preflight :=
  (preFlightInit MISSING_DIR_OR_EMPTY_PROJECT EXISTING_CONFIG
     UNSUPPORTED_FRAMEWORK TAILWIND_NOT_CONFIGURED IMPORT_ALIAS_MISSING
     path_join fs_existsSync getProjectInfo).

(** What a successful preflight has checked. *)
Lemma preFlightInit_ok_facts (options : InitOptions) (info : ProjectInfo)
    (ht hts : bool) (fw : str) :
  preflight options = PreflightOk info ht hts fw ->
  fs_existsSync (init_cwd options) = true
  /\ fs_existsSync (path_join (init_cwd options) "package.json") = true
  /\ (fs_existsSync (path_join (init_cwd options) "clyro.json") = false
      \/ init_force options = Some true)
  /\ getProjectInfo (init_cwd options) = Some info
  /\ str_eqb (framework_name (framework info)) (js "manual") = false
  /\ hasTailwind info = true
  /\ (isTsx info = true -> truthy_str (aliasPrefix info) = true)
  /\ ht = true
  /\ hts = truthy_str (aliasPrefix info)
  /\ fw = framework_name (framework info).
Proof.
  unfold preFlightInit.
  destruct (fs_existsSync (init_cwd options)); cbn [negb orb]; [|discriminate].
  destruct (fs_existsSync (path_join (init_cwd options) "package.json"));
    cbn [negb]; [|discriminate].
  destruct (fs_existsSync (path_join (init_cwd options) "clyro.json")) eqn:Ec;
    cbn [andb].
  - destruct (init_force options) as [[|]|] eqn:Ef; cbn [truthy negb];
      try discriminate.
    destruct (getProjectInfo (init_cwd options)) as [p|]; [|discriminate].
    destruct (str_eqb (framework_name (framework p)) (js "manual")) eqn:Em;
      [discriminate|].
    destruct (hasTailwind p) eqn:Eh; cbn [negb];
      destruct (isTsx p) eqn:Et; cbn [andb];
      destruct (truthy_str (aliasPrefix p)) eqn:Ea; cbn [negb app];
      try discriminate; intros H; injection H as H1 H2 H3 H4; subst;
      repeat split; auto; congruence.
  - destruct (getProjectInfo (init_cwd options)) as [p|]; [|discriminate].
    destruct (str_eqb (framework_name (framework p)) (js "manual")) eqn:Em;
      [discriminate|].
    destruct (hasTailwind p) eqn:Eh; cbn [negb];
      destruct (isTsx p) eqn:Et; cbn [andb];
      destruct (truthy_str (aliasPrefix p)) eqn:Ea; cbn [negb app];
      try discriminate; intros H; injection H as H1 H2 H3 H4; subst;
      repeat split; auto; congruence.
Qed.

(** X22: the preflight succeeds exactly when the directory and its
    [package.json] exist, there is no [clyro.json] or [force] is set,
    the project information is there, the framework is not [manual],
    Tailwind is set up, and a TypeScript project has an import alias;
    the result then holds the project information as it was given. *)
Theorem preFlightInit_ok_iff (options : InitOptions) (info : ProjectInfo)
    (ht hts : bool) (fw : str) :
  preflight options = PreflightOk info ht hts fw
  <-> fs_existsSync (init_cwd options) = true
      /\ fs_existsSync (path_join (init_cwd options) "package.json") = true
      /\ (fs_existsSync (path_join (init_cwd options) "clyro.json") = false
          \/ init_force options = Some true)
      /\ getProjectInfo (init_cwd options) = Some info
      /\ framework_name (framework info) <> js "manual"
      /\ hasTailwind info = true
      /\ (isTsx info = true -> truthy_str (aliasPrefix info) = true)
      /\ ht = true
      /\ hts = truthy_str (aliasPrefix info)
      /\ fw = framework_name (framework info).
Proof.
  split.
  - intros H. apply preFlightInit_ok_facts in H.
    destruct H as (H1 & H2 & H3 & H4 & H5 & H6 & H7 & H8 & H9 & H10).
    repeat split; try assumption.
    intros E. apply str_eqb_eq in E. rewrite E in H5. discriminate.
  - intros (H1 & H2 & H3 & H4 & H5 & H6 & H7 & -> & -> & ->).
    unfold preFlightInit. rewrite H1, H2. cbn [negb orb].
    assert (Hc : fs_existsSync (path_join (init_cwd options) "clyro.json")
                 && negb (truthy (init_force options)) = false).
    { destruct H3 as [-> | ->]; [reflexivity | apply andb_false_r]. }
    rewrite Hc, H4.
    destruct (str_eqb (framework_name (framework info)) (js "manual")) eqn:Em;
      [apply str_eqb_eq in Em; contradiction|].
    rewrite H6. cbn [negb].
    destruct (isTsx info); cbn [andb]; [|reflexivity].
    rewrite (H7 eq_refl). reflexivity.
Qed.

(** X23: after a successful preflight the project information names the
    stylesheet: the file that [init] hands to [injectclyroTheme] and the
    one that it writes to [clyro.json] are that same file, and neither of
    the two default paths of the action is used. *)
Theorem preflight_ok_names_the_stylesheet (options : InitOptions)
    (info : ProjectInfo) (ht hts : bool) (fw : str) :
  preflight options = PreflightOk info ht hts fw ->
  exists file,
    tailwindCssFile info = Some file
    /\ file <> []
    /\ theme_css_file info = file
    /\ clyroJson_tailwind_css info = file.
Proof.
  intros H. apply preFlightInit_ok_facts in H.
  destruct H as (_ & _ & _ & _ & _ & Hh & _).
  unfold hasTailwind in Hh. unfold theme_css_file, clyroJson_tailwind_css.
  destruct (tailwindCssFile info) as [[|c file]|]; cbn [truthy_str] in Hh.
  - rewrite !andb_false_r in Hh. discriminate.
  - exists (c :: file). repeat split. discriminate.
  - rewrite !andb_false_r in Hh. discriminate.
Qed.

End PreflightInitFacts.

Lemma preflight_ok_names_the_stylesheet_witness :
  let info :=
    {| framework :=
         {| framework_name := js "vite"; framework_label := js "Vite";
            framework_links_installation := [];
            framework_links_tailwind := [] |};
       tailwindVersion := Some v4;
       tailwindConfigFile := None;
       tailwindCssFile := Some (js "src/app.css");
       aliasPrefix := Some (js "@");
       isSrcDir := true; isRSC := false; isTsx := true |} in
  exists file,
    tailwindCssFile info = Some file
    /\ file <> []
    /\ theme_css_file info = file
    /\ clyroJson_tailwind_css info = file.
Proof.
  intros info.
  exact (preflight_ok_names_the_stylesheet
           (js "1") (js "2") (js "3") (js "4") (js "5")
           (fun cwd file => String.append cwd (String.append "/" file))
           (fun p => negb (String.eqb p "app/clyro.json"))
           (fun _ => Some info)
           {| init_cwd := "app"; init_force := None; init_silent := None |}
           info true true (js "vite") eq_refl).
Defined.
